(** * Background e-mail delivery: task queue, delivery tiers, attempt log

    A shallow embedding of
    - [services/taskQueueService.js]   (class [TaskQueue]),
    - [services/emailLogger.js]        (class [EmailLogger]),
    - [services/emailFallbackService.js],
    - [services/noopEmailService.js],
    - the job bodies of [services/emailService.js],
    - the status routes of [routes/status.js],
    - the response cache of [middleware/performance.js],
    and the properties the specification states about them. *)

From stdpp Require Import base numbers relations list strings pretty gmap.

#[local] Set Warnings "-register-all".

(** * JavaScript values *)

(** Numbers are the integers among the JavaScript numbers: retry counts,
    delays, lengths and counters are all the code computes with. *)
Module JS.

Inductive value : Type :=
  | VUndefined
  | VNull
  | VBool (b : bool)
  | VNum (n : Z)
  | VStr (s : string)
  | VObj (props : list (string * value)).

(** [!!v] *)
Definition truthy (v : value) : bool :=
  match v with
  | VUndefined | VNull => false
  | VBool b => b
  | VNum n => negb (n =? 0)%Z
  | VStr s => negb (String.eqb s "")
  | VObj _ => true
  end.

(** [typeof v === 'object']: holds of objects and, as the language has it,
    of [null]. *)
Definition typeof_object (v : value) : bool :=
  match v with
  | VNull | VObj _ => true
  | _ => false
  end.

(** Property lookup in an object literal; an absent property reads as
    [undefined]. *)
Fixpoint assoc (k : string) (props : list (string * value)) : value :=
  match props with
  | [] => VUndefined
  | (k', v) :: rest => if String.eqb k k' then v else assoc k rest
  end.

(** An [Error] object, as thrown by the transports and by [new Error(..)]. *)
Record Error : Type := mkError { message : string }.

(** [v.k] for a [v] that is not [null] or [undefined]. *)
Definition prop (v : value) (k : string) : value :=
  match v with
  | VObj props => assoc k props
  | _ => VUndefined
  end.

(** [v.k]: reading a property of [null] or [undefined] throws a TypeError. *)
Definition get (v : value) (k : string) : Error + value :=
  match v with
  | VUndefined | VNull =>
      inl (mkError ("Cannot read properties of null or undefined (reading '" +:+ k +:+ "')"))
  | _ => inr (prop v k)
  end.

(** [a || b] *)
Definition or (a b : value) : value := if truthy a then a else b.

(** [v || d] for a setting [v] that is a number (the documented type of
    [options.maxRetries] and [options.retryDelay]) or absent: [0] and
    [undefined] are falsy and give the default.  Settings of other types are
    not modelled; they read as the default. *)
Definition or_number (v : value) (d : Z) : Z :=
  match v with
  | VNum n => if (n =? 0)%Z then d else n
  | _ => d
  end.

End JS.

(** * The task queue ([services/taskQueueService.js]) *)

Module TaskQueue.
Import JS.
Local Open Scope Z_scope.

(** A task object.  [taskFn] names the work function; [resolve] is the
    resolver captured from [new Promise((resolve) => ...)], identified with
    the promise it settles. *)
Record task : Type := mkTask {
  id : string;
  taskFn : string;
  taskName : string;
  args : list value;
  addedAt : Z;
  resolve : nat;
  retries : Z;
  maxRetries : Z;
  retryDelay : Z
}.

(** [task.retries++] *)
Definition retry (t : task) : task :=
  {| id := id t; taskFn := taskFn t; taskName := taskName t; args := args t;
     addedAt := addedAt t; resolve := resolve t; retries := retries t + 1;
     maxRetries := maxRetries t; retryDelay := retryDelay t |}.

Inductive promise : Type :=
  | Pending
  | Fulfilled (v : value)
  | Rejected (e : Error).

(** How one invocation [await task.taskFn(...task.args)] ends: with the
    value the work function returns or with the value it throws, which is
    an [Error] object as a rule but can be any value, [null] and
    [undefined] included.  Work functions are [async] (every one in
    [emailService.js] is), so the outcome reaches [processQueue] on a later
    turn of the event loop. *)
Inductive outcome : Type :=
  | Returned (result : value)
  | Threw (error : value).

(** The [TaskQueue] object ([queue], [processing], [maxConcurrent],
    [activeTasks]) together with what the runtime holds for it: the
    activations of [processQueue] suspended at their [await], the callbacks
    registered with [setTimeout], and the promises handed out by [addTask]
    (a promise is its index in [promises]).  [invoked] records, most recent
    first, every call of a work function. *)
Record state : Type := mkState {
  queue : list task;
  processing : bool;
  maxConcurrent : Z;
  activeTasks : Z;
  awaiting : list task;
  timers : list task;
  promises : list promise;
  invoked : list nat
}.

(** [new TaskQueue()] *)
Definition constructor : state :=
  {| queue := []; processing := false; maxConcurrent := 3; activeTasks := 0;
     awaiting := []; timers := []; promises := []; invoked := [] |}.

Definition set_queue (q : list task) (s : state) : state :=
  {| queue := q; processing := processing s; maxConcurrent := maxConcurrent s;
     activeTasks := activeTasks s; awaiting := awaiting s; timers := timers s;
     promises := promises s; invoked := invoked s |}.

Definition set_processing (b : bool) (s : state) : state :=
  {| queue := queue s; processing := b; maxConcurrent := maxConcurrent s;
     activeTasks := activeTasks s; awaiting := awaiting s; timers := timers s;
     promises := promises s; invoked := invoked s |}.

Definition set_activeTasks (n : Z) (s : state) : state :=
  {| queue := queue s; processing := processing s; maxConcurrent := maxConcurrent s;
     activeTasks := n; awaiting := awaiting s; timers := timers s;
     promises := promises s; invoked := invoked s |}.

Definition set_awaiting (l : list task) (s : state) : state :=
  {| queue := queue s; processing := processing s; maxConcurrent := maxConcurrent s;
     activeTasks := activeTasks s; awaiting := l; timers := timers s;
     promises := promises s; invoked := invoked s |}.

Definition set_timers (l : list task) (s : state) : state :=
  {| queue := queue s; processing := processing s; maxConcurrent := maxConcurrent s;
     activeTasks := activeTasks s; awaiting := awaiting s; timers := l;
     promises := promises s; invoked := invoked s |}.

Definition set_promises (l : list promise) (s : state) : state :=
  {| queue := queue s; processing := processing s; maxConcurrent := maxConcurrent s;
     activeTasks := activeTasks s; awaiting := awaiting s; timers := timers s;
     promises := l; invoked := invoked s |}.

(** [task.resolve(v)]: settles the promise if it is still pending. *)
Definition call_resolve (p : nat) (v : value) (s : state) : state :=
  match promises s !! p with
  | Some Pending => set_promises (<[p := Fulfilled v]> (promises s)) s
  | _ => s
  end.

(** [processQueue()] up to its [await]: the guard, then
    [processing = true; activeTasks++; task = queue.shift()] and the call of
    the work function. *)
Definition processQueue (s : state) : state :=
  if (length (queue s) =? 0)%nat || (maxConcurrent s <=? activeTasks s) then s
  else
    match queue s with
    | [] => s
    | task :: rest =>
        {| queue := rest; processing := true; maxConcurrent := maxConcurrent s;
           activeTasks := activeTasks s + 1;
           awaiting := awaiting s ++ [task]; timers := timers s;
           promises := promises s; invoked := resolve task :: invoked s |}
    end.

(** [createTaskOptions(maxRetries = 3, retryDelay = 5000)]: a default
    applies to an argument that is [undefined]. *)
Definition createTaskOptions (maxRetries retryDelay : value) : value :=
  VObj [("_isTaskOptions", VBool true);
        ("maxRetries", match maxRetries with VUndefined => VNum 3 | v => v end);
        ("retryDelay", match retryDelay with VUndefined => VNum 5000 | v => v end)].

(** [let options = { maxRetries: 3, retryDelay: 5000 }] *)
Definition default_options : value :=
  VObj [("maxRetries", VNum 3); ("retryDelay", VNum 5000)].

Definition last_arg (args : list value) : value := List.last args VUndefined.

(** The test [args.length > 0 && typeof args[args.length-1] === 'object' &&
    args[args.length-1]._isTaskOptions]. *)
Definition has_task_options (args : list value) : Error + bool :=
  if (0 <? length args)%nat && typeof_object (last_arg args) then
    match get (last_arg args) "_isTaskOptions" with
    | inl e => inl e
    | inr flag => inr (truthy flag)
    end
  else inr false.

(** The task object built by [addTask] once the options are known. *)
Definition new_task (taskFn taskName : string) (args : list value)
    (options : value) (id : string) (now : Z) (p : nat) : task :=
  {| id := id; taskFn := taskFn; taskName := taskName; args := args;
     addedAt := now; resolve := p; retries := 0;
     maxRetries := or_number (prop options "maxRetries") 3;
     retryDelay := or_number (prop options "retryDelay") 5000 |}.

(** [if (!this.processing) this.processQueue()], as [addTask] and the
    retry timer both end. *)
Definition start_if_idle (s : state) : state :=
  if processing s then s else processQueue s.

(** [addTask(taskFn, taskName, ...args)] up to and including
    [this.queue.push(task)].  [id] is the value of
    [Date.now() + Math.random().toString(36).substring(7)] and [now] that of
    [new Date()].  The result is the promise returned to the caller and the
    new state, or the TypeError with which the [async] function rejects
    before any task exists. *)
Definition addTask_push (taskFn taskName : string) (args : list value)
    (id : string) (now : Z) (s : state) : Error + (nat * state) :=
  match has_task_options args with
  | inl e => inl e
  | inr opts =>
      let options := if opts then last_arg args else default_options in
      let args := if opts then removelast args else args in
      let p := length (promises s) in
      let task := new_task taskFn taskName args options id now p in
      let s := set_promises (promises s ++ [Pending]) s in
      inr (p, set_queue (queue s ++ [task]) s)
  end.

Definition addTask (taskFn taskName : string) (args : list value)
    (id : string) (now : Z) (s : state) : Error + (nat * state) :=
  match addTask_push taskFn taskName args id now s with
  | inl e => inl e
  | inr (p, s) => inr (p, start_if_idle s)
  end.

(** The [try]/[catch] of [processQueue] once the awaited call has ended.
    When no retry is left the [catch] reads [error.message]: for a thrown
    [null] or [undefined] that read throws, [task.resolve] is not reached
    and only the [finally] block follows; the promise of this activation
    of [processQueue] is then rejected, and no caller handles it. *)
Definition after_await (task : task) (o : outcome) (s : state) : state :=
  match o with
  | Returned result => call_resolve (resolve task) result s
  | Threw error =>
      if retries task <? maxRetries task then
        set_timers (timers s ++ [retry task]) s
      else
        match get error "message" with
        | inl _ => s
        | inr text =>
            call_resolve (resolve task)
              (VObj [("error", text);
                     ("retries", VNum (retries task));
                     ("failed", VBool true)]) s
        end
  end.

(** The [finally] block, statement by statement. *)
Definition finally_decrement (s : state) : state :=
  set_activeTasks (activeTasks s - 1) s.

Definition finally_next (s : state) : state :=
  if (0 <? length (queue s))%nat then processQueue s
  else if activeTasks s =? 0 then set_processing false s
  else s.

Definition finally_capacity (s : state) : state :=
  if (activeTasks s <? maxConcurrent s) && (0 <? length (queue s))%nat
  then processQueue s else s.

Definition finally_block (s : state) : state :=
  finally_capacity (finally_next (finally_decrement s)).

(** The callback given to [setTimeout]. *)
Definition timer_push (task : task) (s : state) : state :=
  set_queue (queue s ++ [task]) s.

Definition timer_callback (task : task) (s : state) : state :=
  start_if_idle (timer_push task s).

(** [getStatus()] *)
Record status : Type := mkStatus {
  queueLength : nat;
  status_activeTasks : Z;
  isProcessing : bool
}.

Definition getStatus (s : state) : status :=
  {| queueLength := length (queue s); status_activeTasks := activeTasks s;
     isProcessing := processing s |}.

(** ** The event loop *)

(** The first task of [l] that settles promise [p], and [l] without it. *)
Fixpoint pick (p : nat) (l : list task) : option (task * list task) :=
  match l with
  | [] => None
  | t :: rest =>
      if (resolve t =? p)%nat then Some (t, rest)
      else match pick p rest with
           | Some (t', rest') => Some (t', t :: rest')
           | None => None
           end
  end.

(** What can happen to the queue: a caller submits a task, the awaited
    work function of a task ends, a retry timer fires. *)
Inductive event : Type :=
  | Submit (taskFn taskName : string) (args : list value) (id : string) (now : Z)
  | Settle (p : nat) (o : outcome)
  | Timeout (p : nat).

Definition step (s : state) (e : event) : state :=
  match e with
  | Submit taskFn taskName args id now =>
      match addTask taskFn taskName args id now s with
      | inl _ => s
      | inr (_, s') => s'
      end
  | Settle p o =>
      match pick p (awaiting s) with
      | Some (task, rest) => finally_block (after_await task o (set_awaiting rest s))
      | None => s
      end
  | Timeout p =>
      match pick p (timers s) with
      | Some (task, rest) => timer_callback task (set_timers rest s)
      | None => s
      end
  end.

Definition run (s : state) (es : list event) : state := foldl step s es.

(** The states the queue passes through inside one step, in order: after
    each statement that changes a field. *)
Definition instants (s : state) (e : event) : list state :=
  match e with
  | Submit taskFn taskName args id now =>
      match addTask_push taskFn taskName args id now s with
      | inl _ => [s]
      | inr (_, s1) => [s1; start_if_idle s1]
      end
  | Settle p o =>
      match pick p (awaiting s) with
      | Some (task, rest) =>
          let s1 := after_await task o (set_awaiting rest s) in
          let s2 := finally_decrement s1 in
          let s3 := finally_next s2 in
          [s1; s2; s3; finally_capacity s3]
      | None => [s]
      end
  | Timeout p =>
      match pick p (timers s) with
      | Some (task, rest) =>
          let s1 := timer_push task (set_timers rest s) in
          [s1; start_if_idle s1]
      | None => [s]
      end
  end.

(** Number of calls of the work function of the task that settles [p]. *)
Definition invocations (p : nat) (s : state) : nat :=
  length (filter (λ q, q = p) (invoked s)).

End TaskQueue.

(** * The attempt log ([services/emailLogger.js]) *)

Module EmailLogger.
Import JS.

(** ['success'] and ['failed'] *)
Inductive attempt_status : Type := success | failed.

#[global] Instance attempt_status_eq_dec : EqDecision attempt_status.
Proof. solve_decision. Defined.

Record log_entry : Type := mkEntry {
  id : string;
  timestamp : string;
  type : value;
  to : value;
  subject : value;
  orderId : value;
  status : attempt_status;
  messageId : value;
  error : value;
  retryCount : value
}.

(** What [fs.readFile] followed by [JSON.parse] makes of the log file. *)
Inductive file : Type :=
  | Missing
  | Unparsable
  | NotArray
  | Logs (logs : list log_entry).

(** The logger object; [logFile] stands for the content of the file at the
    path [this.logFile]. *)
Record state : Type := mkLogger {
  logFile : file;
  memoryLogs : list log_entry;
  maxMemoryLogs : nat;
  initialized : bool
}.

(** [new EmailLogger()], next to a log file with content [f]. *)
Definition constructor (f : file) : state :=
  {| logFile := f; memoryLogs := []; maxMemoryLogs := 100; initialized := false |}.

(** What one call reads from its environment: [Date.now()] in decimal, the
    digits cut from [Math.random().toString(36)], [new Date().toISOString()],
    and whether [fs.readFile] or [fs.writeFile] throws. *)
Record io : Type := mkIo {
  now : string;
  random : string;
  iso : string;
  fs_error : bool
}.

(** [init()]: creates the file with an empty array when [fs.access] fails;
    [initialized] stays [false] when that write throws. *)
Definition init (fs_error : bool) (L : state) : state :=
  match logFile L with
  | Missing =>
      if fs_error then L
      else {| logFile := Logs []; memoryLogs := memoryLogs L;
              maxMemoryLogs := maxMemoryLogs L; initialized := true |}
  | _ => {| logFile := logFile L; memoryLogs := memoryLogs L;
            maxMemoryLogs := maxMemoryLogs L; initialized := true |}
  end.

(** The entry built from [emailData], an object given by its properties. *)
Definition make_entry (e : io) (emailData : list (string * value)) : log_entry :=
  {| id := "email_" +:+ now e +:+ "_" +:+ random e;
     timestamp := iso e;
     type := or (assoc "type" emailData) (VStr "unknown");
     to := assoc "to" emailData;
     subject := assoc "subject" emailData;
     orderId := assoc "orderId" emailData;
     status := if truthy (assoc "success" emailData) then success else failed;
     messageId := or (assoc "messageId" emailData) VNull;
     error := or (assoc "error" emailData) VNull;
     retryCount := or (assoc "retryCount" emailData) (VNum 0) |}.

(** [memoryLogs.unshift(logEntry)] and the cut to [maxMemoryLogs]. *)
Definition remember (logEntry : log_entry) (L : state) : list log_entry :=
  let logs := logEntry :: memoryLogs L in
  if (maxMemoryLogs L <? length logs)%nat then take (maxMemoryLogs L) logs else logs.

(** The read-modify-write of the log file.  A throw of [readFile],
    [writeFile] or [logs.unshift] is caught and leaves the file as it is; a
    file that does not parse is started afresh. *)
Definition persist (e : io) (logEntry : log_entry) (L : state) : file :=
  if initialized L then
    if fs_error e then logFile L
    else
      match logFile L with
      | Missing => Missing
      | NotArray => NotArray
      | Unparsable => Logs [logEntry]
      | Logs logs =>
          let logs := logEntry :: logs in
          Logs (if (500 <? length logs)%nat then take 500 logs else logs)
      end
  else logFile L.

(** [logEmailAttempt(emailData)], when no other call runs before it
    returns. *)
Definition logEmailAttempt (e : io) (emailData : list (string * value)) (L : state)
    : log_entry * state :=
  let logEntry := make_entry e emailData in
  (logEntry,
   {| logFile := persist e logEntry L; memoryLogs := remember logEntry L;
      maxMemoryLogs := maxMemoryLogs L; initialized := initialized L |}).

(** ** One call, turn by turn *)

(** [logEmailAttempt] is [async]: it builds the entry and updates
    [memoryLogs] at once, then waits for [fs.readFile], then for
    [fs.writeFile], and calls made by other jobs can run in between.
    [reading] holds the entries of the calls that wait for their read,
    [writing] the arrays that wait to be written. *)
Record runtime : Type := mkRuntime {
  logger : state;
  reading : list log_entry;
  writing : list (list log_entry)
}.

(** The call itself, up to [await fs.readFile(...)]. *)
Definition begin (e : io) (emailData : list (string * value)) (R : runtime)
    : log_entry * runtime :=
  let L := logger R in
  let logEntry := make_entry e emailData in
  (logEntry,
   {| logger := {| logFile := logFile L; memoryLogs := remember logEntry L;
                   maxMemoryLogs := maxMemoryLogs L; initialized := initialized L |};
      reading := if initialized L then reading R ++ [logEntry] else reading R;
      writing := writing R |}).

(** The read of the [k]-th waiting call ends: from [JSON.parse] to
    [await fs.writeFile(...)], or to the [catch] when something throws. *)
Definition read_done (k : nat) (fs_error : bool) (R : runtime) : runtime :=
  match reading R !! k with
  | None => R
  | Some logEntry =>
      let pending :=
        if fs_error then []
        else match logFile (logger R) with
             | Missing | NotArray => []
             | Unparsable => [[logEntry]]
             | Logs logs =>
                 let logs := logEntry :: logs in
                 [if (500 <? length logs)%nat then take 500 logs else logs]
             end in
      {| logger := logger R; reading := delete k (reading R);
         writing := writing R ++ pending |}
  end.

(** The [k]-th waiting write ends. *)
Definition write_done (k : nat) (fs_error : bool) (R : runtime) : runtime :=
  match writing R !! k with
  | None => R
  | Some logs =>
      let L := logger R in
      {| logger := {| logFile := if fs_error then logFile L else Logs logs;
                      memoryLogs := memoryLogs L;
                      maxMemoryLogs := maxMemoryLogs L; initialized := initialized L |};
         reading := reading R; writing := delete k (writing R) |}
  end.

(** [getRecentLogs(limit = 50)] *)
Definition getRecentLogs (limit : option nat) (L : state) : list log_entry :=
  take (default 50%nat limit) (memoryLogs L).

Record stats : Type := mkStats {
  total : nat;
  stats_success : nat;
  stats_failed : nat;
  successRate : string;
  lastAttempt : value
}.

(** [((success / total) * 100).toFixed(2) + '%']: the percentage rounded to
    two decimals, halves upwards. *)
Definition percentage (success total : nat) : string :=
  let hundredths :=
    ((2 * 10000 * N.of_nat success + N.of_nat total) / (2 * N.of_nat total))%N in
  let frac := (hundredths mod 100)%N in
  pretty (hundredths / 100)%N +:+ "." +:+
  (if (frac <? 10)%N then "0" else "") +:+ pretty frac +:+ "%".

(** [getStats()], with the logger it leaves behind. *)
Definition getStats (L : state) : stats * state :=
  let total := length (memoryLogs L) in
  let success := length (filter (λ log, status log = success) (memoryLogs L)) in
  let failed := (total - success)%nat in
  ({| total := total; stats_success := success; stats_failed := failed;
      successRate := if (total =? 0)%nat then "0%" else percentage success total;
      lastAttempt := match memoryLogs L with
                     | [] => VNull
                     | log :: _ => or (VStr (timestamp log)) VNull
                     end |}, L).

End EmailLogger.

(** * The transports (the [nodemailer] interface the services call) *)

Module Nodemailer.
Import JS.

(** The fields of [mailOptions] that the modelled code reads. *)
Record mailOptions : Type := mkMail {
  to : value;
  subject : value
}.

(** [await transporter.sendMail(mailOptions)]: a result with its
    [messageId], or a thrown error. *)
Inductive outcome : Type :=
  | Sent (messageId : value)
  | Failed (error : Error).

End Nodemailer.

(** * The fallback tier ([services/emailFallbackService.js]) *)

Module EmailFallbackService.
Import JS.

Record state : Type := mkFallback {
  fallbackUsed : Z;
  fallbackSuccess : Z
}.

Definition constructor : state := {| fallbackUsed := 0; fallbackSuccess := 0 |}.

(** [sendMail(mailOptions, metadata = {})]; [sent] is how
    [this.fallbackTransporter.sendMail(mailOptions)] ends. *)
Definition sendMail (sent : Nodemailer.outcome) (e : EmailLogger.io)
    (mailOptions : Nodemailer.mailOptions) (metadata : list (string * value))
    (F : state) (L : EmailLogger.state) : value * state * EmailLogger.state :=
  let used := (fallbackUsed F + 1)%Z in
  match sent with
  | Nodemailer.Sent messageId =>
      let (_, L) := EmailLogger.logEmailAttempt e
        ([("to", Nodemailer.to mailOptions); ("subject", Nodemailer.subject mailOptions);
          ("success", VBool true); ("messageId", messageId);
          ("usingFallback", VBool true)] ++ metadata) L in
      (VObj [("success", VBool true); ("messageId", messageId);
             ("usingFallback", VBool true)],
       {| fallbackUsed := used; fallbackSuccess := (fallbackSuccess F + 1)%Z |}, L)
  | Nodemailer.Failed error =>
      let (_, L) := EmailLogger.logEmailAttempt e
        ([("to", Nodemailer.to mailOptions); ("subject", Nodemailer.subject mailOptions);
          ("success", VBool false); ("error", VStr (message error));
          ("usingFallback", VBool true)] ++ metadata) L in
      (VObj [("success", VBool false); ("error", VStr (message error));
             ("usingFallback", VBool true)],
       {| fallbackUsed := used; fallbackSuccess := fallbackSuccess F |}, L)
  end.

End EmailFallbackService.

(** * The simulated tier ([services/noopEmailService.js]) *)

Module NoopEmailService.
Import JS.

Record state : Type := mkNoop { active : bool }.

Definition constructor : state := {| active := false |}.

Definition activate (S : state) : state := {| active := true |}.

(** [sendMail(mailOptions, metadata = {})]; [now] and [random] are
    [Date.now()] and the digits of [Math.random().toString(36).substr(2, 9)]
    that make the message id. *)
Definition sendMail (now random : string) (e : EmailLogger.io)
    (mailOptions : Nodemailer.mailOptions) (metadata : list (string * value))
    (S : state) (L : EmailLogger.state) : value * EmailLogger.state :=
  let messageId := VStr ("noop-" +:+ now +:+ "-" +:+ random +:+ "@simulated.local") in
  let (_, L) := EmailLogger.logEmailAttempt e
    ([("to", Nodemailer.to mailOptions); ("subject", Nodemailer.subject mailOptions);
      ("success", VBool true); ("messageId", messageId);
      ("simulated", VBool true)] ++ metadata) L in
  (VObj [("success", VBool true); ("messageId", messageId); ("simulated", VBool true)], L).

End NoopEmailService.

(** * The job bodies of [services/emailService.js] *)

Module EmailService.
Import JS.

Inductive tier : Type := Primary | Fallback | Simulated.

(** The module-level singletons the job bodies work on.  [attempts] records,
    in order, every call of a tier's [sendMail]. *)
Record world : Type := mkWorld {
  emailLogger : EmailLogger.state;
  emailFallback : EmailFallbackService.state;
  noopEmailService : NoopEmailService.state;
  attempts : list tier
}.

(** What one run of a job body meets: how the primary and the fallback
    transport end, and the readings of the logger calls and of the simulated
    tier. *)
Record env : Type := mkEnv {
  primary : Nodemailer.outcome;
  fallback : Nodemailer.outcome;
  first_log : EmailLogger.io;
  second_log : EmailLogger.io;
  noop_now : string;
  noop_random : string
}.

(** The fields of an order that the job bodies read: [orderData.orderId]
    and [orderData.customer.email]. *)
Record order : Type := mkOrder {
  orderId : string;
  customer_email : string
}.

(** [new EmailService()] next to the other singletons: in development mode
    without complete e-mail credentials, the simulated tier is activated at
    once.  [f] is the content of the log file. *)
Definition constructor (isDevelopment credentials : bool) (f : EmailLogger.file) : world :=
  {| emailLogger := EmailLogger.constructor f;
     emailFallback := EmailFallbackService.constructor;
     noopEmailService :=
       if isDevelopment && negb credentials
       then NoopEmailService.activate NoopEmailService.constructor
       else NoopEmailService.constructor;
     attempts := [] |}.

(** [testConnection()], run at startup: initialises the logger, verifies
    the primary transport and, when that fails, the fallback transport;
    when both fail it activates the simulated tier.  It returns [true] in
    every case. *)
Definition testConnection (fs_error primary_ok fallback_ok : bool) (w : world)
    : bool * world :=
  let L := EmailLogger.init fs_error (emailLogger w) in
  (true,
   {| emailLogger := L; emailFallback := emailFallback w;
      noopEmailService :=
        if primary_ok then noopEmailService w
        else if fallback_ok then noopEmailService w
        else NoopEmailService.activate (noopEmailService w);
      attempts := attempts w |}).

Definition attempt (t : tier) (w : world) : world :=
  {| emailLogger := emailLogger w; emailFallback := emailFallback w;
     noopEmailService := noopEmailService w; attempts := attempts w ++ [t] |}.

Definition log (e : EmailLogger.io) (emailData : list (string * value)) (w : world) : world :=
  {| emailLogger := snd (EmailLogger.logEmailAttempt e emailData (emailLogger w));
     emailFallback := emailFallback w;
     noopEmailService := noopEmailService w; attempts := attempts w |}.

(** [emailFallback.sendMail(mailOptions, metadata)] *)
Definition fallback_sendMail (e : env) (mailOptions : Nodemailer.mailOptions)
    (metadata : list (string * value)) (w : world) : value * world :=
  let w := attempt Fallback w in
  let '(result, F, L) :=
    EmailFallbackService.sendMail (fallback e) (first_log e) mailOptions metadata
      (emailFallback w) (emailLogger w) in
  (result, {| emailLogger := L; emailFallback := F;
              noopEmailService := noopEmailService w; attempts := attempts w |}).

(** [noopEmailService.sendMail(mailOptions, metadata)] *)
Definition noop_sendMail (e : env) (mailOptions : Nodemailer.mailOptions)
    (metadata : list (string * value)) (w : world) : value * world :=
  let w := attempt Simulated w in
  let (result, L) :=
    NoopEmailService.sendMail (noop_now e) (noop_random e) (second_log e)
      mailOptions metadata (noopEmailService w) (emailLogger w) in
  (result, {| emailLogger := L; emailFallback := emailFallback w;
              noopEmailService := noopEmailService w; attempts := attempts w |}).

(** The three nested [try] blocks shared, word for word, by the job bodies
    of [sendCustomerOrderConfirmation] and [sendNewOrderNotification]. *)
Definition send_through_tiers (e : env) (mailOptions : Nodemailer.mailOptions)
    (metadata : list (string * value)) (w : world) : value * world :=
  let w := attempt Primary w in
  match primary e with
  | Nodemailer.Sent messageId =>
      let w := log (first_log e)
                 ([("to", Nodemailer.to mailOptions);
                   ("subject", Nodemailer.subject mailOptions);
                   ("success", VBool true); ("messageId", messageId)] ++ metadata) w in
      (VObj [("success", VBool true); ("messageId", messageId)], w)
  | Nodemailer.Failed primaryError =>
      let (fallbackResult, w) :=
        fallback_sendMail e mailOptions ([("retryCount", VNum 1)] ++ metadata) w in
      if truthy (prop fallbackResult "success") then (fallbackResult, w)
      else
        let fallbackError := mkError "Both primary and fallback email delivery failed" in
        if NoopEmailService.active (noopEmailService w) then
          noop_sendMail e mailOptions ([("retryCount", VNum 2)] ++ metadata) w
        else
          let error := or (VStr (message fallbackError)) (VStr "Both delivery methods failed") in
          let w := log (second_log e)
                     ([("to", Nodemailer.to mailOptions);
                       ("subject", Nodemailer.subject mailOptions);
                       ("success", VBool false); ("error", error)] ++ metadata) w in
          (VObj [("success", VBool false); ("error", error)], w)
  end.

(** The job body queued by [sendCustomerOrderConfirmation(order)]. *)
Definition sendCustomerOrderConfirmation_job (e : env) (orderData : order) (w : world)
    : value * world :=
  let mailOptions :=
    {| Nodemailer.to := VStr (customer_email orderData);
       Nodemailer.subject := VStr ("Order Confirmation - " +:+ orderId orderData) |} in
  let metadata :=
    [("type", VStr "customer_confirmation"); ("orderId", VStr (orderId orderData));
     ("retryCount", VNum 0)] in
  send_through_tiers e mailOptions metadata w.

(** The job body queued by [sendNewOrderNotification(order, email)]. *)
Definition sendNewOrderNotification_job (email : string) (e : env) (orderData : order)
    (w : world) : value * world :=
  let mailOptions :=
    {| Nodemailer.to := VStr email;
       Nodemailer.subject :=
         VStr ("Order Alert: " +:+ orderId orderData +:+ " - Action Required") |} in
  let metadata :=
    [("type", VStr "admin_notification"); ("orderId", VStr (orderId orderData));
     ("retryCount", VNum 0)] in
  send_through_tiers e mailOptions metadata w.

(** The job bodies queued by [sendAdminOrderNotification] and
    [sendOrderStatusUpdate]: the primary transport only, and no call of the
    logger. *)
Definition primary_only_job (e : env) (w : world) : value * world :=
  let w := attempt Primary w in
  match primary e with
  | Nodemailer.Sent messageId => (VObj [("success", VBool true); ("messageId", messageId)], w)
  | Nodemailer.Failed error =>
      (VObj [("success", VBool false); ("error", VStr (message error))], w)
  end.

End EmailService.

(** * The status routes ([routes/status.js]) *)

Module StatusRoutes.
Import JS.

(** [GET /email-mode]: the [mode] field of the answer. *)
Definition email_mode (N : NoopEmailService.state) : string :=
  if NoopEmailService.active N then "simulated" else "real".

(** [GET /check]: the [email] object of the answer. *)
Record check_email : Type := mkCheck {
  deliveryStatus : string;
  tasksQueued : nat;
  tasksProcessing : Z
}.

Definition check (L : EmailLogger.state) (q : TaskQueue.state) : check_email :=
  let queueStatus := TaskQueue.getStatus q in
  {| deliveryStatus :=
       if (0 <? EmailLogger.total (fst (EmailLogger.getStats L)))%nat
       then (if (EmailLogger.stats_failed (fst (EmailLogger.getStats L)) =? 0)%nat
             then "operational" else "issues detected")
       else "no data";
     tasksQueued := TaskQueue.queueLength queueStatus;
     tasksProcessing := TaskQueue.status_activeTasks queueStatus |}.

End StatusRoutes.

(** * The response cache ([middleware/performance.js]) *)

Module Performance.
Import JS.

(** The [NodeCache] instance, as this file uses it: a store from keys to
    the data put there by [set], each with its time to live in seconds.
    That an entry vanishes when its time is up is the event [Expire]
    below. *)
Abbreviation cache := (gmap string (value * Z)).

(** The parts of a request the middleware reads: [req.method],
    [req.headers.authorization], [req.originalUrl] (a string, or
    [undefined] written [None]) and [req.url]. *)
Record request : Type := mkRequest {
  method : string;
  authorization : value;
  originalUrl : option string;
  url : string
}.

(** What the handlers behind the middleware do once [next()] is called:
    they call [res.json(data)] while [res.statusCode] is [statusCode], or
    they do not call [res.json]. *)
Inductive handler : Type :=
  | Json (statusCode : Z) (data : value)
  | NoJson.

(** How the request is answered. *)
Inductive answer : Type :=
  | FromCache (cachedResponse : value)
  | FromHandler (h : handler).

(** [`${req.originalUrl || req.url}`] *)
Definition cacheKey (req : request) : string :=
  match originalUrl req with
  | Some s => if String.eqb s "" then url req else s
  | None => url req
  end.

(** [cache.get(cacheKey)] *)
Definition cache_get (key : string) (c : cache) : value :=
  match c !! key with
  | Some (data, _) => data
  | None => VUndefined
  end.

(** [cacheMiddleware(ttl)(req, res, next)], with [h] what the handlers
    behind it do if they are reached. *)
Definition cacheMiddleware (ttl : Z) (req : request) (h : handler) (c : cache)
    : answer * cache :=
  if negb (String.eqb (method req) "GET") || truthy (authorization req) then
    (FromHandler h, c)
  else
    let cacheKey := cacheKey req in
    let cachedResponse := cache_get cacheKey c in
    if truthy cachedResponse then (FromCache cachedResponse, c)
    else
      match h with
      | Json statusCode data =>
          (FromHandler h,
           if (200 <=? statusCode)%Z && (statusCode <? 300)%Z
           then <[cacheKey := (data, ttl)]> c else c)
      | NoJson => (FromHandler h, c)
      end.

(** [clearCache(key)]; [None] is a call without a key. *)
Definition clearCache (key : option string) (c : cache) : bool * cache :=
  match key with
  | Some k => if String.eqb k "" then (false, c) else (true, delete k c)
  | None => (false, c)
  end.

(** [clearAllCache()] *)
Definition clearAllCache (c : cache) : bool * cache := (true, ∅).

End Performance.

(** * The mail service at run time *)

(** The queue lets up to three job bodies run at once, and a body gives
    way at each of its [await]s: another body, a turn of the logger or the
    connection test can run before it goes on.  This module follows the
    singletons through the passes of the job bodies, [await] by [await]. *)
Module MailRuntime.
Import JS EmailService.

(** Where a pass through the tiers is suspended: at
    [await this.transporter.sendMail(mailOptions)]; inside
    [emailFallback.sendMail], at
    [await this.fallbackTransporter.sendMail(mailOptions)]; at the
    [await emailLogger.logEmailAttempt(...)] of a failed fallback send,
    before the last resort; or, with its answer fixed, at the
    [logEmailAttempt] after which it returns.  [delivered_by] is the tier
    that delivered, if one did. *)
Inductive stage : Type :=
  | AtPrimary
  | AtFallback
  | AtLastResort
  | Ended (delivered_by : option tier) (result : value).

Record pass : Type := mkPass {
  mailOptions : Nodemailer.mailOptions;
  metadata : list (string * value);
  point : stage
}.

(** The singletons, the reads and writes of the log file that are under
    way (as in [EmailLogger.runtime]), and the passes started so far. *)
Record system : Type := mkSystem {
  services : world;
  pending_reads : list EmailLogger.log_entry;
  pending_writes : list (list EmailLogger.log_entry);
  passes : list pass
}.

(** The process after [require('./emailService')]. *)
Definition boot (isDevelopment credentials : bool) (f : EmailLogger.file) : system :=
  {| services := constructor isDevelopment credentials f;
     pending_reads := []; pending_writes := []; passes := [] |}.

Definition set_services (w : world) (S : system) : system :=
  {| services := w; pending_reads := pending_reads S;
     pending_writes := pending_writes S; passes := passes S |}.

Definition set_point (i : nat) (p : pass) (st : stage) (S : system) : system :=
  {| services := services S; pending_reads := pending_reads S;
     pending_writes := pending_writes S;
     passes := <[i := {| mailOptions := mailOptions p; metadata := metadata p;
                         point := st |}]> (passes S) |}.

(** A turn of the logger. *)
Definition logger_turn (turn : EmailLogger.runtime → EmailLogger.runtime) (S : system)
    : system :=
  let w := services S in
  let R := turn {| EmailLogger.logger := emailLogger w;
                   EmailLogger.reading := pending_reads S;
                   EmailLogger.writing := pending_writes S |} in
  {| services := {| emailLogger := EmailLogger.logger R;
                    emailFallback := emailFallback w;
                    noopEmailService := noopEmailService w; attempts := attempts w |};
     pending_reads := EmailLogger.reading R; pending_writes := EmailLogger.writing R;
     passes := passes S |}.

(** [emailLogger.logEmailAttempt(emailData)] up to its first [await]. *)
Definition log_begin (e : EmailLogger.io) (emailData : list (string * value)) (S : system)
    : system :=
  logger_turn (λ R, snd (EmailLogger.begin e emailData R)) S.

(** [this.fallbackUsed++] and [this.fallbackSuccess++] *)
Definition count_use (w : world) : world :=
  {| emailLogger := emailLogger w;
     emailFallback :=
       {| EmailFallbackService.fallbackUsed :=
            (EmailFallbackService.fallbackUsed (emailFallback w) + 1)%Z;
          EmailFallbackService.fallbackSuccess :=
            EmailFallbackService.fallbackSuccess (emailFallback w) |};
     noopEmailService := noopEmailService w; attempts := attempts w |}.

Definition count_success (w : world) : world :=
  {| emailLogger := emailLogger w;
     emailFallback :=
       {| EmailFallbackService.fallbackUsed :=
            EmailFallbackService.fallbackUsed (emailFallback w);
          EmailFallbackService.fallbackSuccess :=
            (EmailFallbackService.fallbackSuccess (emailFallback w) + 1)%Z |};
     noopEmailService := noopEmailService w; attempts := attempts w |}.

(** The end of [testConnection]: when neither verification succeeded,
    [noopEmailService.activate()]. *)
Definition verified (primary_ok fallback_ok : bool) (w : world) : world :=
  {| emailLogger := emailLogger w; emailFallback := emailFallback w;
     noopEmailService :=
       if primary_ok then noopEmailService w
       else if fallback_ok then noopEmailService w
       else NoopEmailService.activate (noopEmailService w);
     attempts := attempts w |}.

(** What can happen: [emailLogger.init()] runs, the verifications of
    [testConnection] end, a read or a write of the log file ends, a job
    body of [sendCustomerOrderConfirmation] or [sendNewOrderNotification]
    starts, the primary or the fallback send of pass [i] ends, pass [i]
    goes on after the log of its failed fallback send, or a job body of
    [sendAdminOrderNotification] or [sendOrderStatusUpdate] calls the
    primary transport (all it does to the singletons).  A pass is not made
    to wait for the read and the write of its own log entry before it goes
    on: the events can come in every order the program allows, and in some
    more. *)
Inductive event : Type :=
  | Init (fs_error : bool)
  | Verified (primary_ok fallback_ok : bool)
  | ReadDone (k : nat) (fs_error : bool)
  | WriteDone (k : nat) (fs_error : bool)
  | Start (mailOptions : Nodemailer.mailOptions) (metadata : list (string * value))
  | PrimaryDone (i : nat) (sent : Nodemailer.outcome) (e : EmailLogger.io)
  | FallbackDone (i : nat) (sent : Nodemailer.outcome) (e : EmailLogger.io)
  | Resume (i : nat) (now random : string) (e : EmailLogger.io)
  | PrimaryOnly.

(** The primary send of a pass has ended. *)
Definition primary_done (i : nat) (p : pass) (sent : Nodemailer.outcome)
    (e : EmailLogger.io) (S : system) : system :=
  let to := Nodemailer.to (mailOptions p) in
  let subject := Nodemailer.subject (mailOptions p) in
  match sent with
  | Nodemailer.Sent messageId =>
      set_point i p
        (Ended (Some Primary) (VObj [("success", VBool true); ("messageId", messageId)]))
        (log_begin e ([("to", to); ("subject", subject);
                       ("success", VBool true); ("messageId", messageId)] ++ metadata p) S)
  | Nodemailer.Failed primaryError =>
      set_point i p AtFallback
        (set_services (count_use (attempt Fallback (services S))) S)
  end.

(** The fallback send of a pass has ended, inside [emailFallback.sendMail];
    its metadata is [{...metadata, retryCount: 1}]. *)
Definition fallback_done (i : nat) (p : pass) (sent : Nodemailer.outcome)
    (e : EmailLogger.io) (S : system) : system :=
  let to := Nodemailer.to (mailOptions p) in
  let subject := Nodemailer.subject (mailOptions p) in
  let metadata := [("retryCount", VNum 1)] ++ metadata p in
  match sent with
  | Nodemailer.Sent messageId =>
      set_point i p
        (Ended (Some Fallback)
           (VObj [("success", VBool true); ("messageId", messageId);
                  ("usingFallback", VBool true)]))
        (log_begin e ([("to", to); ("subject", subject);
                       ("success", VBool true); ("messageId", messageId);
                       ("usingFallback", VBool true)] ++ metadata)
           (set_services (count_success (services S)) S))
  | Nodemailer.Failed error =>
      set_point i p AtLastResort
        (log_begin e ([("to", to); ("subject", subject);
                       ("success", VBool false); ("error", VStr (message error));
                       ("usingFallback", VBool true)] ++ metadata) S)
  end.

(** The [catch] of the fallback attempt: the simulated tier when it is
    active at this moment, the log of the final failure when it is not. *)
Definition last_resort (i : nat) (p : pass) (now random : string)
    (e : EmailLogger.io) (S : system) : system :=
  let to := Nodemailer.to (mailOptions p) in
  let subject := Nodemailer.subject (mailOptions p) in
  let fallbackError := mkError "Both primary and fallback email delivery failed" in
  if NoopEmailService.active (noopEmailService (services S)) then
    let messageId := VStr ("noop-" +:+ now +:+ "-" +:+ random +:+ "@simulated.local") in
    let metadata := [("retryCount", VNum 2)] ++ metadata p in
    set_point i p
      (Ended (Some Simulated)
         (VObj [("success", VBool true); ("messageId", messageId);
                ("simulated", VBool true)]))
      (log_begin e ([("to", to); ("subject", subject);
                     ("success", VBool true); ("messageId", messageId);
                     ("simulated", VBool true)] ++ metadata)
         (set_services (attempt Simulated (services S)) S))
  else
    let error := or (VStr (message fallbackError)) (VStr "Both delivery methods failed") in
    set_point i p
      (Ended None (VObj [("success", VBool false); ("error", error)]))
      (log_begin e ([("to", to); ("subject", subject);
                     ("success", VBool false); ("error", error)] ++ metadata p) S).

Definition step (S : system) (ev : event) : system :=
  match ev with
  | Init fs_error =>
      logger_turn (λ R, {| EmailLogger.logger := EmailLogger.init fs_error (EmailLogger.logger R);
                           EmailLogger.reading := EmailLogger.reading R;
                           EmailLogger.writing := EmailLogger.writing R |}) S
  | Verified primary_ok fallback_ok =>
      set_services (verified primary_ok fallback_ok (services S)) S
  | ReadDone k fs_error => logger_turn (EmailLogger.read_done k fs_error) S
  | WriteDone k fs_error => logger_turn (EmailLogger.write_done k fs_error) S
  | Start mailOptions metadata =>
      {| services := attempt Primary (services S);
         pending_reads := pending_reads S; pending_writes := pending_writes S;
         passes := passes S ++ [{| mailOptions := mailOptions; metadata := metadata;
                                   point := AtPrimary |}] |}
  | PrimaryDone i sent e =>
      match passes S !! i with
      | Some p => match point p with AtPrimary => primary_done i p sent e S | _ => S end
      | None => S
      end
  | FallbackDone i sent e =>
      match passes S !! i with
      | Some p => match point p with AtFallback => fallback_done i p sent e S | _ => S end
      | None => S
      end
  | Resume i now random e =>
      match passes S !! i with
      | Some p =>
          match point p with AtLastResort => last_resort i p now random e S | _ => S end
      | None => S
      end
  | PrimaryOnly => set_services (attempt Primary (services S)) S
  end.

Definition run (S : system) (evs : list event) : system := foldl step S evs.

(** [mailOptions] and [metadata] of the job body of
    [sendCustomerOrderConfirmation]. *)
Definition customer_mail (orderData : order) : Nodemailer.mailOptions :=
  {| Nodemailer.to := VStr (customer_email orderData);
     Nodemailer.subject := VStr ("Order Confirmation - " +:+ orderId orderData) |}.

Definition customer_metadata (orderData : order) : list (string * value) :=
  [("type", VStr "customer_confirmation"); ("orderId", VStr (orderId orderData));
   ("retryCount", VNum 0)].

(** One pass that nothing interrupts, each call of the logger with its
    read and its write. *)
Definition uninterrupted (i : nat) (e : env) (mailOptions : Nodemailer.mailOptions)
    (metadata : list (string * value)) : list event :=
  let first := EmailLogger.fs_error (first_log e) in
  let second := EmailLogger.fs_error (second_log e) in
  [Start mailOptions metadata;
   PrimaryDone i (primary e) (first_log e); ReadDone 0 first; WriteDone 0 first;
   FallbackDone i (fallback e) (first_log e); ReadDone 0 first; WriteDone 0 first;
   Resume i (noop_now e) (noop_random e) (second_log e);
   ReadDone 0 second; WriteDone 0 second].

End MailRuntime.

(** * Properties of the task queue *)

Module TaskQueueFacts.
Import JS TaskQueue.
Local Open Scope Z_scope.

(** ** Submission *)

Lemma has_task_options_object props :
  ∀ front, has_task_options (front ++ [VObj props])
           = inr (truthy (assoc "_isTaskOptions" props)).
Proof.
  intros front. unfold has_task_options, last_arg.
  rewrite List.last_last, length_app. simpl.
  replace (0 <? length front + 1)%nat with true; [done|].
  symmetry. apply Nat.ltb_lt. lia.
Qed.

(** ** The concurrency ceiling *)

(** Holds at every program point: the suspended activations are counted by
    [activeTasks], which stays under the ceiling. *)
Definition within_ceiling (s : state) : Prop :=
  maxConcurrent s = 3 ∧ Z.of_nat (length (awaiting s)) ≤ activeTasks s ∧ activeTasks s ≤ 3.

(** Holds between events: [activeTasks] is exactly the number of work
    functions that are executing. *)
Definition balanced (s : state) : Prop :=
  maxConcurrent s = 3 ∧ activeTasks s = Z.of_nat (length (awaiting s)) ∧ activeTasks s ≤ 3.

Lemma balanced_within s : balanced s → within_ceiling s.
Proof. unfold balanced, within_ceiling. lia. Qed.

Lemma processQueue_cases s :
  processQueue s = s ∨
  ∃ task rest, queue s = task :: rest ∧ activeTasks s < maxConcurrent s ∧
    processQueue s =
      {| queue := rest; processing := true; maxConcurrent := maxConcurrent s;
         activeTasks := activeTasks s + 1;
         awaiting := awaiting s ++ [task]; timers := timers s;
         promises := promises s; invoked := resolve task :: invoked s |}.
Proof.
  unfold processQueue.
  destruct (orb _ _) eqn:G; [by left|].
  apply orb_false_iff in G as [_ G]. apply Z.leb_gt in G.
  destruct (queue s) as [|task rest]; [by left|].
  right. by exists task, rest.
Qed.

Lemma processQueue_within s : within_ceiling s → within_ceiling (processQueue s).
Proof.
  intros (Hm & Hl & Hu).
  destruct (processQueue_cases s) as [->|(task & rest & _ & Hlt & ->)]; [done|].
  unfold within_ceiling; simpl. rewrite length_app. simpl. lia.
Qed.

Lemma processQueue_balanced s : balanced s → balanced (processQueue s).
Proof.
  intros (Hm & Hl & Hu).
  destruct (processQueue_cases s) as [->|(task & rest & _ & Hlt & ->)]; [done|].
  unfold balanced; simpl. rewrite length_app. simpl. lia.
Qed.

Lemma start_if_idle_within s : within_ceiling s → within_ceiling (start_if_idle s).
Proof. unfold start_if_idle. destruct (processing s); auto using processQueue_within. Qed.

Lemma start_if_idle_balanced s : balanced s → balanced (start_if_idle s).
Proof. unfold start_if_idle. destruct (processing s); auto using processQueue_balanced. Qed.

Lemma finally_next_within s : within_ceiling s → within_ceiling (finally_next s).
Proof.
  unfold finally_next. intros H.
  destruct (0 <? length (queue s))%nat; [by apply processQueue_within|].
  by destruct (activeTasks s =? 0).
Qed.

Lemma finally_next_balanced s : balanced s → balanced (finally_next s).
Proof.
  unfold finally_next. intros H.
  destruct (0 <? length (queue s))%nat; [by apply processQueue_balanced|].
  by destruct (activeTasks s =? 0).
Qed.

Lemma finally_capacity_within s : within_ceiling s → within_ceiling (finally_capacity s).
Proof.
  unfold finally_capacity. intros H.
  destruct (andb _ _); [by apply processQueue_within|done].
Qed.

Lemma finally_capacity_balanced s : balanced s → balanced (finally_capacity s).
Proof.
  unfold finally_capacity. intros H.
  destruct (andb _ _); [by apply processQueue_balanced|done].
Qed.

Lemma call_resolve_fields p v s :
  queue (call_resolve p v s) = queue s ∧
  processing (call_resolve p v s) = processing s ∧
  maxConcurrent (call_resolve p v s) = maxConcurrent s ∧
  activeTasks (call_resolve p v s) = activeTasks s ∧
  awaiting (call_resolve p v s) = awaiting s ∧
  timers (call_resolve p v s) = timers s ∧
  invoked (call_resolve p v s) = invoked s.
Proof. unfold call_resolve. by destruct (promises s !! p) as [[]|]. Qed.

Lemma after_await_fields t o s :
  queue (after_await t o s) = queue s ∧
  processing (after_await t o s) = processing s ∧
  maxConcurrent (after_await t o s) = maxConcurrent s ∧
  activeTasks (after_await t o s) = activeTasks s ∧
  awaiting (after_await t o s) = awaiting s ∧
  invoked (after_await t o s) = invoked s.
Proof.
  unfold after_await. destruct o as [r|e].
  - pose proof (call_resolve_fields (resolve t) r s). tauto.
  - destruct (retries t <? maxRetries t); [done|].
    destruct (get e "message") as [|text]; [done|].
    match goal with |- context [call_resolve ?p ?v s] =>
      pose proof (call_resolve_fields p v s) end. tauto.
Qed.

Lemma pick_length p l t rest :
  pick p l = Some (t, rest) → length l = S (length rest).
Proof.
  revert t rest. induction l as [|a l IH]; intros t rest; simpl; [done|].
  destruct (resolve a =? p)%nat.
  - by intros [= <- <-].
  - destruct (pick p l) as [[t' rest']|]; [|done].
    intros [= <- <-]. simpl. by rewrite (IH _ _ eq_refl).
Qed.

Lemma addTask_push_fields taskFn taskName args id now s p s' :
  addTask_push taskFn taskName args id now s = inr (p, s') →
  maxConcurrent s' = maxConcurrent s ∧ activeTasks s' = activeTasks s ∧
  awaiting s' = awaiting s ∧ timers s' = timers s ∧ invoked s' = invoked s ∧
  processing s' = processing s.
Proof.
  unfold addTask_push. destruct (has_task_options args); [done|].
  by intros [= <- <-].
Qed.

Lemma instants_last s e : last (instants s e) = Some (step s e).
Proof.
  destruct e as [taskFn taskName args id now|p o|p]; simpl.
  - unfold addTask.
    by destruct (addTask_push taskFn taskName args id now s) as [?|[? ?]].
  - by destruct (pick p (awaiting s)) as [[? ?]|].
  - by destruct (pick p (timers s)) as [[? ?]|].
Qed.

Lemma instants_within s e :
  balanced s → Forall within_ceiling (instants s e) ∧ balanced (step s e).
Proof.
  intros Hb. pose proof (balanced_within _ Hb) as Hw.
  destruct e as [taskFn taskName args id now|p o|p]; simpl.
  - unfold addTask.
    destruct (addTask_push taskFn taskName args id now s) as [?|[q s1]] eqn:E.
    { split; [by apply Forall_singleton|done]. }
    apply addTask_push_fields in E as (E1 & E2 & E3 & _).
    assert (balanced s1) as Hb1.
    { destruct Hb as (? & ? & ?). unfold balanced. rewrite E1, E2, E3. done. }
    split; [|by apply start_if_idle_balanced].
    apply Forall_cons; split; [by apply balanced_within|].
    by apply Forall_singleton, start_if_idle_within, balanced_within.
  - destruct (pick p (awaiting s)) as [[t rest]|] eqn:E.
    2:{ split; [by apply Forall_singleton|done]. }
    apply pick_length in E.
    set (s1 := after_await t o (set_awaiting rest s)).
    destruct (after_await_fields t o (set_awaiting rest s))
      as (_ & _ & F3 & F4 & F5 & _). fold s1 in F3, F4, F5. simpl in *.
    destruct Hb as (Hm & Ha & Hu).
    assert (within_ceiling s1) as W1.
    { unfold within_ceiling. rewrite F3, F4, F5. lia. }
    assert (balanced (finally_decrement s1)) as B2.
    { unfold balanced, finally_decrement; simpl. rewrite F3, F4, F5. lia. }
    assert (balanced (finally_next (finally_decrement s1))) as B3
      by by apply finally_next_balanced.
    assert (balanced (finally_block s1)) as B4
      by by apply finally_capacity_balanced.
    split; [|done].
    repeat (apply Forall_cons; split; [by auto using balanced_within|]).
    constructor.
  - destruct (pick p (timers s)) as [[t rest]|] eqn:E.
    2:{ split; [by apply Forall_singleton|done]. }
    assert (balanced (timer_push t (set_timers rest s))) as B1 by done.
    split; [|by apply start_if_idle_balanced].
    apply Forall_cons; split; [by apply balanced_within|].
    by apply Forall_singleton, start_if_idle_within, balanced_within.
Qed.

(** Every state the queue passes through while it handles [es], the
    program points inside each step included. *)
Fixpoint history (s : state) (es : list event) : list state :=
  match es with
  | [] => []
  | e :: es => instants s e ++ history (step s e) es
  end.

Lemma history_within es : ∀ s,
  balanced s → Forall within_ceiling (history s es) ∧ balanced (run s es).
Proof.
  induction es as [|e es IH]; intros s Hb; simpl.
  - split; [constructor|done].
  - destruct (instants_within s e Hb) as [Hi Hs].
    destruct (IH _ Hs) as [Hh Hr].
    split; [by apply Forall_app|done].
Qed.

Lemma constructor_balanced : balanced constructor.
Proof. unfold balanced; simpl. lia. Qed.

(** C5: whatever is submitted, however the work functions end and whenever
    the retry timers fire, at every program point the queue object has
    [maxConcurrent = 3], the number of work functions being executed is at
    most [activeTasks], and [activeTasks] is at most 3; between events
    [activeTasks] is exactly the number of executing work functions. *)
Theorem active_tasks_never_exceed_ceiling (es : list event) :
  Forall (λ s, maxConcurrent s = 3 ∧
               Z.of_nat (length (awaiting s)) ≤ activeTasks s ∧
               activeTasks s ≤ 3)
         (constructor :: history constructor es) ∧
  activeTasks (run constructor es) = Z.of_nat (length (awaiting (run constructor es))).
Proof.
  destruct (history_within es constructor constructor_balanced) as [Hh Hr].
  split.
  - constructor; [apply balanced_within, constructor_balanced|exact Hh].
  - apply Hr.
Qed.

(** ** What one step does to the tasks *)

Definition tasks (s : state) : list task := queue s ++ awaiting s ++ timers s.

(** The elementary changes [step] is made of: a task is submitted, started,
    finished, sent to a retry timer or brought back by it; the rest only
    touches [processing] and [activeTasks]. *)
Inductive move : state → state → Prop :=
  | move_submit s t :
      resolve t = length (promises s) → retries t = 0 →
      move s (set_queue (queue s ++ [t]) (set_promises (promises s ++ [Pending]) s))
  | move_start s t rest :
      queue s = t :: rest →
      move s {| queue := rest; processing := true; maxConcurrent := maxConcurrent s;
                activeTasks := activeTasks s + 1;
                awaiting := awaiting s ++ [t]; timers := timers s;
                promises := promises s; invoked := resolve t :: invoked s |}
  | move_finish s t rest v :
      awaiting s ≡ₚ t :: rest →
      move s (call_resolve (resolve t) v (set_awaiting rest s))
  | move_retry s t rest :
      awaiting s ≡ₚ t :: rest → retries t < maxRetries t →
      move s (set_timers (timers s ++ [retry t]) (set_awaiting rest s))
  | move_timeout s t rest :
      timers s ≡ₚ t :: rest →
      move s (set_queue (queue s ++ [t]) (set_timers rest s))
  | move_flags s b n :
      move s (set_processing b (set_activeTasks n s)).

(** The one change that is no [move]: with no retry left, the [catch]
    itself throws on a thrown value without a [message]; the task is gone
    and nothing has been done to its promise. *)
Inductive drop : state → state → Prop :=
  | drop_task s t rest :
      awaiting s ≡ₚ t :: rest → ¬ retries t < maxRetries t →
      drop s (set_awaiting rest s).

Definition change (s s' : state) : Prop := move s s' ∨ drop s s'.

Lemma calm s s' : rtc move s s' → rtc change s s'.
Proof. apply rtc_subrel. intros x y H. by left. Qed.

(** The thrown values of which [error.message] cannot be read. *)
Definition unreadable (error : value) : bool :=
  match error with VUndefined | VNull => true | _ => false end.

Lemma get_unreadable error k :
  if unreadable error then ∃ e, get error k = inl e else get error k = inr (prop error k).
Proof. destruct error; simpl; eauto. Qed.

(** The events that are not the end of a work function with such a value. *)
Definition readable (e : event) : bool :=
  match e with
  | Settle _ (Threw error) => negb (unreadable error)
  | _ => true
  end.

Lemma set_flags_id s : set_processing (processing s) (set_activeTasks (activeTasks s) s) = s.
Proof. by destruct s. Qed.

Lemma pick_perm p l t rest :
  pick p l = Some (t, rest) → resolve t = p ∧ l ≡ₚ t :: rest.
Proof.
  revert t rest. induction l as [|a l IH]; intros t rest; simpl; [done|].
  destruct (resolve a =? p)%nat eqn:E.
  - intros [= <- <-]. by apply Nat.eqb_eq in E.
  - destruct (pick p l) as [[t' rest']|]; [|done].
    intros [= <- <-]. destruct (IH _ _ eq_refl) as [? HP].
    split; [done|]. rewrite HP. apply Permutation_swap.
Qed.

Lemma processQueue_moves s : rtc move s (processQueue s).
Proof.
  destruct (processQueue_cases s) as [->|(t & rest & Hq & _ & ->)]; [done|].
  by apply rtc_once, move_start.
Qed.

Lemma start_if_idle_moves s : rtc move s (start_if_idle s).
Proof. unfold start_if_idle. destruct (processing s); [done|apply processQueue_moves]. Qed.

Lemma finally_block_moves s : rtc move s (finally_block s).
Proof.
  unfold finally_block.
  transitivity (finally_decrement s).
  { apply rtc_once. rewrite <- (set_flags_id (finally_decrement s)).
    unfold finally_decrement. simpl.
    replace (set_processing _ (set_activeTasks _ (set_activeTasks _ s)))
      with (set_processing (processing s) (set_activeTasks (activeTasks s - 1) s))
      by done.
    apply move_flags. }
  set (s2 := finally_decrement s).
  transitivity (finally_next s2).
  { unfold finally_next. destruct (0 <? length (queue s2))%nat; [apply processQueue_moves|].
    destruct (activeTasks s2 =? 0); [|done].
    apply rtc_once.
    replace (set_processing false s2)
      with (set_processing false (set_activeTasks (activeTasks s2) s2))
      by by destruct s2.
    apply move_flags. }
  unfold finally_capacity. destruct (andb _ _); [apply processQueue_moves|done].
Qed.

Lemma after_await_moves s t rest o :
  awaiting s ≡ₚ t :: rest →
  move s (after_await t o (set_awaiting rest s)) ∨
  (∃ p error, Settle p o = Settle p (Threw error) ∧ unreadable error = true) ∧
  drop s (after_await t o (set_awaiting rest s)).
Proof.
  intros HP. unfold after_await. destruct o as [r|e].
  - left. by apply move_finish.
  - destruct (retries t <? maxRetries t) eqn:E.
    + apply Z.ltb_lt in E. left. exact (move_retry s t rest HP E).
    + apply Z.ltb_ge in E. pose proof (get_unreadable e "message") as Hg.
      destruct (unreadable e) eqn:U.
      * destruct Hg as [err ->]. right. split; [by exists 0%nat, e|].
        apply (drop_task s t rest HP). lia.
      * rewrite Hg. left. by apply move_finish.
Qed.

Lemma addTask_push_moves taskFn taskName args id now s p s' :
  addTask_push taskFn taskName args id now s = inr (p, s') →
  p = length (promises s) ∧
  ∃ t, resolve t = p ∧ retries t = 0 ∧
       s' = set_queue (queue s ++ [t]) (set_promises (promises s ++ [Pending]) s).
Proof.
  unfold addTask_push. destruct (has_task_options args) as [|opts]; [done|].
  intros [= <- <-]. split; [done|]. eexists. split; [|split]; [| |done]; done.
Qed.

(** A step is made of moves, but for the end of a work function with an
    unreadable thrown value, which can drop a task. *)
Lemma step_cases s e :
  rtc move s (step s e) ∨ (readable e = false ∧ rtc change s (step s e)).
Proof.
  destruct e as [taskFn taskName args id now|p o|p]; simpl.
  - left. unfold addTask.
    destruct (addTask_push taskFn taskName args id now s) as [?|[q s1]] eqn:E; [done|].
    apply addTask_push_moves in E as (-> & t & Ht & Hr & ->).
    etransitivity; [by apply rtc_once, (move_submit s t)|].
    apply start_if_idle_moves.
  - destruct (pick p (awaiting s)) as [[t rest]|] eqn:E; [|by left].
    apply pick_perm in E as [_ HP].
    destruct (after_await_moves s t rest o HP) as [Hm|[(q & error & Ho & Hu) Hd]].
    + left. etransitivity; [by apply rtc_once|apply finally_block_moves].
    + right. injection Ho as ->. split; [by rewrite Hu|].
      etransitivity; [apply rtc_once; by right|apply calm, finally_block_moves].
  - left. destruct (pick p (timers s)) as [[t rest]|] eqn:E; [|done].
    apply pick_perm in E as [_ HP].
    etransitivity; [apply rtc_once; exact (move_timeout s t rest HP)|].
    apply start_if_idle_moves.
Qed.

Lemma step_moves s e : rtc change s (step s e).
Proof. destruct (step_cases s e) as [H|[_ H]]; [by apply calm|done]. Qed.

Lemma run_moves es : ∀ s, rtc change s (run s es).
Proof.
  induction es as [|e es IH]; intros s; simpl; [done|].
  etransitivity; [apply step_moves|apply IH].
Qed.

Lemma step_calm s e : readable e = true → rtc move s (step s e).
Proof. intros Hr. destruct (step_cases s e) as [H|[Hn _]]; [done|congruence]. Qed.

Lemma run_calm es : ∀ s, Forall (λ e, readable e = true) es → rtc move s (run s es).
Proof.
  induction es as [|e es IH]; intros s Hes; simpl; [done|].
  apply Forall_cons in Hes as [He Hes].
  etransitivity; [by apply step_calm|by apply IH].
Qed.

(** ** Promises and tasks *)

Definition ids (s : state) : list nat := resolve <$> tasks s.

(** Every task the queue still holds (queued, executing or waiting for its
    retry timer) has a promise of its own, still pending; no promise is
    rejected; only tasks that were submitted have been invoked. *)
Record sound (s : state) : Prop := mkSound {
  sound_pending : Forall (λ p, promises s !! p = Some Pending) (ids s);
  sound_nodup : NoDup (ids s);
  sound_invoked : Forall (λ p, (p < length (promises s))%nat) (invoked s);
  sound_no_reject : Forall (λ pr, ∀ e, pr ≠ Rejected e) (promises s)
}.

Lemma constructor_sound : sound constructor.
Proof. split; simpl; constructor. Qed.

Lemma call_resolve_promises p v s :
  promises s !! p = Some Pending →
  promises (call_resolve p v s) = <[p := Fulfilled v]> (promises s).
Proof. unfold call_resolve. by intros ->. Qed.

Lemma call_resolve_tasks p v s : tasks (call_resolve p v s) = tasks s.
Proof.
  unfold tasks. destruct (call_resolve_fields p v s) as (-> & _ & _ & _ & -> & -> & _).
  done.
Qed.

Lemma sound_fresh s : sound s → length (promises s) ∉ ids s.
Proof.
  intros Hs Hin. pose proof (sound_pending s Hs) as HP.
  rewrite Forall_forall in HP. apply HP, lookup_lt_Some in Hin. lia.
Qed.

Lemma move_sound s s' : move s s' → sound s → sound s'.
Proof.
  destruct 1 as [s t Ht Hr|s t rest Hq|s t rest v HP|s t rest HP Hlt|s t rest HP|s b n];
    intros [H1 H2 H3 H4].
  - assert (ids (set_queue (queue s ++ [t]) (set_promises (promises s ++ [Pending]) s))
            ≡ₚ resolve t :: ids s) as HI.
    { unfold ids, tasks; simpl. rewrite !fmap_app. simpl. solve_Permutation. }
    split; simpl.
    + rewrite HI. apply Forall_cons. split.
      * rewrite Ht. by apply list_lookup_middle.
      * eapply Forall_impl; [exact H1|]. simpl. intros p Hp.
        rewrite lookup_app_l; [done|]. by apply lookup_lt_Some in Hp.
    + rewrite HI. apply NoDup_cons. split; [|done].
      rewrite Ht. by apply sound_fresh.
    + eapply Forall_impl; [exact H3|]. simpl. intros p Hp.
      rewrite length_app. simpl. lia.
    + apply Forall_app. split; [done|]. by apply Forall_singleton.
  - assert (ids {| queue := rest; processing := true; maxConcurrent := maxConcurrent s;
                   activeTasks := activeTasks s + 1;
                   awaiting := awaiting s ++ [t]; timers := timers s;
                   promises := promises s; invoked := resolve t :: invoked s |}
            ≡ₚ ids s) as HI.
    { unfold ids, tasks; simpl. rewrite Hq, !fmap_app. simpl. solve_Permutation. }
    split; simpl; [by rewrite HI|by rewrite HI| |done].
    apply Forall_cons. split; [|done].
    rewrite Forall_forall in H1. eapply lookup_lt_Some, H1.
    unfold ids, tasks. rewrite Hq. simpl. left.
  - assert (ids s ≡ₚ resolve t :: ids (set_awaiting rest s)) as HI.
    { unfold ids, tasks; simpl. rewrite HP, !fmap_app. simpl. solve_Permutation. }
    rewrite HI in H1, H2. apply Forall_cons in H1 as [H1t H1].
    apply NoDup_cons in H2 as [H2t H2].
    assert (ids (call_resolve (resolve t) v (set_awaiting rest s)) = ids (set_awaiting rest s))
      as HI' by (unfold ids; by rewrite call_resolve_tasks).
    destruct (call_resolve_fields (resolve t) v (set_awaiting rest s))
      as (_ & _ & _ & _ & _ & _ & Hinv).
    split; rewrite ?HI', ?Hinv, ?call_resolve_promises by done; simpl.
    + rewrite Forall_forall in H1. apply Forall_forall. intros p Hp.
      rewrite list_lookup_insert_ne; [by apply H1|]. by intros <-.
    + done.
    + eapply Forall_impl; [exact H3|]. simpl. intros p Hp. by rewrite length_insert.
    + by apply Forall_insert.
  - assert (ids (set_timers (timers s ++ [retry t]) (set_awaiting rest s)) ≡ₚ ids s) as HI.
    { unfold ids, tasks; simpl. rewrite HP, !fmap_app. simpl. solve_Permutation. }
    split; simpl; [by rewrite HI|by rewrite HI|done|done].
  - assert (ids (set_queue (queue s ++ [t]) (set_timers rest s)) ≡ₚ ids s) as HI.
    { unfold ids, tasks; simpl. rewrite HP, !fmap_app. simpl. solve_Permutation. }
    split; simpl; [by rewrite HI|by rewrite HI|done|done].
  - by split.
Qed.

Lemma drop_ids s t rest :
  awaiting s ≡ₚ t :: rest → ids s ≡ₚ resolve t :: ids (set_awaiting rest s).
Proof.
  intros HP. unfold ids, tasks; simpl. rewrite HP, !fmap_app. simpl. solve_Permutation.
Qed.

Lemma drop_sound s s' : drop s s' → sound s → sound s'.
Proof.
  destruct 1 as [s t rest HP _]. intros [H1 H2 H3 H4].
  rewrite (drop_ids s t rest HP) in H1, H2.
  apply Forall_cons in H1 as [_ H1]. apply NoDup_cons in H2 as [_ H2].
  by split.
Qed.

Lemma change_sound s s' : change s s' → sound s → sound s'.
Proof. intros [H|H]; eauto using move_sound, drop_sound. Qed.

Lemma moves_sound s s' : rtc change s s' → sound s → sound s'.
Proof. induction 1; eauto using change_sound. Qed.

Lemma run_sound es : sound (run constructor es).
Proof. eapply moves_sound; [apply run_moves|apply constructor_sound]. Qed.

(** ** One job and its retries *)

(** A task of job [p] that is queued or waits for its timer has been invoked
    once per retry so far; one that is executing, once more. *)
Definition waiting_ok (p : nat) (N : Z) (n : nat) (t : task) : Prop :=
  resolve t = p → maxRetries t = N ∧ 0 ≤ retries t ≤ N ∧ Z.of_nat n = retries t.

Definition running_ok (p : nat) (N : Z) (n : nat) (t : task) : Prop :=
  resolve t = p → maxRetries t = N ∧ 0 ≤ retries t ≤ N ∧ Z.of_nat n = retries t + 1.

Record job_inv (p : nat) (N : Z) (s : state) : Prop := mkJobInv {
  job_queue : Forall (waiting_ok p N (invocations p s)) (queue s);
  job_timers : Forall (waiting_ok p N (invocations p s)) (timers s);
  job_awaiting : Forall (running_ok p N (invocations p s)) (awaiting s);
  job_bound : Z.of_nat (invocations p s) ≤ N + 1;
  job_alloc : (p < length (promises s))%nat
}.

Lemma invocations_cons p q s s' :
  invoked s' = q :: invoked s →
  invocations p s' = if decide (q = p) then S (invocations p s) else invocations p s.
Proof.
  unfold invocations. intros ->. rewrite filter_cons.
  by destruct (decide (q = p)).
Qed.

Lemma invocations_same p s s' : invoked s' = invoked s → invocations p s' = invocations p s.
Proof. unfold invocations. by intros ->. Qed.

Lemma call_resolve_length p v s : length (promises (call_resolve p v s)) = length (promises s).
Proof.
  unfold call_resolve. destruct (promises s !! p) as [[]|]; simpl; by rewrite ?length_insert.
Qed.

Lemma other_job_waiting p N n (l : list task) :
  p ∉ resolve <$> l → Forall (waiting_ok p N n) l.
Proof.
  intros Hn. apply Forall_forall. intros t Ht Hp. destruct Hn.
  rewrite <- Hp. by apply list_elem_of_fmap_2.
Qed.

Lemma other_job_running p N n (l : list task) :
  p ∉ resolve <$> l → Forall (running_ok p N n) l.
Proof.
  intros Hn. apply Forall_forall. intros t Ht Hp. destruct Hn.
  rewrite <- Hp. by apply list_elem_of_fmap_2.
Qed.

Lemma move_job p N s s' : move s s' → sound s → job_inv p N s → job_inv p N s'.
Proof.
  destruct 1 as [s t Ht Hr|s t rest Hq|s t rest v HP|s t rest HP Hlt|s t rest HP|s b n];
    intros Hs [J1 J2 J3 J4 J5].
  - split; rewrite ?(invocations_same p s) by done; simpl; try done.
    + apply Forall_app. split; [done|]. apply Forall_singleton.
      intros Hp. lia.
    + rewrite length_app. simpl. lia.
  - pose proof (sound_nodup s Hs) as HN. unfold ids, tasks in HN.
    rewrite Hq in HN, J1. simpl in HN. apply NoDup_cons in HN as [HN _].
    rewrite !fmap_app in HN. rewrite !elem_of_app in HN.
    apply Forall_cons in J1 as [J1t J1].
    match goal with |- job_inv _ _ ?s' =>
      pose proof (invocations_cons p (resolve t) s s' eq_refl) as HI end.
    destruct (decide (resolve t = p)) as [Hp|Hp].
    + destruct (J1t Hp) as (HA & HB & HC). rewrite Hp in HN.
      split; rewrite ?HI; simpl.
      * apply other_job_waiting. tauto.
      * apply other_job_waiting. tauto.
      * apply Forall_app. split; [apply other_job_running; tauto|].
        apply Forall_singleton. intros _. lia.
      * lia.
      * done.
    + split; rewrite ?HI; simpl; try done.
      apply Forall_app. split; [done|]. by apply Forall_singleton.
  - destruct (call_resolve_fields (resolve t) v (set_awaiting rest s))
      as (F1 & _ & _ & _ & F5 & F6 & F7).
    rewrite HP in J3. apply Forall_cons in J3 as [_ J3].
    split; rewrite ?F1, ?F5, ?F6, ?(invocations_same p s) by done; simpl; try done.
    by rewrite call_resolve_length.
  - rewrite HP in J3. apply Forall_cons in J3 as [J3t J3].
    split; rewrite ?(invocations_same p s) by done; simpl; try done.
    apply Forall_app. split; [done|]. apply Forall_singleton.
    intros Hp. destruct (J3t Hp) as (HA & HB & HC). simpl. lia.
  - rewrite HP in J2. apply Forall_cons in J2 as [J2t J2].
    split; rewrite ?(invocations_same p s) by done; simpl; try done.
    apply Forall_app. split; [done|]. by apply Forall_singleton.
  - by split.
Qed.

Lemma drop_job p N s s' : drop s s' → job_inv p N s → job_inv p N s'.
Proof.
  destruct 1 as [s t rest HP _]. intros [J1 J2 J3 J4 J5].
  rewrite HP in J3. apply Forall_cons in J3 as [_ J3].
  split; rewrite ?(invocations_same p s) by done; done.
Qed.

Lemma change_job p N s s' : change s s' → sound s → job_inv p N s → job_inv p N s'.
Proof. intros [H|H]; eauto using move_job, drop_job. Qed.

Lemma moves_job p N s s' : rtc change s s' → sound s → job_inv p N s → job_inv p N s'.
Proof. induction 1; eauto using change_job, change_sound. Qed.

(** A promise that is fulfilled keeps its value, and its task is not
    invoked again. *)
Lemma move_settled p v s s' :
  move s s' → sound s → promises s !! p = Some (Fulfilled v) →
  promises s' !! p = Some (Fulfilled v) ∧ invocations p s' = invocations p s.
Proof.
  destruct 1 as [s t Ht Hr|s t rest Hq|s t rest v' HP|s t rest HP Hlt|s t rest HP|s b n];
    intros Hs Hp; try done.
  - split; [|done]. simpl. rewrite lookup_app_l; [done|]. by apply lookup_lt_Some in Hp.
  - split; [done|].
    match goal with |- invocations _ ?s' = _ =>
      rewrite (invocations_cons p (resolve t) s s' eq_refl) end.
    destruct (decide (resolve t = p)) as [E|]; [|done].
    pose proof (sound_pending s Hs) as H1. rewrite Forall_forall in H1.
    assert (promises s !! resolve t = Some Pending) as Ht.
    { apply H1. unfold ids, tasks. rewrite Hq. simpl. left. }
    rewrite E in Ht. congruence.
  - destruct (call_resolve_fields (resolve t) v' (set_awaiting rest s))
      as (_ & _ & _ & _ & _ & _ & F7).
    split; [|by apply invocations_same].
    pose proof (sound_pending s Hs) as H1. rewrite Forall_forall in H1.
    assert (promises s !! resolve t = Some Pending) as Ht.
    { apply H1. unfold ids, tasks. rewrite HP, !fmap_app. simpl.
      rewrite !elem_of_app, elem_of_cons. auto. }
    rewrite call_resolve_promises by done. simpl.
    rewrite list_lookup_insert_ne; [done|]. intros E. rewrite E in Ht. congruence.
Qed.

Lemma change_settled p v s s' :
  change s s' → sound s → promises s !! p = Some (Fulfilled v) →
  promises s' !! p = Some (Fulfilled v) ∧ invocations p s' = invocations p s.
Proof.
  intros [H|H]; [by apply move_settled|].
  destruct H as [s t rest _ _]. done.
Qed.

Lemma moves_settled p v s s' :
  rtc change s s' → sound s → promises s !! p = Some (Fulfilled v) →
  promises s' !! p = Some (Fulfilled v) ∧ invocations p s' = invocations p s.
Proof.
  induction 1 as [|s s1 s' Hm _ IH]; intros Hs Hp; [done|].
  destruct (change_settled p v s s1 Hm Hs Hp) as [Hp1 Hi1].
  destruct (IH (change_sound _ _ Hm Hs) Hp1) as [Hp' Hi'].
  split; [done|congruence].
Qed.

(** ** The task created by [addTask] *)

Lemma processQueue_tasks s : tasks (processQueue s) ≡ₚ tasks s.
Proof.
  destruct (processQueue_cases s) as [->|(t & rest & Hq & _ & ->)]; [done|].
  unfold tasks; simpl. rewrite Hq. simpl. solve_Permutation.
Qed.

Lemma start_if_idle_tasks s : tasks (start_if_idle s) ≡ₚ tasks s.
Proof. unfold start_if_idle. destruct (processing s); [done|apply processQueue_tasks]. Qed.

Lemma processQueue_promises s : promises (processQueue s) = promises s.
Proof. by destruct (processQueue_cases s) as [->|(t & rest & Hq & _ & ->)]. Qed.

Lemma processQueue_timers s : timers (processQueue s) = timers s.
Proof. by destruct (processQueue_cases s) as [->|(t & rest & Hq & _ & ->)]. Qed.

Lemma finally_block_keeps s :
  promises (finally_block s) = promises s ∧ timers (finally_block s) = timers s.
Proof.
  unfold finally_block, finally_capacity, finally_next.
  repeat match goal with
  | |- context [if ?b then _ else _] => destruct b
  end; rewrite ?processQueue_promises, ?processQueue_timers; try done.
Qed.

(** The state after [queue.push(task)], with the task pushed. *)
Lemma addTask_push_inv taskFn taskName args id now s p s1 :
  addTask_push taskFn taskName args id now s = inr (p, s1) →
  ∃ opts, has_task_options args = inr opts ∧ p = length (promises s) ∧
    s1 = set_queue
           (queue s ++ [new_task taskFn taskName
                          (if opts then removelast args else args)
                          (if opts then last_arg args else default_options)
                          id now p])
           (set_promises (promises s ++ [Pending]) s).
Proof.
  unfold addTask_push. destruct (has_task_options args) as [|opts]; [done|].
  intros [= <- <-]. by exists opts.
Qed.

Lemma addTask_inv taskFn taskName args id now s p s0 :
  addTask taskFn taskName args id now s = inr (p, s0) →
  ∃ s1, addTask_push taskFn taskName args id now s = inr (p, s1) ∧ s0 = start_if_idle s1.
Proof.
  unfold addTask. destruct (addTask_push _ _ _ _ _ _) as [|[q s1]]; [done|].
  intros [= <- <-]. by exists s1.
Qed.

Lemma tasks_queue_awaiting s t :
  resolve t ∉ resolve <$> timers s → t ∈ tasks s → t ∈ queue s ++ awaiting s.
Proof.
  unfold tasks. rewrite !elem_of_app. intros Hn [?|[?|Ht]]; auto.
  destruct Hn. by apply list_elem_of_fmap_2.
Qed.

(** [addTask] creates exactly one task for the promise it returns; the
    queue holds it, queued or already executing, with no retry and no
    invocation behind it. *)
Lemma addTask_creates taskFn taskName args id now s p s0 :
  sound s →
  addTask taskFn taskName args id now s = inr (p, s0) →
  sound s0 ∧
  ∃ opts, has_task_options args = inr opts ∧
    let t0 := new_task taskFn taskName
                (if opts then removelast args else args)
                (if opts then last_arg args else default_options) id now p in
    t0 ∈ queue s0 ++ awaiting s0 ∧
    (∀ t, t ∈ tasks s0 → resolve t = p → t = t0) ∧
    (0 ≤ maxRetries t0 → job_inv p (maxRetries t0) s0).
Proof.
  intros Hs Hadd.
  apply addTask_inv in Hadd as (s1 & Hpush & ->).
  pose proof Hpush as Hpush'.
  apply addTask_push_inv in Hpush as (opts & Hopts & -> & ->).
  set (t0 := new_task _ _ _ _ _ _ _).
  set (s1 := set_queue _ _).
  assert (move s s1) as Hm by by apply (move_submit s t0).
  assert (sound s1) as Hs1 by by apply (move_sound s).
  pose proof (sound_fresh s Hs) as Hfresh. unfold ids, tasks in Hfresh.
  rewrite !fmap_app, !elem_of_app in Hfresh.
  assert (∀ t, t ∈ tasks s1 → resolve t = length (promises s) → t = t0) as Huniq.
  { intros t Ht Hp. unfold tasks in Ht. simpl in Ht.
    rewrite !elem_of_app, list_elem_of_singleton in Ht.
    destruct Ht as [[Ht| ->]|[Ht|Ht]]; [|done| |];
      destruct Hfresh; rewrite <- Hp; eauto using list_elem_of_fmap_2. }
  split; [by eapply moves_sound; [apply calm, start_if_idle_moves|]|].
  exists opts. split; [done|]. fold t0. simpl. split; [|split].
  - apply tasks_queue_awaiting.
    + pose proof (start_if_idle_moves s1) as Hms.
      assert (timers (start_if_idle s1) = timers s) as ->.
      { unfold start_if_idle. destruct (processing s1); [done|].
        by rewrite processQueue_timers. }
      tauto.
    + rewrite start_if_idle_tasks. unfold tasks. simpl.
      rewrite !elem_of_app, list_elem_of_singleton. auto.
  - intros t Ht. rewrite start_if_idle_tasks in Ht. by apply Huniq.
  - intros HN. eapply moves_job; [apply calm, start_if_idle_moves|done|].
    assert (invocations (length (promises s)) s1 = 0%nat) as Hz.
    { unfold invocations. simpl.
      pose proof (sound_invoked s Hs) as Hi.
      induction Hi as [|q l Hq _ IH]; [done|].
      rewrite filter_cons_False by lia. done. }
    split; rewrite ?Hz; simpl.
    + apply Forall_app. split; [apply other_job_waiting; tauto|].
      apply Forall_singleton. intros _. simpl. split; [done|]. simpl in HN. lia.
    + apply other_job_waiting; tauto.
    + apply other_job_running; tauto.
    + simpl in HN. lia.
    + rewrite length_app. simpl. lia.
Qed.

Lemma processQueue_holds s t :
  t ∈ queue s → t ∈ queue (processQueue s) ++ awaiting (processQueue s).
Proof.
  intros Ht. destruct (processQueue_cases s) as [->|(t1 & rest & Hq & _ & ->)].
  - apply elem_of_app. by left.
  - simpl. rewrite Hq in Ht. rewrite !elem_of_app, list_elem_of_singleton.
    apply elem_of_cons in Ht as [->|Ht]; auto.
Qed.

Lemma start_if_idle_holds s t :
  t ∈ queue s → t ∈ queue (start_if_idle s) ++ awaiting (start_if_idle s).
Proof.
  unfold start_if_idle. destruct (processing s); [|apply processQueue_holds].
  intros Ht. apply elem_of_app. by left.
Qed.

(** What [addTask] does, in one equation. *)
Lemma addTask_eq taskFn taskName args id now s opts :
  has_task_options args = inr opts →
  addTask taskFn taskName args id now s =
    inr (length (promises s),
         start_if_idle
           (set_queue
              (queue s ++ [new_task taskFn taskName
                             (if opts then removelast args else args)
                             (if opts then last_arg args else default_options)
                             id now (length (promises s))])
              (set_promises (promises s ++ [Pending]) s))).
Proof. intros H. unfold addTask, addTask_push. by rewrite H. Qed.

(** C2, as the code has it: a job submitted without a task-options object
    gets [maxRetries = 3] and [retryDelay = 5000]; its arguments are passed
    on unchanged. *)
Theorem default_retry_settings taskFn taskName args id now s p s0 :
  has_task_options args = inr false →
  addTask taskFn taskName args id now s = inr (p, s0) →
  ∃ t, t ∈ queue s0 ++ awaiting s0 ∧ resolve t = p ∧
       TaskQueue.args t = args ∧ maxRetries t = 3 ∧ retryDelay t = 5000.
Proof.
  intros Hopts Hadd. rewrite (addTask_eq _ _ _ _ _ _ _ Hopts) in Hadd.
  injection Hadd as <- <-.
  eexists. split.
  { apply start_if_idle_holds. simpl. rewrite elem_of_app, list_elem_of_singleton.
    right. reflexivity. }
  done.
Qed.

(** C9: a trailing object argument is taken as the task options exactly
    when its [_isTaskOptions] property is truthy: it is then removed from
    the arguments and its settings are read; otherwise it stays among the
    arguments of the work function and the defaults 3 and 5000 apply. *)
Theorem trailing_object_is_options_iff_flagged
    taskFn taskName (front : list value) props id now s :
  ∃ s0 t,
    addTask taskFn taskName (front ++ [VObj props]) id now s
      = inr (length (promises s), s0) ∧
    t ∈ queue s0 ++ awaiting s0 ∧ resolve t = length (promises s) ∧
    if truthy (assoc "_isTaskOptions" props)
    then TaskQueue.args t = front ∧
         maxRetries t = or_number (assoc "maxRetries" props) 3 ∧
         retryDelay t = or_number (assoc "retryDelay" props) 5000
    else TaskQueue.args t = front ++ [VObj props] ∧
         maxRetries t = 3 ∧ retryDelay t = 5000.
Proof.
  rewrite (addTask_eq _ _ _ _ _ _ _ (has_task_options_object props front)).
  eexists _, _. split; [done|]. split.
  { apply start_if_idle_holds. simpl. rewrite elem_of_app, list_elem_of_singleton.
    right. reflexivity. }
  split; [done|].
  unfold last_arg. rewrite List.last_last, removelast_last.
  by destruct (truthy (assoc "_isTaskOptions" props)).
Qed.

Lemma pick_elem (l : list task) t :
  t ∈ l → NoDup (resolve <$> l) → ∃ rest, pick (resolve t) l = Some (t, rest).
Proof.
  induction l as [|a l IH]; intros Ht HN; [by apply elem_of_nil in Ht|].
  rewrite fmap_cons in HN. apply NoDup_cons in HN as [Ha HN]. simpl.
  destruct (resolve a =? resolve t)%nat eqn:E.
  - apply Nat.eqb_eq in E. apply elem_of_cons in Ht as [->|Ht]; [by eexists|].
    destruct Ha. rewrite E. by apply list_elem_of_fmap_2.
  - apply Nat.eqb_neq in E. apply elem_of_cons in Ht as [->|Ht]; [done|].
    destruct (IH Ht HN) as [rest ->]. by eexists.
Qed.

Lemma sound_awaiting_nodup s : sound s → NoDup (resolve <$> awaiting s).
Proof.
  intros Hs. pose proof (sound_nodup s Hs) as HN. unfold ids, tasks in HN.
  rewrite !fmap_app in HN. apply NoDup_app in HN as (_ & _ & HN).
  by apply NoDup_app in HN as (HN & _).
Qed.

(** The failure value [{ error: error.message, retries: task.retries,
    failed: true }], given what [error.message] reads. *)
Definition failure_value (text : value) (n : Z) : value :=
  VObj [("error", text); ("retries", VNum n); ("failed", VBool true)].

(** ** A promise without a task *)

(** A promise that is pending while the queue holds no task for it. *)
Definition orphan (p : nat) (s : state) : Prop :=
  promises s !! p = Some Pending ∧ p ∉ ids s.

Lemma call_resolve_other p q v s :
  p ≠ q → promises (call_resolve q v s) !! p = promises s !! p.
Proof.
  intros Hne. unfold call_resolve. destruct (promises s !! q) as [[]|]; try done.
  simpl. by rewrite list_lookup_insert_ne.
Qed.

Lemma change_orphan p s s' : change s s' → orphan p s → orphan p s'.
Proof.
  intros [Hm|Hd] [Hp Hn].
  - destruct Hm as [s t Ht Hr|s t rest Hq|s t rest v HP|s t rest HP Hlt|s t rest HP|s b n].
    + assert (ids (set_queue (queue s ++ [t]) (set_promises (promises s ++ [Pending]) s))
              ≡ₚ resolve t :: ids s) as HI.
      { unfold ids, tasks; simpl. rewrite !fmap_app. simpl. solve_Permutation. }
      split; simpl.
      * rewrite lookup_app_l; [done|]. by apply lookup_lt_Some in Hp.
      * rewrite HI, elem_of_cons. apply lookup_lt_Some in Hp. intros [E|E]; [lia|done].
    + assert (ids {| queue := rest; processing := true; maxConcurrent := maxConcurrent s;
                     activeTasks := activeTasks s + 1;
                     awaiting := awaiting s ++ [t]; timers := timers s;
                     promises := promises s; invoked := resolve t :: invoked s |}
              ≡ₚ ids s) as HI.
      { unfold ids, tasks; simpl. rewrite Hq, !fmap_app. simpl. solve_Permutation. }
      split; [done|]. by rewrite HI.
    + rewrite (drop_ids s t rest HP) in Hn. rewrite elem_of_cons in Hn.
      split.
      * rewrite call_resolve_other by tauto. done.
      * unfold ids. rewrite call_resolve_tasks. tauto.
    + assert (ids (set_timers (timers s ++ [retry t]) (set_awaiting rest s)) ≡ₚ ids s) as HI.
      { unfold ids, tasks; simpl. rewrite HP, !fmap_app. simpl. solve_Permutation. }
      split; [done|]. by rewrite HI.
    + assert (ids (set_queue (queue s ++ [t]) (set_timers rest s)) ≡ₚ ids s) as HI.
      { unfold ids, tasks; simpl. rewrite HP, !fmap_app. simpl. solve_Permutation. }
      split; [done|]. by rewrite HI.
    + done.
  - destruct Hd as [s t rest HP _].
    rewrite (drop_ids s t rest HP) in Hn. rewrite elem_of_cons in Hn.
    split; [done|tauto].
Qed.

Lemma moves_orphan p s s' : rtc change s s' → orphan p s → orphan p s'.
Proof. induction 1; eauto using change_orphan. Qed.

(** C3, as the code has it.  The promise [addTask] returns is rejected
    exactly when the last argument is [null].  For an accepted job whose
    maximum retries is not negative, a throwing work function leads to a
    retry while one is left; with none left, the promise is fulfilled with
    [{failed: true, error, retries}], where [retries] is the job's maximum
    retries, unless the thrown value is [null] or [undefined]: then the
    task is dropped and the promise stays pending for ever. *)
Theorem addTask_promise_settlement
    (es1 es2 : list event) taskFn taskName args id now :
  match addTask taskFn taskName args id now (run constructor es1) with
  | inl _ => last_arg args = VNull
  | inr (p, s0) =>
      last_arg args ≠ VNull ∧
      ∀ t t' error,
        t ∈ queue s0 ++ awaiting s0 → resolve t = p → 0 ≤ maxRetries t →
        let s := run s0 es2 in
        t' ∈ awaiting s → resolve t' = p →
        let s' := step s (Settle p (Threw error)) in
        if retries t' <? maxRetries t'
        then promises s' !! p = Some Pending ∧ retry t' ∈ timers s'
        else if unreadable error
             then promises s' !! p = Some Pending ∧ (p ∉ ids s') ∧
                  ∀ es3, promises (run s' es3) !! p = Some Pending
             else promises s' !! p
                  = Some (Fulfilled (failure_value (prop error "message") (maxRetries t)))
  end.
Proof.
  destruct (addTask taskFn taskName args id now (run constructor es1))
    as [e|[p s0]] eqn:Hadd.
  { unfold addTask, addTask_push in Hadd.
    destruct (has_task_options args) as [e'|opts] eqn:Ho; [|discriminate Hadd].
    unfold has_task_options in Ho.
    destruct ((0 <? length args)%nat && typeof_object (last_arg args)) eqn:G;
      [|discriminate Ho].
    apply andb_true_iff in G as [_ G].
    destruct (last_arg args); simpl in Ho, G; done. }
  split.
  { intros Hnull. unfold addTask, addTask_push, has_task_options in Hadd.
    rewrite Hnull in Hadd. simpl in Hadd.
    destruct (0 <? length args)%nat eqn:E; [discriminate Hadd|].
    apply Nat.ltb_ge in E. destruct args as [|a args]; [done|simpl in E; lia]. }
  intros t t' error Ht Hp HN s Ht1 Hp1 s'.
  destruct (addTask_creates _ _ _ _ _ _ _ _ (run_sound es1) Hadd)
    as (Hs0 & opts & _ & _ & Huniq & HJ).
  assert (sound s) as Hs by (eapply moves_sound; [apply run_moves|done]).
  assert (t ∈ tasks s0) as Ht'.
  { unfold tasks. rewrite !elem_of_app in *. tauto. }
  rewrite <- (Huniq t Ht' Hp) in HJ. specialize (HJ HN).
  assert (job_inv p (maxRetries t) s) as HJs
    by (eapply moves_job; [apply run_moves|done|done]).
  assert (sound s') as Hs' by (eapply moves_sound; [apply step_moves|done]).
  assert (promises s !! p = Some Pending) as Hpend.
  { pose proof (sound_pending s Hs) as H1. rewrite Forall_forall in H1.
    apply H1. rewrite <- Hp1. apply list_elem_of_fmap_2.
    unfold tasks. rewrite !elem_of_app. auto. }
  pose proof (job_awaiting _ _ _ HJs) as HA. rewrite Forall_forall in HA.
  destruct (HA t' Ht1 Hp1) as (HA1 & HA2 & HA3).
  destruct (pick_elem _ _ Ht1 (sound_awaiting_nodup s Hs)) as [rest Htake].
  rewrite Hp1 in Htake.
  assert (s' = finally_block (after_await t' (Threw error) (set_awaiting rest s))) as Hs'eq.
  { unfold s'. simpl. by rewrite Htake. }
  destruct (finally_block_keeps (after_await t' (Threw error) (set_awaiting rest s)))
    as [Hfp Hft].
  rewrite <- Hs'eq in Hfp, Hft.
  unfold after_await in Hfp, Hft.
  destruct (retries t' <? maxRetries t') eqn:E.
  - rewrite Hfp, Hft. simpl. split; [done|].
    rewrite elem_of_app, list_elem_of_singleton. auto.
  - apply Z.ltb_ge in E. pose proof (get_unreadable error "message") as Hg.
    destruct (unreadable error) eqn:U.
    + destruct Hg as [err Hg]. rewrite Hg in Hfp. simpl in Hfp.
      assert (orphan p s') as Ho.
      { split; [by rewrite Hfp|].
        pose proof (sound_nodup s Hs) as HN1.
        apply pick_perm in Htake as [_ HP].
        rewrite (drop_ids s t' rest HP), Hp1 in HN1.
        apply NoDup_cons in HN1 as [HN1 _].
        assert (tasks s' ≡ₚ tasks (set_awaiting rest s)) as HT.
        { rewrite Hs'eq. unfold after_await.
          destruct (retries t' <? maxRetries t') eqn:E'; [apply Z.ltb_lt in E'; lia|].
          rewrite Hg. unfold finally_block, finally_capacity, finally_next.
          repeat match goal with
          | |- context [if ?b then _ else _] => destruct b
          end; rewrite ?processQueue_tasks; done. }
        unfold ids. by rewrite HT. }
      split; [apply Ho|]. split; [apply Ho|].
      intros es3. by apply (moves_orphan p s' (run s' es3) (run_moves es3 s')).
    + rewrite Hg in Hfp. rewrite Hfp, Hp1.
      rewrite call_resolve_promises by done. simpl.
      rewrite list_lookup_insert_eq by by eapply lookup_lt_Some.
      assert (retries t' = maxRetries t) as -> by lia. done.
Qed.

(** C4: for a job whose maximum retries [N] is not negative, the retry
    count of its task never exceeds [N], its work function is invoked at
    most [N + 1] times, and once its promise is fulfilled it is not invoked
    again. *)
Theorem retries_and_invocations_bounded
    (es1 es2 : list event) taskFn taskName args id now p s0 t :
  addTask taskFn taskName args id now (run constructor es1) = inr (p, s0) →
  t ∈ queue s0 ++ awaiting s0 → resolve t = p → 0 ≤ maxRetries t →
  let s := run s0 es2 in
  (∀ t', t' ∈ tasks s → resolve t' = p →
     retries t' ≤ maxRetries t ∧ maxRetries t' = maxRetries t) ∧
  Z.of_nat (invocations p s) ≤ maxRetries t + 1 ∧
  (∀ v es3, promises s !! p = Some (Fulfilled v) →
     invocations p (run s es3) = invocations p s).
Proof.
  intros Hadd Ht Hp HN s.
  destruct (addTask_creates _ _ _ _ _ _ _ _ (run_sound es1) Hadd)
    as (Hs0 & opts & _ & _ & Huniq & HJ).
  assert (t ∈ tasks s0) as Ht'.
  { unfold tasks. rewrite !elem_of_app in *. tauto. }
  rewrite <- (Huniq t Ht' Hp) in HJ. specialize (HJ HN).
  assert (sound s) as Hs by (eapply moves_sound; [apply run_moves|done]).
  destruct (moves_job p (maxRetries t) s0 s (run_moves es2 s0) Hs0 HJ)
    as [J1 J2 J3 J4 J5].
  rewrite Forall_forall in J1, J2, J3.
  split; [|split].
  - intros t' Ht1 Hp1. unfold tasks in Ht1. rewrite !elem_of_app in Ht1.
    destruct Ht1 as [Hq|[Ha|Hti]].
    + destruct (J1 _ Hq Hp1) as (? & ? & ?). lia.
    + destruct (J3 _ Ha Hp1) as (? & ? & ?). lia.
    + destruct (J2 _ Hti Hp1) as (? & ? & ?). lia.
  - done.
  - intros v es3 Hv. by eapply moves_settled; [apply run_moves| |].
Qed.

(** ** A job that always throws *)

(** One job with [createTaskOptions(2, 0)] on a fresh queue; its work
    function throws at every invocation. *)
Definition job_options : value := createTaskOptions (VNum 2) (VNum 0).

Definition job_args : list value := [VStr "order"; job_options].

Definition job_task : task :=
  {| id := "k3x9"; taskFn := "deliver"; taskName := "sendCustomerOrderConfirmation";
     args := [VStr "order"]; addedAt := 0; resolve := 0; retries := 0;
     maxRetries := 2; retryDelay := 5000 |}.

Definition job_started : state :=
  {| queue := []; processing := true; maxConcurrent := 3; activeTasks := 1;
     awaiting := [job_task]; timers := []; promises := [Pending];
     invoked := [0%nat] |}.

(** [new Error('boom')], as a thrown value. *)
Definition boom : value := VObj [("message", VStr "boom")].

Definition two_failures : list event :=
  [Settle 0 (Threw boom); Timeout 0; Settle 0 (Threw boom); Timeout 0].

(** [addTask(deliver, name, order, null)] rejects; a work function that
    throws [null] at its last invocation leaves the promise pending with no
    task to settle it; one that throws an [Error] ends in the failure
    value. *)
Lemma addTask_promise_settlement_witness :
  (∃ e, addTask "deliver" "sendOrderStatusUpdate" [VStr "order"; VNull] "k3x9" 0
          (run constructor []) = inl e) ∧
  last_arg [VStr "order"; VNull] = VNull ∧
  addTask "deliver" "sendCustomerOrderConfirmation" job_args "k3x9" 0 (run constructor [])
    = inr (0%nat, job_started) ∧
  0 ≤ maxRetries job_task ∧
  (let s' := step (run job_started two_failures) (Settle 0 (Threw VNull)) in
   promises s' !! 0%nat = Some Pending ∧ tasks s' = [] ∧
   ∀ es3, promises (run s' es3) !! 0%nat = Some Pending) ∧
  promises (step (run job_started two_failures) (Settle 0 (Threw boom))) !! 0%nat
    = Some (Fulfilled (failure_value (VStr "boom") 2)).
Proof.
  assert (job_task ∈ queue job_started ++ awaiting job_started) as Hin by (simpl; left).
  assert (0 ≤ maxRetries job_task) as Hn by (simpl; lia).
  split; [by eexists|].
  split.
  { exact (addTask_promise_settlement [] [] "deliver" "sendOrderStatusUpdate"
             [VStr "order"; VNull] "k3x9" 0). }
  split; [reflexivity|]. split; [exact Hn|].
  pose proof (addTask_promise_settlement [] two_failures
                "deliver" "sendCustomerOrderConfirmation" job_args "k3x9" 0) as [_ H].
  assert (retry (retry job_task) ∈ awaiting (run job_started two_failures)) as Hrun
    by (simpl; left).
  split.
  - destruct (H job_task (retry (retry job_task)) VNull Hin eq_refl Hn Hrun eq_refl)
      as (H1 & _ & H3).
    split; [exact H1|]. split; [reflexivity|exact H3].
  - exact (H job_task (retry (retry job_task)) boom Hin eq_refl Hn Hrun eq_refl).
Defined.

Lemma retries_and_invocations_bounded_witness :
  addTask "deliver" "sendCustomerOrderConfirmation" job_args "k3x9" 0 (run constructor [])
    = inr (0%nat, job_started) ∧
  0 ≤ maxRetries job_task ∧
  let s := run job_started (two_failures ++ [Settle 0 (Threw boom)]) in
  (∀ t', t' ∈ tasks s → resolve t' = 0%nat →
     retries t' ≤ maxRetries job_task ∧ maxRetries t' = maxRetries job_task) ∧
  Z.of_nat (invocations 0 s) ≤ maxRetries job_task + 1 ∧
  (∀ v es3, promises s !! 0%nat = Some (Fulfilled v) →
     invocations 0 (run s es3) = invocations 0 s).
Proof.
  assert (job_task ∈ queue job_started ++ awaiting job_started) as Hin by (simpl; left).
  assert (0 ≤ maxRetries job_task) as Hn by (simpl; lia).
  split; [reflexivity|]. split; [exact Hn|].
  exact (retries_and_invocations_bounded [] (two_failures ++ [Settle 0 (Threw boom)])
           "deliver" "sendCustomerOrderConfirmation" job_args "k3x9" 0
           0%nat job_started job_task eq_refl Hin eq_refl Hn).
Defined.

(** The same job runs its work function three times and ends with
    [{failed: true, retries: 2}]. *)
Example always_throws_three_invocations :
  let s := run job_started (two_failures ++ [Settle 0 (Threw boom)]) in
  invocations 0 s = 3%nat ∧
  promises s !! 0%nat = Some (Fulfilled (failure_value (VStr "boom") 2)) ∧
  tasks s = [] ∧ activeTasks s = 0 ∧ processing s = false.
Proof. by vm_compute. Qed.

(** ** A job without options *)

Definition plain_task : task :=
  {| id := "k3x9"; taskFn := "deliver"; taskName := "sendAdminOrderNotification";
     args := [VStr "order"]; addedAt := 0; resolve := 0; retries := 0;
     maxRetries := 3; retryDelay := 5000 |}.

Definition plain_started : state :=
  {| queue := []; processing := true; maxConcurrent := 3; activeTasks := 1;
     awaiting := [plain_task]; timers := []; promises := [Pending];
     invoked := [0%nat] |}.

Lemma default_retry_settings_witness :
  has_task_options [VStr "order"] = inr false ∧
  ∃ t, t ∈ queue plain_started ++ awaiting plain_started ∧ resolve t = 0%nat ∧
       TaskQueue.args t = [VStr "order"] ∧ maxRetries t = 3 ∧ retryDelay t = 5000.
Proof.
  split; [reflexivity|].
  exact (default_retry_settings "deliver" "sendAdminOrderNotification" [VStr "order"]
           "k3x9" 0 constructor 0%nat plain_started eq_refl eq_refl).
Defined.

(** C2 as stated (a default retry delay of 10,000 ms) fails: the job
    submitted by [addTask(deliver, name, order)] has [retryDelay = 5000]. *)
Lemma default_retry_delay_is_not_10000 :
  ¬ (∀ taskFn taskName args id now s p s0,
       has_task_options args = inr false →
       addTask taskFn taskName args id now s = inr (p, s0) →
       ∃ t, t ∈ queue s0 ++ awaiting s0 ∧ resolve t = p ∧
            maxRetries t = 3 ∧ retryDelay t = 10000).
Proof.
  intros H.
  destruct (H "deliver" "sendAdminOrderNotification" [VStr "order"] "k3x9" 0
              constructor 0%nat plain_started eq_refl eq_refl)
    as (t & Ht & _ & _ & Hd).
  simpl in Ht. apply list_elem_of_singleton in Ht. subst t. discriminate Hd.
Qed.

(** [options.maxRetries || 3] and [options.retryDelay || 5000] turn a
    setting of [0] into the default. *)
Example zero_settings_become_defaults :
  ∃ s0 t,
    addTask "deliver" "job" [createTaskOptions (VNum 0) (VNum 0)] "k3x9" 0 constructor
      = inr (0%nat, s0) ∧
    awaiting s0 = [t] ∧ maxRetries t = 3 ∧ retryDelay t = 5000.
Proof. by eexists _, _. Qed.

(** A negative [maxRetries] is kept: the first failure ends the job, with
    [retries: 0]. *)
Example negative_maxRetries :
  ∃ s0,
    addTask "deliver" "job" [createTaskOptions (VNum (-1)) VUndefined] "k3x9" 0 constructor
      = inr (0%nat, s0) ∧
    promises (step s0 (Settle 0 (Threw boom))) !! 0%nat
      = Some (Fulfilled (failure_value (VStr "boom") 0)).
Proof. by eexists. Qed.

(** A trailing [null] is not an object, yet passes [typeof ... === 'object']:
    reading its [_isTaskOptions] throws and [addTask] rejects before any task
    is created. *)
Example addTask_trailing_null :
  ∃ e, addTask "deliver" "sendOrderStatusUpdate" [VStr "order"; VNull] "k3x9" 0 constructor
       = inl e.
Proof. by eexists. Qed.

End TaskQueueFacts.

(** * Properties of the attempt log *)

Module EmailLoggerFacts.
Import JS EmailLogger.

(** What happens to a logger over time: [init] is called, a call of
    [logEmailAttempt] begins, the read or the write of a call ends. *)
Inductive turn : Type :=
  | Init (fs_error : bool)
  | Begin (e : io) (emailData : list (string * value))
  | ReadDone (k : nat) (fs_error : bool)
  | WriteDone (k : nat) (fs_error : bool).

Definition perform (R : runtime) (t : turn) : runtime :=
  match t with
  | Init fs_error =>
      {| logger := init fs_error (logger R); reading := reading R; writing := writing R |}
  | Begin e emailData => snd (begin e emailData R)
  | ReadDone k fs_error => read_done k fs_error R
  | WriteDone k fs_error => write_done k fs_error R
  end.

Definition run (R : runtime) (ts : list turn) : runtime := foldl perform R ts.

(** A new logger next to a log file with content [f]. *)
Definition start (f : file) : runtime :=
  {| logger := constructor f; reading := []; writing := [] |}.

(** A call that nothing interrupts. *)
Definition Log (e : io) (emailData : list (string * value)) : list turn :=
  [Begin e emailData; ReadDone 0 (fs_error e); WriteDone 0 (fs_error e)].

(** The entries of the [logEmailAttempt] calls, oldest first. *)
Fixpoint logged (ts : list turn) : list log_entry :=
  match ts with
  | [] => []
  | Begin e emailData :: ts => make_entry e emailData :: logged ts
  | _ :: ts => logged ts
  end.

Definition file_size (f : file) : nat :=
  match f with Logs logs => length logs | _ => 0 end.

Lemma unshift_take {A} (n : nat) (x : A) (l : list A) :
  take n (x :: take n l) = take n (x :: l).
Proof.
  destruct n as [|n]; [done|]. simpl. rewrite take_take. f_equal. f_equal. lia.
Qed.

Lemma truncate_take {A} (n : nat) (l : list A) :
  (if (n <? length l)%nat then take n l else l) = take n l.
Proof.
  destruct (n <? length l)%nat eqn:E; [done|].
  apply Nat.ltb_ge in E. by rewrite take_ge.
Qed.

Lemma remember_eq logEntry L :
  remember logEntry L = take (maxMemoryLogs L) (logEntry :: memoryLogs L).
Proof. unfold remember. apply truncate_take. Qed.

(** Run with nothing in between, the three turns of a call are
    [logEmailAttempt]. *)
Lemma Log_logEmailAttempt e emailData L :
  run {| logger := L; reading := []; writing := [] |} (Log e emailData)
  = {| logger := snd (logEmailAttempt e emailData L); reading := []; writing := [] |}.
Proof.
  unfold Log, run, logEmailAttempt, persist. simpl.
  unfold read_done, write_done. simpl.
  destruct L as [f mem n [|]]; simpl; [|done].
  destruct (fs_error e); simpl; [done|].
  by destruct f.
Qed.

Lemma init_fields b L :
  memoryLogs (init b L) = memoryLogs L ∧ maxMemoryLogs (init b L) = maxMemoryLogs L.
Proof. unfold init. destruct (logFile L); try done. by destruct b. Qed.

Lemma perform_memory R t :
  maxMemoryLogs (logger (perform R t)) = maxMemoryLogs (logger R) ∧
  memoryLogs (logger (perform R t))
  = match t with
    | Begin e emailData =>
        take (maxMemoryLogs (logger R)) (make_entry e emailData :: memoryLogs (logger R))
    | _ => memoryLogs (logger R)
    end.
Proof.
  destruct t as [b|e d|k b|k b]; simpl.
  - apply and_comm, init_fields.
  - by rewrite remember_eq.
  - unfold read_done. by destruct (reading R !! k).
  - unfold write_done. by destruct (writing R !! k).
Qed.

Lemma run_maxMemoryLogs ts : ∀ R,
  maxMemoryLogs (logger (run R ts)) = maxMemoryLogs (logger R).
Proof.
  induction ts as [|t ts IH]; intros R; [done|].
  change (run R (t :: ts)) with (run (perform R t) ts).
  rewrite IH. apply perform_memory.
Qed.

Lemma run_memoryLogs ts : ∀ R done,
  memoryLogs (logger R) = take (maxMemoryLogs (logger R)) (reverse done) →
  memoryLogs (logger (run R ts))
  = take (maxMemoryLogs (logger R)) (reverse (done ++ logged ts)).
Proof.
  induction ts as [|t ts IH]; intros R done HR.
  - simpl. by rewrite app_nil_r.
  - change (run R (t :: ts)) with (run (perform R t) ts).
    destruct (perform_memory R t) as [Hmax Hmem]. rewrite <- Hmax.
    destruct t as [b|e d|k b|k b];
      try (apply (IH _ done); by rewrite Hmem, Hmax).
    change (logged (Begin e d :: ts)) with ([make_entry e d] ++ logged ts).
    rewrite (assoc_L (++)). apply IH.
    by rewrite Hmem, Hmax, HR, unshift_take, reverse_app.
Qed.

(** The file and the arrays about to be written hold at most 500 entries. *)
Definition durable_ok (R : runtime) : Prop :=
  file_size (logFile (logger R)) ≤ 500 ∧ Forall (λ logs, length logs ≤ 500) (writing R).

Lemma perform_durable R t : durable_ok R → durable_ok (perform R t).
Proof.
  intros [Hf Hw]. destruct t as [b|e d|k b|k b]; simpl.
  - split; [|done]. simpl. unfold init.
    destruct (logFile (logger R)) eqn:E; [|done..].
    destruct b; [by rewrite E|simpl; lia].
  - by split.
  - unfold read_done. destruct (reading R !! k) as [logEntry|]; [|by split].
    split; [done|]. simpl. apply Forall_app. split; [done|].
    destruct b; [constructor|].
    destruct (logFile (logger R)) as [| | |logs].
    + constructor.
    + apply Forall_singleton. simpl. lia.
    + constructor.
    + apply Forall_singleton. cbv beta zeta.
      destruct (500 <? S (length logs))%nat eqn:E; simpl.
      * rewrite length_take. lia.
      * apply Nat.ltb_ge in E. lia.
  - unfold write_done. destruct (writing R !! k) as [logs|] eqn:E; [|by split].
    split; simpl; [|by apply Forall_delete].
    destruct b; [done|]. simpl. exact (Forall_lookup_1 _ _ _ _ Hw E).
Qed.

Lemma run_durable ts : ∀ R, durable_ok R → durable_ok (run R ts).
Proof.
  induction ts as [|t ts IH]; intros R H; [done|].
  by apply IH, perform_durable.
Qed.

(** C6: however the calls of [logEmailAttempt] on a new logger interleave,
    the in-memory log is the 100 most recent entries, most recent first; a
    log file that held at most 500 entries still does; and a call that
    nothing interrupts and whose write succeeds leaves in the file the new
    entry followed by the entries that were there, cut to the 500 most
    recent. *)
Theorem log_capacities (f : file) (ts : list turn) :
  let R := run (start f) ts in
  let L := logger R in
  memoryLogs L = take 100 (reverse (logged ts)) ∧
  length (memoryLogs L) ≤ 100 ∧
  (file_size f ≤ 500 → file_size (logFile L) ≤ 500) ∧
  (∀ e emailData logs,
     reading R = [] → writing R = [] →
     initialized L = true → fs_error e = false → logFile L = Logs logs →
     logFile (logger (run R (Log e emailData)))
       = Logs (take 500 (make_entry e emailData :: logs))).
Proof.
  intros R L.
  assert (memoryLogs L = take 100 (reverse (logged ts))) as HM.
  { unfold L, R. by rewrite (run_memoryLogs ts (start f) []). }
  split; [done|]. split; [|split].
  - rewrite HM, length_take. lia.
  - intros Hf. apply (run_durable ts (start f)). split; [done|constructor].
  - intros e d logs Hr Hw Hi He Hl.
    replace R with {| logger := L; reading := []; writing := [] |}
      by (unfold L; destruct R; simpl in *; by subst).
    rewrite Log_logEmailAttempt. simpl. unfold persist.
    by rewrite Hi, He, Hl, truncate_take.
Qed.

Definition sample_io (n : string) : io :=
  {| now := n; random := "x7k2q"; iso := "2025-01-01T00:00:00.000Z"; fs_error := false |}.

Definition sample_entry (n : string) (s : attempt_status) : log_entry :=
  {| id := "email_" +:+ n +:+ "_x7k2q"; timestamp := "2025-01-01T00:00:00.000Z";
     type := VStr "unknown"; to := VStr "a@b.c"; subject := VUndefined;
     orderId := VUndefined; status := s; messageId := VNull; error := VNull;
     retryCount := VNum 0 |}.

Definition first_call : list turn :=
  Init false :: Log (sample_io "1") [("to", VStr "a@b.c"); ("success", VBool true)].

Lemma log_capacities_witness :
  let R := run (start Missing) first_call in
  file_size Missing ≤ 500 ∧
  logFile (logger R) = Logs [sample_entry "1" success] ∧
  file_size (logFile (logger R)) ≤ 500 ∧
  logFile (logger (run R (Log (sample_io "2") [("to", VStr "a@b.c")])))
    = Logs [sample_entry "2" failed; sample_entry "1" success].
Proof.
  intros R.
  destruct (log_capacities Missing first_call) as (_ & _ & Hsize & Hwrite).
  split; [simpl; lia|]. split; [reflexivity|].
  split; [apply Hsize; simpl; lia|].
  exact (Hwrite (sample_io "2") [("to", VStr "a@b.c")] [sample_entry "1" success]
           eq_refl eq_refl eq_refl eq_refl eq_refl).
Defined.

(** 150 attempts leave the 100 most recent in memory. *)
Example memory_log_150 :
  let ts := (λ n : nat, Begin (sample_io (pretty n)) []) <$> seq 0 150 in
  let L := logger (run (start Missing) ts) in
  length (memoryLogs L) = 100 ∧
  EmailLogger.id <$> head (memoryLogs L) = Some "email_149_x7k2q" ∧
  EmailLogger.id <$> last (memoryLogs L) = Some "email_50_x7k2q".
Proof. by vm_compute. Qed.

(** Two calls that overlap: both read the file before either writes, and
    the entry of the call that writes first is lost from the file. *)
Example overlapping_calls_lose_an_entry :
  let R := run (start Missing)
             [Init false;
              Begin (sample_io "1") [("to", VStr "a@b.c")];
              Begin (sample_io "2") [("to", VStr "a@b.c")];
              ReadDone 0 false; ReadDone 0 false;
              WriteDone 0 false; WriteDone 0 false] in
  memoryLogs (logger R) = [sample_entry "2" failed; sample_entry "1" failed] ∧
  logFile (logger R) = Logs [sample_entry "2" failed].
Proof. by vm_compute. Qed.

(** C8: [getStats] leaves the logger as it is, so a second call returns the
    same record; the record depends on [memoryLogs] alone, and its counts
    are those of the in-memory list. *)
Theorem getStats_idempotent (L : state) :
  snd (getStats L) = L ∧
  fst (getStats (snd (getStats L))) = fst (getStats L) ∧
  (∀ f n b, fst (getStats (mkLogger f (memoryLogs L) n b)) = fst (getStats L)) ∧
  total (fst (getStats L)) = length (memoryLogs L) ∧
  stats_success (fst (getStats L))
    = length (filter (λ log, status log = success) (memoryLogs L)) ∧
  stats_failed (fst (getStats L))
    = length (filter (λ log, status log = failed) (memoryLogs L)) ∧
  lastAttempt (fst (getStats L))
    = match memoryLogs L with
      | [] => VNull
      | log :: _ => if String.eqb (timestamp log) "" then VNull else VStr (timestamp log)
      end.
Proof.
  split; [done|]. split; [done|]. split; [done|]. split; [done|].
  split; [done|]. split.
  - simpl. induction (memoryLogs L) as [|log l IH]; [done|].
    rewrite !filter_cons.
    pose proof (length_filter (λ log0 : log_entry, status log0 = success) l) as Hle.
    destruct (status log); repeat case_decide; try done; simpl; rewrite <- IH; simpl; lia.
  - simpl. destruct (memoryLogs L) as [|log l]; [done|].
    unfold or. simpl. by destruct (String.eqb (timestamp log) "").
Qed.

Example getStats_sample :
  fst (getStats (mkLogger Missing
         [sample_entry "3" success; sample_entry "2" failed; sample_entry "1" success]
         100 false))
  = {| total := 3; stats_success := 2; stats_failed := 1; successRate := "66.67%";
       lastAttempt := VStr "2025-01-01T00:00:00.000Z" |}.
Proof. by vm_compute. Qed.

End EmailLoggerFacts.

(** * Properties of the delivery tiers *)

Module EmailServiceFacts.
Import JS EmailService.

Abbreviation memory w := (EmailLogger.memoryLogs (emailLogger w)).

(** The message id the simulated tier builds. *)
Definition noop_messageId (now random : string) : value :=
  VStr ("noop-" +:+ now +:+ "-" +:+ random +:+ "@simulated.local").

(** C10: whatever its [active] flag, the simulated tier answers
    [{success: true, messageId, simulated: true}] with the message id built
    from the clock and random readings of this call, and passes exactly one
    entry to the logger, of status ['success'] and with that message id: on
    a logger in use, the entry is put in front of the in-memory log. *)
Theorem noop_sendMail_always_succeeds
    now random e mailOptions metadata (S : NoopEmailService.state)
    (f : EmailLogger.file) (ts : list EmailLoggerFacts.turn) :
  let L := EmailLogger.logger (EmailLoggerFacts.run (EmailLoggerFacts.start f) ts) in
  let result := fst (NoopEmailService.sendMail now random e mailOptions metadata S L) in
  let L' := snd (NoopEmailService.sendMail now random e mailOptions metadata S L) in
  result = VObj [("success", VBool true); ("messageId", noop_messageId now random);
                 ("simulated", VBool true)] ∧
  ∃ entry,
    EmailLogger.memoryLogs L' = entry :: take 99 (EmailLogger.memoryLogs L) ∧
    EmailLogger.status entry = EmailLogger.success ∧
    EmailLogger.messageId entry = noop_messageId now random ∧
    EmailLogger.to entry = Nodemailer.to mailOptions ∧
    EmailLogger.subject entry = Nodemailer.subject mailOptions.
Proof.
  intros L result L'. split; [done|].
  eexists. split.
  { unfold L'. simpl. rewrite EmailLoggerFacts.remember_eq.
    unfold L. rewrite EmailLoggerFacts.run_maxMemoryLogs. reflexivity. }
  done.
Qed.

(** The tiers one pass calls, in order. *)
Definition tiers_tried (e : env) (active : bool) : list tier :=
  match primary e with
  | Nodemailer.Sent _ => [Primary]
  | Nodemailer.Failed _ =>
      match fallback e with
      | Nodemailer.Sent _ => [Primary; Fallback]
      | Nodemailer.Failed _ =>
          if active then [Primary; Fallback; Simulated] else [Primary; Fallback]
      end
  end.

Definition both_failed : value :=
  VObj [("success", VBool false);
        ("error", VStr "Both primary and fallback email delivery failed")].

(** Status and [retryCount] of an entry. *)
Definition mark (entry : EmailLogger.log_entry) : EmailLogger.attempt_status * value :=
  (EmailLogger.status entry, EmailLogger.retryCount entry).

(** C1, as the code has it: a pass in which the primary send succeeds logs
    one ['success'] entry.  A failed primary send is not logged; the
    fallback tier logs one entry for its own attempt, and when it fails too
    one more entry follows: the ['success'] entry of the simulated tier if
    that tier is active, a ['failed'] entry for the whole pass if not.  The
    entries are given most recent first, each with its [retryCount]. *)
Theorem tier_attempts_logged (e : env) (orderData : order) (w : world) :
  EmailLogger.maxMemoryLogs (emailLogger w) = 100 →
  let active := NoopEmailService.active (noopEmailService w) in
  let w' := snd (sendCustomerOrderConfirmation_job e orderData w) in
  ∃ tried entries,
    attempts w' = attempts w ++ tried ∧
    memory w' = take 100 (entries ++ memory w) ∧
    match primary e, fallback e with
    | Nodemailer.Sent _, _ =>
        tried = [Primary] ∧
        mark <$> entries = [(EmailLogger.success, VNum 0)]
    | Nodemailer.Failed _, Nodemailer.Sent _ =>
        tried = [Primary; Fallback] ∧
        mark <$> entries = [(EmailLogger.success, VNum 1)]
    | Nodemailer.Failed _, Nodemailer.Failed _ =>
        if active
        then tried = [Primary; Fallback; Simulated] ∧
             mark <$> entries = [(EmailLogger.success, VNum 2); (EmailLogger.failed, VNum 1)]
        else tried = [Primary; Fallback] ∧
             mark <$> entries = [(EmailLogger.failed, VNum 0); (EmailLogger.failed, VNum 1)]
    end.
Proof.
  intros Hmax active w'. subst active w'.
  unfold sendCustomerOrderConfirmation_job, send_through_tiers.
  destruct (primary e) as [m|pe].
  - simpl. eexists _, [_]. split; [done|]. split.
    + rewrite EmailLoggerFacts.remember_eq. simpl. rewrite Hmax. reflexivity.
    + done.
  - unfold fallback_sendMail, EmailFallbackService.sendMail.
    destruct (fallback e) as [m|fe]; simpl.
    + eexists _, [_]. rewrite <- (assoc_L (++)). split; [done|]. split.
      * rewrite EmailLoggerFacts.remember_eq. simpl. rewrite Hmax. reflexivity.
      * done.
    + destruct (NoopEmailService.active (noopEmailService w)); simpl;
        eexists _, [_; _]; rewrite <- !(assoc_L (++));
        (split; [done|]);
        (split;
           [rewrite !EmailLoggerFacts.remember_eq; simpl;
            rewrite Hmax, EmailLoggerFacts.unshift_take; reflexivity
           |done]).
Qed.

(** A world in which nothing has happened yet: new services, no log file. *)
Definition fresh_world : world := constructor false true EmailLogger.Missing.

Definition sample_order : order :=
  {| orderId := "ORD-1"; customer_email := "customer@example.com" |}.

Definition timeout_error : Error := mkError "Connection timeout".

(** The primary transport fails, the fallback transport delivers. *)
Definition fallback_delivers : env :=
  {| primary := Nodemailer.Failed timeout_error;
     fallback := Nodemailer.Sent (VStr "<fallback-1@mail>");
     first_log := EmailLoggerFacts.sample_io "1";
     second_log := EmailLoggerFacts.sample_io "2";
     noop_now := "3"; noop_random := "abcdefghi" |}.

(** Both transports fail. *)
Definition nothing_delivers : env :=
  {| primary := Nodemailer.Failed timeout_error;
     fallback := Nodemailer.Failed timeout_error;
     first_log := EmailLoggerFacts.sample_io "1";
     second_log := EmailLoggerFacts.sample_io "2";
     noop_now := "3"; noop_random := "abcdefghi" |}.

Lemma tier_attempts_logged_witness :
  EmailLogger.maxMemoryLogs (emailLogger fresh_world) = 100 ∧
  let w' := snd (sendCustomerOrderConfirmation_job fallback_delivers sample_order fresh_world) in
  ∃ tried entries,
    attempts w' = tried ∧
    memory w' = take 100 (entries ++ []) ∧
    tried = [Primary; Fallback] ∧
    mark <$> entries = [(EmailLogger.success, VNum 1)].
Proof.
  split; [reflexivity|].
  destruct (tier_attempts_logged fallback_delivers sample_order fresh_world eq_refl)
    as (tried & entries & H1 & H2 & H3 & H4).
  exists tried, entries. by repeat split.
Defined.

(** C1 as stated fails: when the primary send fails and the fallback send
    succeeds, the log gains one entry, not a ['failed'] and a ['success']
    one. *)
Lemma primary_failure_is_not_logged :
  ¬ (∀ (e : env) (orderData : order) (w : world) pe m,
       EmailLogger.maxMemoryLogs (emailLogger w) = 100 →
       primary e = Nodemailer.Failed pe → fallback e = Nodemailer.Sent m →
       ∃ e1 e2,
         memory (snd (sendCustomerOrderConfirmation_job e orderData w))
           = take 100 (e2 :: e1 :: memory w) ∧
         EmailLogger.status e1 = EmailLogger.failed ∧
         EmailLogger.status e2 = EmailLogger.success).
Proof.
  intros H.
  destruct (H fallback_delivers sample_order fresh_world _ _ eq_refl eq_refl eq_refl)
    as (e1 & e2 & Hm & _).
  vm_compute in Hm. discriminate Hm.
Qed.

Example fallback_delivers_one_entry :
  let w' := snd (sendCustomerOrderConfirmation_job fallback_delivers sample_order fresh_world) in
  attempts w' = [Primary; Fallback] ∧
  EmailLogger.status <$> memory w' = [EmailLogger.success] ∧
  EmailLogger.retryCount <$> memory w' = [VNum 1] ∧
  EmailLogger.messageId <$> memory w' = [VStr "<fallback-1@mail>"].
Proof. by vm_compute. Qed.

(** The job bodies that use the primary transport only never call the
    logger. *)
Lemma primary_only_job_logs_nothing e w :
  emailLogger (snd (primary_only_job e w)) = emailLogger w ∧
  attempts (snd (primary_only_job e w)) = attempts w ++ [Primary].
Proof. unfold primary_only_job. by destruct (primary e). Qed.

(** The flag is set at startup or not at all: no job body changes it. *)
Lemma jobs_keep_activation e orderData w :
  noopEmailService (snd (sendCustomerOrderConfirmation_job e orderData w))
  = noopEmailService w.
Proof.
  unfold sendCustomerOrderConfirmation_job, send_through_tiers.
  destruct (primary e); [done|].
  unfold fallback_sendMail, EmailFallbackService.sendMail.
  destruct (fallback e); simpl; [done|].
  by destruct (NoopEmailService.active (noopEmailService w)).
Qed.

Lemma testConnection_activation fs_error primary_ok fallback_ok w :
  NoopEmailService.active (noopEmailService (snd (testConnection fs_error primary_ok fallback_ok w)))
  = NoopEmailService.active (noopEmailService w) || (negb primary_ok && negb fallback_ok).
Proof.
  unfold testConnection. simpl.
  destruct primary_ok, fallback_ok, (NoopEmailService.active (noopEmailService w)); done.
Qed.

(** C7: the simulated tier is called only when [noopEmailService.active] is
    set; when it is not set and both the primary and the fallback send
    fail, the pass tries those two tiers and returns
    [{success: false, error}]. *)
Theorem simulated_tier_needs_activation (e : env) (orderData : order) (w : world) :
  let result := fst (sendCustomerOrderConfirmation_job e orderData w) in
  let w' := snd (sendCustomerOrderConfirmation_job e orderData w) in
  ∃ tried,
    attempts w' = attempts w ++ tried ∧
    (Simulated ∈ tried → NoopEmailService.active (noopEmailService w) = true) ∧
    (NoopEmailService.active (noopEmailService w) = false →
       (Simulated ∉ tried) ∧
       (∀ pe fe,
          primary e = Nodemailer.Failed pe → fallback e = Nodemailer.Failed fe →
          tried = [Primary; Fallback] ∧ result = both_failed)).
Proof.
  intros result w'. subst result w'.
  exists (tiers_tried e (NoopEmailService.active (noopEmailService w))).
  unfold sendCustomerOrderConfirmation_job, send_through_tiers, tiers_tried.
  destruct (primary e) as [m|pe]; simpl.
  - split; [done|]. split.
    + intros Hin. apply list_elem_of_singleton in Hin. discriminate Hin.
    + intros _. split; [|done].
      intros Hin. apply list_elem_of_singleton in Hin. discriminate Hin.
  - unfold fallback_sendMail, EmailFallbackService.sendMail.
    destruct (fallback e) as [m|fe]; simpl.
    + rewrite <- (assoc_L (++)). split; [done|]. split.
      * intros Hin. repeat (apply elem_of_cons in Hin as [Hin|Hin]; [discriminate Hin|]).
        by apply elem_of_nil in Hin.
      * intros _. split; [|done].
        intros Hin. repeat (apply elem_of_cons in Hin as [Hin|Hin]; [discriminate Hin|]).
        by apply elem_of_nil in Hin.
    + destruct (NoopEmailService.active (noopEmailService w)) eqn:Hact; simpl;
        rewrite <- !(assoc_L (++)); (split; [done|]).
      * by split.
      * assert (Simulated ∉ [Primary; Fallback]) as Hnot.
        { intros Hin.
          repeat (apply elem_of_cons in Hin as [Hin|Hin]; [discriminate Hin|]).
          by apply elem_of_nil in Hin. }
        split; [by intros Hin|]. intros _. by split.
Qed.

(** The world after a startup at which neither transport could be verified. *)
Definition activated_world : world := snd (testConnection false false false fresh_world).

Lemma simulated_tier_needs_activation_witness :
  (NoopEmailService.active (noopEmailService fresh_world) = false ∧
   primary nothing_delivers = Nodemailer.Failed timeout_error ∧
   fallback nothing_delivers = Nodemailer.Failed timeout_error ∧
   fst (sendCustomerOrderConfirmation_job nothing_delivers sample_order fresh_world)
     = both_failed) ∧
  (attempts (snd (sendCustomerOrderConfirmation_job nothing_delivers sample_order
                    activated_world))
     = [Primary; Fallback; Simulated] ∧
   NoopEmailService.active (noopEmailService activated_world) = true).
Proof.
  split.
  - split; [reflexivity|]. split; [reflexivity|]. split; [reflexivity|].
    destruct (simulated_tier_needs_activation nothing_delivers sample_order fresh_world)
      as (tried & _ & _ & H).
    destruct (H eq_refl) as [_ H'].
    exact (proj2 (H' timeout_error timeout_error eq_refl eq_refl)).
  - split; [reflexivity|].
    destruct (simulated_tier_needs_activation nothing_delivers sample_order activated_world)
      as (tried & Ht & H & _).
    apply H. simpl in Ht. rewrite <- Ht.
    apply elem_of_cons. right. apply elem_of_cons. right. apply elem_of_cons. by left.
Defined.

(** With the simulated tier activated, the same failures end in a simulated
    success. *)
Example activated_simulates :
  let r := sendCustomerOrderConfirmation_job nothing_delivers sample_order activated_world in
  fst r = VObj [("success", VBool true); ("messageId", noop_messageId "3" "abcdefghi");
                ("simulated", VBool true)] ∧
  attempts (snd r) = [Primary; Fallback; Simulated] ∧
  EmailLogger.status <$> memory (snd r) = [EmailLogger.success; EmailLogger.failed].
Proof. by vm_compute. Qed.

End EmailServiceFacts.

(** * More on the task queue *)

Module TaskQueueMore.
Import JS TaskQueue TaskQueueFacts.
Local Open Scope Z_scope.

(** ** When [addTask] rejects *)

Lemma has_task_options_error args :
  (∃ e, has_task_options args = inl e) ↔ last_arg args = VNull.
Proof.
  unfold has_task_options. split.
  - intros [e He].
    destruct ((0 <? length args)%nat && typeof_object (last_arg args)) eqn:C; [|done].
    apply andb_true_iff in C as [_ C].
    by destruct (last_arg args).
  - intros Hn. rewrite Hn. simpl.
    assert ((0 <? length args)%nat = true) as ->.
    { apply Nat.ltb_lt. destruct args; [done|simpl; lia]. }
    by eexists.
Qed.

(** X1: [addTask] rejects exactly when its last argument is [null]; the
    queue is then left as it was.  Otherwise it returns a new promise. *)
Theorem addTask_rejects_iff_trailing_null taskFn taskName args id now s :
  match addTask taskFn taskName args id now s with
  | inl _ => last_arg args = VNull ∧ step s (Submit taskFn taskName args id now) = s
  | inr (p, s') =>
      last_arg args ≠ VNull ∧ p = length (promises s) ∧
      promises s' = promises s ++ [Pending] ∧
      step s (Submit taskFn taskName args id now) = s'
  end.
Proof.
  pose proof (has_task_options_error args) as Herr.
  simpl. destruct (addTask taskFn taskName args id now s) as [e|[p s']] eqn:E.
  - split; [|done]. apply Herr.
    unfold addTask, addTask_push in E.
    destruct (has_task_options args); [by eexists|done].
  - destruct (has_task_options args) as [e|opts] eqn:Ho.
    { unfold addTask, addTask_push in E. by rewrite Ho in E. }
    rewrite (addTask_eq _ _ _ _ _ _ _ Ho) in E. injection E as <- <-.
    split; [|split; [done|split; [|done]]].
    + intros Hn. apply Herr in Hn as [e He]. congruence.
    + unfold start_if_idle. simpl. destruct (processing s); [done|].
      by rewrite processQueue_promises.
Qed.

(** ** [createTaskOptions] through [addTask] *)

(** X2: options made by [createTaskOptions(m, d)] and passed last reach the
    task, except that a setting of [0] is replaced by the default (3
    retries, 5000 ms); arguments left out give the defaults too.  The
    options object is not among the arguments of the work function. *)
Theorem createTaskOptions_reach_the_task
    taskFn taskName (front : list value) (m d : option Z) id now s :
  let arg := λ o : option Z, match o with Some n => VNum n | None => VUndefined end in
  let setting := λ (o : option Z) (dflt : Z),
    match o with Some n => if n =? 0 then dflt else n | None => dflt end in
  ∃ s0 t,
    addTask taskFn taskName (front ++ [createTaskOptions (arg m) (arg d)]) id now s
      = inr (length (promises s), s0) ∧
    t ∈ queue s0 ++ awaiting s0 ∧ resolve t = length (promises s) ∧
    TaskQueue.args t = front ∧ retries t = 0 ∧
    maxRetries t = setting m 3 ∧ retryDelay t = setting d 5000.
Proof.
  intros arg setting. unfold createTaskOptions.
  rewrite (addTask_eq _ _ _ _ _ _ _ (has_task_options_object _ front)).
  eexists _, _. split; [done|]. split.
  { apply start_if_idle_holds. simpl. rewrite elem_of_app, list_elem_of_singleton.
    right. reflexivity. }
  split; [done|]. simpl.
  unfold last_arg. rewrite List.last_last, removelast_last.
  split; [done|]. split; [done|].
  split; [destruct m as [m|]|destruct d as [d|]]; simpl; done.
Qed.

(** ** The queue never stalls *)

(** Between events: [processing] says whether a work function is executing,
    and queued tasks never wait on an idle queue. *)
Definition lively (s : state) : Prop :=
  balanced s ∧
  processing s = (0 <? activeTasks s) ∧
  (queue s ≠ [] → 0 < activeTasks s).

Lemma processQueue_guard s :
  ((queue s = [] ∨ maxConcurrent s ≤ activeTasks s) ∧ processQueue s = s) ∨
  ∃ task rest, queue s = task :: rest ∧ activeTasks s < maxConcurrent s ∧
    processQueue s =
      {| queue := rest; processing := true; maxConcurrent := maxConcurrent s;
         activeTasks := activeTasks s + 1;
         awaiting := awaiting s ++ [task]; timers := timers s;
         promises := promises s; invoked := resolve task :: invoked s |}.
Proof.
  unfold processQueue.
  destruct (length (queue s) =? 0)%nat eqn:G1; simpl.
  { left. split; [|done]. left. apply Nat.eqb_eq in G1. by destruct (queue s). }
  destruct (maxConcurrent s <=? activeTasks s) eqn:G2.
  { left. split; [|done]. right. by apply Z.leb_le. }
  apply Z.leb_gt in G2.
  destruct (queue s) as [|task rest]; [done|].
  right. by exists task, rest.
Qed.

(** A queue with a task to run and no work function executing starts one. *)
Lemma start_if_idle_lively s :
  balanced s → queue s ≠ [] →
  processing s = (0 <? activeTasks s) → lively (start_if_idle s).
Proof.
  intros Hb Hq Hp. pose proof Hb as (Hm & Ha & Hu).
  unfold start_if_idle. destruct (processing s) eqn:P.
  - split; [done|]. split; [by rewrite P|]. intros _.
    symmetry in Hp. by apply Z.ltb_lt in Hp.
  - symmetry in Hp. apply Z.ltb_ge in Hp.
    destruct (processQueue_guard s) as [[[Hq'|Hfull] _]|(t & rest & Hqs & Hlt & ->)].
    + done.
    + lia.
    + split; [|split]; simpl.
      * unfold balanced. simpl. rewrite length_app. simpl. lia.
      * symmetry. apply Z.ltb_lt. lia.
      * intros _. lia.
Qed.

Lemma step_lively s e : lively s → lively (step s e).
Proof.
  intros (Hb & Hp & Hq). pose proof Hb as (Hm & Ha & Hu).
  destruct e as [taskFn taskName args id now|p o|p]; simpl.
  - unfold addTask.
    destruct (addTask_push taskFn taskName args id now s) as [?|[q s1]] eqn:E; [done|].
    pose proof E as E'. apply addTask_push_inv in E' as (opts & _ & _ & Hs1).
    apply addTask_push_fields in E as (E1 & E2 & E3 & _ & _ & E6).
    apply start_if_idle_lively.
    + unfold balanced. rewrite E1, E2, E3. done.
    + rewrite Hs1. simpl. by destruct (queue s).
    + by rewrite E6, E2.
  - destruct (pick p (awaiting s)) as [[t rest]|] eqn:E; [|done].
    apply pick_length in E.
    set (s1 := after_await t o (set_awaiting rest s)).
    destruct (after_await_fields t o (set_awaiting rest s))
      as (F1 & F2 & F3 & F4 & F5 & _). fold s1 in F1, F2, F3, F4, F5. simpl in *.
    assert (0 < activeTasks s) as Hpos by lia.
    unfold finally_block.
    set (s2 := finally_decrement s1).
    assert (queue s2 = queue s ∧ processing s2 = processing s ∧ maxConcurrent s2 = 3 ∧
            activeTasks s2 = activeTasks s - 1 ∧ awaiting s2 = rest) as (G1 & G2 & G3 & G4 & G5).
    { unfold s2, finally_decrement. simpl. rewrite F1, F2, F3, F4, F5. done. }
    clearbody s2. clear F1 F2 F3 F4 F5. clearbody s1.
    assert (balanced s2) as B2.
    { unfold balanced. rewrite G3, G4, G5. lia. }
    assert (lively (finally_next s2)) as L3.
    { unfold finally_next. destruct (0 <? length (queue s2))%nat eqn:Q.
      - apply Nat.ltb_lt in Q.
        destruct (processQueue_guard s2) as [[[Hq'|Hfull] _]|(t' & rest' & Hqs & Hlt & ->)].
        + rewrite Hq' in Q. simpl in Q. lia.
        + lia.
        + split; [|split]; simpl.
          * unfold balanced. simpl. rewrite length_app, G3, G4, G5. simpl. lia.
          * symmetry. apply Z.ltb_lt. lia.
          * intros _. lia.
      - apply Nat.ltb_ge in Q.
        assert (queue s2 = []) as Hq2 by (destruct (queue s2); [done|simpl in Q; lia]).
        destruct (activeTasks s2 =? 0) eqn:A.
        + apply Z.eqb_eq in A. split; [|split]; simpl; [done| |done].
          rewrite A. done.
        + apply Z.eqb_neq in A. split; [done|]. split; [|done].
          rewrite G2, Hp, G4. symmetry.
          transitivity true; [apply Z.ltb_lt; lia|symmetry; apply Z.ltb_lt; lia]. }
    set (s3 := finally_next s2) in *. clearbody s3.
    destruct L3 as (B3 & P3 & Q3). pose proof B3 as (M3 & A3 & U3).
    unfold finally_capacity.
    destruct ((activeTasks s3 <? maxConcurrent s3) && (0 <? length (queue s3))%nat) eqn:C;
      [|by repeat split].
    apply andb_true_iff in C as [C1 C2]. apply Z.ltb_lt in C1. apply Nat.ltb_lt in C2.
    destruct (processQueue_guard s3) as [[_ ->]|(t' & rest' & Hqs & Hlt & ->)];
      [by repeat split|].
    split; [|split]; simpl.
    + unfold balanced. simpl. rewrite length_app. simpl. lia.
    + symmetry. apply Z.ltb_lt. lia.
    + intros _. lia.
  - destruct (pick p (timers s)) as [[t rest]|] eqn:E; [|done].
    apply start_if_idle_lively; simpl; [done| |done].
    by destruct (queue s).
Qed.

Lemma run_lively es : ∀ s, lively s → lively (run s es).
Proof.
  induction es as [|e es IH]; intros s H; [done|].
  by apply IH, step_lively.
Qed.

Lemma constructor_lively : lively constructor.
Proof. split; [apply constructor_balanced|]. by split. Qed.

(** X3: whatever has happened, the status the queue reports is coherent:
    [isProcessing] holds exactly when some work function is executing,
    [activeTasks] is the number of executing work functions, and tasks are
    queued only while one is executing, so that a queued task is always
    picked up when that one ends. *)
Theorem status_is_coherent (es : list event) :
  let s := run constructor es in
  let st := getStatus s in
  isProcessing st = (0 <? status_activeTasks st) ∧
  status_activeTasks st = Z.of_nat (length (awaiting s)) ∧
  0 ≤ status_activeTasks st ≤ 3 ∧
  queueLength st = length (queue s) ∧
  ((0 < queueLength st)%nat → isProcessing st = true).
Proof.
  intros s st. destruct (run_lively es constructor constructor_lively)
    as ((Hm & Ha & Hu) & Hp & Hq).
  fold s in Hm, Ha, Hu, Hp, Hq. unfold st, getStatus. simpl.
  split; [done|]. split; [done|]. split; [lia|]. split; [done|].
  intros Hlen. rewrite Hp. apply Z.ltb_lt. apply Hq.
  destruct (queue s); [simpl in Hlen; lia|done].
Qed.

Lemma status_is_coherent_witness :
  let s := run constructor
             [Submit "deliver" "a" [] "k1" 0; Submit "deliver" "b" [] "k2" 0] in
  (0 < queueLength (getStatus s))%nat ∧ isProcessing (getStatus s) = true.
Proof.
  intros s. split; [simpl; lia|].
  exact (proj2 (proj2 (proj2 (proj2 (status_is_coherent
           [Submit "deliver" "a" [] "k1" 0; Submit "deliver" "b" [] "k2" 0]))))
           ltac:(simpl; lia)).
Defined.

(** ** A returned value ends the job *)

Lemma awaiting_in_ids s t : t ∈ awaiting s → resolve t ∈ ids s.
Proof.
  intros Ht. unfold ids, tasks. apply list_elem_of_fmap_2.
  rewrite !elem_of_app. auto.
Qed.

Lemma sound_ids_pending s p : sound s → p ∈ ids s → promises s !! p = Some Pending.
Proof.
  intros Hs Hp. pose proof (sound_pending s Hs) as H. rewrite Forall_forall in H. auto.
Qed.

Lemma finally_block_tasks_sub s t :
  t ∈ tasks (finally_block s) → t ∈ tasks s.
Proof.
  unfold finally_block, finally_capacity, finally_next, finally_decrement.
  intros Ht.
  repeat match type of Ht with
  | context [if ?b then _ else _] => destruct b
  end; rewrite ?processQueue_tasks in Ht; exact Ht.
Qed.

Lemma finally_block_invocations p s :
  p ∉ resolve <$> queue s → invocations p (finally_block s) = invocations p s.
Proof.
  intros Hq.
  assert (∀ s', queue s' = queue s ∨ (∃ l, queue s = l ++ queue s') →
                invocations p (processQueue s') = invocations p s' ∧
                ∃ l, queue s = l ++ queue (processQueue s')) as Hpq.
  { intros s' Hs'.
    assert (∃ l, queue s = l ++ queue s') as [l Hl].
    { destruct Hs' as [->|?]; [by exists []|done]. }
    destruct (processQueue_cases s') as [->|(t & rest & Hqs & _ & ->)].
    - split; [done|by exists l].
    - split.
      + match goal with |- invocations _ ?x = _ =>
          rewrite (invocations_cons p (resolve t) s' x eq_refl) end.
        destruct (decide (resolve t = p)) as [E|]; [|done].
        destruct Hq. rewrite Hl, Hqs, <- E. apply list_elem_of_fmap_2.
        rewrite elem_of_app, elem_of_cons. auto.
      + exists (l ++ [t]). simpl. rewrite Hl, Hqs, <- (assoc_L (++)). done. }
  unfold finally_block.
  set (s2 := finally_decrement s).
  assert (invocations p (finally_next s2) = invocations p s ∧
          ∃ l, queue s = l ++ queue (finally_next s2)) as [H3 H3q].
  { unfold finally_next. destruct (0 <? length (queue s2))%nat.
    - destruct (Hpq s2 (or_introl eq_refl)) as [-> ?]. done.
    - destruct (activeTasks s2 =? 0); split; try done; by exists []. }
  unfold finally_capacity. destruct (andb _ _); [|done].
  destruct (Hpq (finally_next s2) (or_intror H3q)) as [-> _]. done.
Qed.

(** X6: a work function that returns ends its job whatever it returns, a
    report of failure such as [{success: false, error}] included: the
    promise is fulfilled with the returned value as it is, the task leaves
    the queue, no retry timer is set and the function is not invoked
    again. *)
Theorem returned_value_settles_without_retry
    (es : list event) (t : task) (v : value) :
  let s := run constructor es in
  t ∈ awaiting s →
  let s' := step s (Settle (resolve t) (Returned v)) in
  promises s' !! resolve t = Some (Fulfilled v) ∧
  (resolve t ∉ ids s') ∧
  timers s' = timers s ∧
  invocations (resolve t) s' = invocations (resolve t) s.
Proof.
  intros s Ht s'.
  pose proof (run_sound es) as Hs. fold s in Hs.
  destruct (pick_elem _ _ Ht (sound_awaiting_nodup s Hs)) as [rest Hpick].
  assert (promises s !! resolve t = Some Pending) as Hpend
    by by apply sound_ids_pending, awaiting_in_ids.
  pose proof (pick_perm _ _ _ _ Hpick) as [_ HP].
  assert (resolve t ∉ resolve <$> (queue s ++ rest ++ timers s)) as Hnot.
  { pose proof (sound_nodup s Hs) as HN. unfold ids, tasks in HN.
    rewrite HP in HN.
    assert (resolve <$> queue s ++ (t :: rest) ++ timers s
            ≡ₚ resolve t :: (resolve <$> queue s ++ rest ++ timers s)) as HQ.
    { rewrite !fmap_app. simpl. solve_Permutation. }
    rewrite HQ in HN. by apply NoDup_cons in HN as [HN _]. }
  unfold s'. simpl. rewrite Hpick. simpl.
  set (s1 := call_resolve (resolve t) v (set_awaiting rest s)).
  destruct (call_resolve_fields (resolve t) v (set_awaiting rest s))
    as (F1 & _ & _ & _ & F5 & F6 & F7). fold s1 in F1, F5, F6, F7. simpl in *.
  destruct (finally_block_keeps s1) as [-> ->].
  split; [|split; [|split; [done|]]].
  - unfold s1. rewrite call_resolve_promises by done. simpl.
    apply list_lookup_insert_eq. by eapply lookup_lt_Some.
  - intros Hin. unfold ids in Hin. apply list_elem_of_fmap in Hin as (t' & Ht' & Hin).
    apply finally_block_tasks_sub in Hin. unfold tasks in Hin.
    rewrite F1, F5, F6 in Hin. destruct Hnot. rewrite Ht'. by apply list_elem_of_fmap_2.
  - rewrite finally_block_invocations.
    + by apply invocations_same.
    + rewrite F1. intros Hin. destruct Hnot. rewrite fmap_app, elem_of_app. auto.
Qed.

Definition one_job : list event :=
  [Submit "deliver" "sendCustomerOrderConfirmation" job_args "k3x9" 0].

Lemma returned_value_settles_without_retry_witness :
  job_task ∈ awaiting (run constructor one_job) ∧
  promises (step (run constructor one_job)
              (Settle 0 (Returned EmailServiceFacts.both_failed))) !! 0%nat
    = Some (Fulfilled EmailServiceFacts.both_failed).
Proof.
  assert (job_task ∈ awaiting (run constructor one_job)) as Hin by (simpl; left).
  split; [exact Hin|].
  exact (proj1 (returned_value_settles_without_retry one_job job_task
                  EmailServiceFacts.both_failed Hin)).
Defined.

(** ** No job is lost *)

(** Every pending promise has a task that can still settle it. *)
Definition kept (s : state) : Prop :=
  ∀ p, promises s !! p = Some Pending → p ∈ ids s.

Lemma move_kept s s' : move s s' → sound s → kept s → kept s'.
Proof.
  destruct 1 as [s t Ht Hr|s t rest Hq|s t rest v HP|s t rest HP Hlt|s t rest HP|s b n];
    intros Hs Hk p Hp.
  - assert (ids (set_queue (queue s ++ [t]) (set_promises (promises s ++ [Pending]) s))
            ≡ₚ resolve t :: ids s) as ->.
    { unfold ids, tasks; simpl. rewrite !fmap_app. simpl. solve_Permutation. }
    simpl in Hp. apply elem_of_cons.
    destruct (decide (p = length (promises s))) as [->|Hne]; [by left|right].
    apply Hk. rewrite lookup_app_l in Hp; [done|].
    apply lookup_lt_Some in Hp. rewrite length_app in Hp. simpl in Hp. lia.
  - match goal with |- _ ∈ ids ?x => assert (ids x ≡ₚ ids s) as -> end.
    { unfold ids, tasks; simpl. rewrite Hq, !fmap_app. simpl. solve_Permutation. }
    by apply Hk.
  - assert (ids s ≡ₚ resolve t :: ids (set_awaiting rest s)) as HI.
    { unfold ids, tasks; simpl. rewrite HP, !fmap_app. simpl. solve_Permutation. }
    assert (promises s !! resolve t = Some Pending) as Ht.
    { apply sound_ids_pending; [done|]. rewrite HI. left. }
    rewrite call_resolve_promises in Hp by done. simpl in Hp.
    unfold ids. rewrite call_resolve_tasks. fold (ids (set_awaiting rest s)).
    destruct (decide (p = resolve t)) as [->|Hne].
    + rewrite list_lookup_insert_eq in Hp by by eapply lookup_lt_Some. done.
    + rewrite list_lookup_insert_ne in Hp by done.
      apply Hk in Hp. rewrite HI in Hp. by apply elem_of_cons in Hp as [?|?].
  - assert (ids (set_timers (timers s ++ [retry t]) (set_awaiting rest s)) ≡ₚ ids s) as ->.
    { unfold ids, tasks; simpl. rewrite HP, !fmap_app. simpl. solve_Permutation. }
    by apply Hk.
  - assert (ids (set_queue (queue s ++ [t]) (set_timers rest s)) ≡ₚ ids s) as ->.
    { unfold ids, tasks; simpl. rewrite HP, !fmap_app. simpl. solve_Permutation. }
    by apply Hk.
  - by apply Hk.
Qed.

Lemma moves_kept s s' : rtc move s s' → sound s → kept s → kept s'.
Proof. induction 1; eauto using move_kept, move_sound. Qed.

(** A thrown [null] at the last invocation: the promise is pending and
    the queue holds no task. *)
Example thrown_null_loses_the_job :
  let s := run job_started (two_failures ++ [Settle 0 (Threw VNull)]) in
  promises s !! 0%nat = Some Pending ∧ tasks s = [] ∧
  getStatus s = {| queueLength := 0; status_activeTasks := 0; isProcessing := false |}.
Proof. by vm_compute. Qed.

(** X8: as long as no work function has thrown [null] or [undefined],
    every job that was accepted is in exactly one of two conditions: its
    promise is pending and the queue holds exactly one task for it (queued,
    executing or waiting for its retry timer), or its promise is fulfilled
    and the queue holds no task for it.  (A thrown [null] or [undefined]
    with no retry left is how a job is lost: its task is dropped with the
    promise pending.) *)
Theorem no_job_is_lost (es : list event) (p : nat) :
  let s := run constructor es in
  Forall (λ e, readable e = true) es →
  (p < length (promises s))%nat →
  (promises s !! p = Some Pending ∧
   length (filter (λ t, resolve t = p) (tasks s)) = 1%nat) ∨
  (∃ v, promises s !! p = Some (Fulfilled v) ∧
        length (filter (λ t, resolve t = p) (tasks s)) = 0%nat).
Proof.
  intros s Hes Hp.
  pose proof (run_sound es) as Hs. fold s in Hs.
  assert (kept s) as Hk.
  { eapply moves_kept; [by apply run_calm|apply constructor_sound|].
    intros q Hq. done. }
  assert (∀ l : list task, NoDup (resolve <$> l) →
            length (filter (λ t, resolve t = p) l)
            = if decide (p ∈ resolve <$> l) then 1%nat else 0%nat) as Hcount.
  { induction l as [|a l IH]; intros HN; [done|].
    rewrite fmap_cons in HN. apply NoDup_cons in HN as [Ha HN].
    rewrite filter_cons, fmap_cons. specialize (IH HN).
    destruct (decide (resolve a = p)) as [E|E].
    - subst p. simpl. rewrite IH.
      rewrite (decide_False (P := resolve a ∈ resolve <$> l)) by done.
      rewrite (decide_True (P := resolve a ∈ resolve a :: (resolve <$> l))); [done|left].
    - rewrite IH. repeat case_decide; try done.
      + exfalso. match goal with H : ¬ _ |- _ => apply H end. by right.
      + exfalso. match goal with H : _ ∈ _ :: _ |- _ =>
          apply elem_of_cons in H as [?|?] end; congruence. }
  rewrite (Hcount _ (sound_nodup s Hs)). fold (ids s).
  destruct (lookup_lt_is_Some_2 _ _ Hp) as [pr Hpr].
  destruct pr as [|v|e].
  - left. split; [done|]. destruct (decide (p ∈ ids s)) as [|Hn]; [done|].
    destruct Hn. by apply Hk.
  - right. exists v. split; [done|]. destruct (decide (p ∈ ids s)) as [Hin|]; [|done].
    apply (sound_ids_pending s p Hs) in Hin. congruence.
  - pose proof (sound_no_reject s Hs) as HR. rewrite Forall_forall in HR.
    destruct (HR _ (list_elem_of_lookup_2 _ _ _ Hpr) e eq_refl).
Qed.

Lemma no_job_is_lost_witness :
  let s := run constructor (one_job ++ [Settle 0 (Threw boom)]) in
  Forall (λ e, readable e = true) (one_job ++ [Settle 0 (Threw boom)]) ∧
  (0 < length (promises s))%nat ∧
  promises s !! 0%nat = Some Pending ∧
  length (filter (λ t, resolve t = 0%nat) (tasks s)) = 1%nat.
Proof.
  intros s.
  assert (Forall (λ e, readable e = true) (one_job ++ [Settle 0 (Threw boom)])) as Hes
    by (by repeat constructor).
  split; [exact Hes|]. split; [simpl; lia|].
  destruct (no_job_is_lost (one_job ++ [Settle 0 (Threw boom)]) 0 Hes) as [H|(v & H & _)].
  - simpl. lia.
  - exact H.
  - discriminate H.
Defined.

(** ** Counting the invocations of a job *)

(** X9: for a job whose maximum retries [N] is not negative, the work
    function that is executing with retry count [k] is at its [k + 1]-th
    invocation; so a job that fails every time has been invoked exactly
    [N + 1] times when the queue gives up, whatever the values thrown. *)
Theorem failing_job_runs_N_plus_1_times
    (es1 es2 : list event) taskFn taskName args id now p s0 t :
  addTask taskFn taskName args id now (run constructor es1) = inr (p, s0) →
  t ∈ queue s0 ++ awaiting s0 → resolve t = p → 0 ≤ maxRetries t →
  let s := run s0 es2 in
  ∀ t', t' ∈ awaiting s → resolve t' = p →
    Z.of_nat (invocations p s) = retries t' + 1 ∧
    ∀ error, ¬ retries t' < maxRetries t' →
      Z.of_nat (invocations p (step s (Settle p (Threw error)))) = maxRetries t + 1.
Proof.
  intros Hadd Ht Hp HN s t' Ht1 Hp1.
  destruct (addTask_creates _ _ _ _ _ _ _ _ (run_sound es1) Hadd)
    as (Hs0 & opts & _ & _ & Huniq & HJ).
  assert (t ∈ tasks s0) as Ht'.
  { unfold tasks. rewrite !elem_of_app in *. tauto. }
  rewrite <- (Huniq t Ht' Hp) in HJ. specialize (HJ HN).
  assert (sound s) as Hs by (eapply moves_sound; [apply run_moves|done]).
  assert (job_inv p (maxRetries t) s) as HJs
    by (eapply moves_job; [apply run_moves|done|done]).
  pose proof (job_awaiting _ _ _ HJs) as HA. rewrite Forall_forall in HA.
  destruct (HA t' Ht1 Hp1) as (HA1 & HA2 & HA3).
  split; [done|]. intros error Hex. unfold step.
  destruct (pick_elem _ _ Ht1 (sound_awaiting_nodup s Hs)) as [rest Hpick].
  rewrite Hp1 in Hpick. rewrite Hpick.
  rewrite finally_block_invocations.
  - destruct (after_await_fields t' (Threw error) (set_awaiting rest s))
      as (_ & _ & _ & _ & _ & F6).
    rewrite (invocations_same p s) by done. lia.
  - destruct (after_await_fields t' (Threw error) (set_awaiting rest s))
      as (-> & _). simpl.
    intros Hin. pose proof (sound_nodup s Hs) as HNd. unfold ids, tasks in HNd.
    rewrite fmap_app in HNd. apply NoDup_app in HNd as (_ & Hdis & _).
    apply (Hdis p Hin). rewrite fmap_app, elem_of_app. left.
    rewrite <- Hp1. by apply list_elem_of_fmap_2.
Qed.

Lemma failing_job_runs_N_plus_1_times_witness :
  addTask "deliver" "sendCustomerOrderConfirmation" job_args "k3x9" 0 (run constructor [])
    = inr (0%nat, job_started) ∧
  0 ≤ maxRetries job_task ∧
  Z.of_nat (invocations 0 (step (run job_started two_failures) (Settle 0 (Threw boom))))
    = maxRetries job_task + 1.
Proof.
  assert (job_task ∈ queue job_started ++ awaiting job_started) as Hin by (simpl; left).
  assert (0 ≤ maxRetries job_task) as Hn by (simpl; lia).
  split; [reflexivity|]. split; [exact Hn|].
  refine (proj2 (failing_job_runs_N_plus_1_times [] two_failures
                   "deliver" "sendCustomerOrderConfirmation" job_args "k3x9" 0
                   0%nat job_started job_task eq_refl Hin eq_refl Hn
                   (retry (retry job_task)) _ eq_refl) boom _).
  - simpl. left.
  - simpl. lia.
Defined.

(** ** A retry runs the same job *)

(** Equal but for the retry count. *)
Definition same_job (a b : task) : Prop :=
  TaskQueue.id a = TaskQueue.id b ∧ taskFn a = taskFn b ∧ taskName a = taskName b ∧
  TaskQueue.args a = TaskQueue.args b ∧ addedAt a = addedAt b ∧
  resolve a = resolve b ∧ maxRetries a = maxRetries b ∧ retryDelay a = retryDelay b.

Definition job_kept (t0 : task) (s : state) : Prop :=
  (resolve t0 < length (promises s))%nat ∧
  Forall (λ t', resolve t' = resolve t0 → same_job t0 t') (tasks s).

Lemma move_job_kept t0 s s' : move s s' → job_kept t0 s → job_kept t0 s'.
Proof.
  destruct 1 as [s t Ht Hr|s t rest Hq|s t rest v HP|s t rest HP Hlt|s t rest HP|s b n];
    intros [Hlt0 HF]; [| | | | |done];
    rewrite Forall_forall in HF; unfold tasks in HF;
    (split; [simpl; rewrite ?length_app, ?call_resolve_length; simpl; lia|]);
    rewrite ?call_resolve_tasks; apply Forall_forall; intros x Hx E;
    unfold tasks in Hx; simpl in Hx.
  - rewrite !elem_of_app, list_elem_of_singleton in Hx.
    destruct Hx as [[Hx| ->]|Hx]; [| lia |]; apply HF; rewrite ?elem_of_app; auto.
  - rewrite Hq in HF. rewrite !elem_of_app, list_elem_of_singleton in Hx.
    apply HF; [|done]. rewrite !elem_of_app, elem_of_cons.
    destruct Hx as [Hx|[[Hx| ->]|Hx]]; auto.
  - apply HF; [|done]. rewrite !elem_of_app in *. rewrite HP, elem_of_cons. tauto.
  - rewrite !elem_of_app, list_elem_of_singleton in Hx.
    assert (t ∈ queue s ++ awaiting s ++ timers s) as Hin.
    { rewrite !elem_of_app, HP, elem_of_cons. auto. }
    destruct Hx as [Hx|[Hx|[Hx| ->]]].
    + apply HF; [|done]. rewrite !elem_of_app. auto.
    + apply HF; [|done]. rewrite !elem_of_app, HP, elem_of_cons. auto.
    + apply HF; [|done]. rewrite !elem_of_app. auto.
    + destruct (HF t Hin E) as (? & ? & ? & ? & ? & ? & ? & ?). by repeat split.
  - rewrite !elem_of_app, list_elem_of_singleton in Hx.
    apply HF; [|done]. rewrite !elem_of_app, HP, elem_of_cons.
    destruct Hx as [[Hx| ->]|[Hx|Hx]]; auto.
Qed.

Lemma drop_job_kept t0 s s' : drop s s' → job_kept t0 s → job_kept t0 s'.
Proof.
  destruct 1 as [s t rest HP _]. intros [HL HF]. split; [done|].
  rewrite Forall_forall in *. intros t' Ht'. apply HF.
  unfold tasks in *. simpl in Ht'. rewrite !elem_of_app in *. rewrite HP, elem_of_cons. tauto.
Qed.

Lemma moves_job_kept t0 s s' : rtc change s s' → job_kept t0 s → job_kept t0 s'.
Proof. induction 1 as [|? ? ? [?|?]]; eauto using move_job_kept, drop_job_kept. Qed.

(** X10: every task the queue ever holds for a job, after any number of
    retries, differs from the task [addTask] created only in its retry
    count: a retry invokes the same function with the same arguments and
    keeps the job's name, identifier and retry settings. *)
Theorem retry_runs_the_same_job
    (es1 es2 : list event) taskFn taskName args id now p s0 t :
  addTask taskFn taskName args id now (run constructor es1) = inr (p, s0) →
  t ∈ queue s0 ++ awaiting s0 → resolve t = p →
  ∀ t', t' ∈ tasks (run s0 es2) → resolve t' = p →
    same_job t t' ∧ TaskQueue.taskFn t' = taskFn ∧ TaskQueue.taskName t' = taskName ∧
    TaskQueue.id t' = id.
Proof.
  intros Hadd Ht Hp t' Ht1 Hp1.
  destruct (addTask_creates _ _ _ _ _ _ _ _ (run_sound es1) Hadd)
    as (Hs0 & opts & _ & Hin0 & Huniq & _).
  assert (t ∈ tasks s0) as Ht'.
  { unfold tasks. rewrite !elem_of_app in *. tauto. }
  pose proof (Huniq t Ht' Hp) as Heq.
  assert (job_kept t s0) as HK.
  { split.
    - rewrite Hp. eapply lookup_lt_Some, sound_ids_pending; [done|].
      rewrite <- Hp. unfold ids. by apply list_elem_of_fmap_2.
    - apply Forall_forall. intros x Hx Hrx. rewrite Hp in Hrx.
      rewrite (Huniq x Hx Hrx), <- Heq. by repeat split. }
  destruct (moves_job_kept t s0 _ (run_moves es2 s0) HK) as [_ HF].
  rewrite Forall_forall in HF. rewrite <- Hp in Hp1.
  pose proof (HF t' Ht1 Hp1) as HS. split; [done|].
  destruct HS as (H1 & H2 & H3 & _). rewrite <- H1, <- H2, <- H3, Heq. done.
Qed.

Lemma retry_runs_the_same_job_witness :
  addTask "deliver" "sendCustomerOrderConfirmation" job_args "k3x9" 0 (run constructor [])
    = inr (0%nat, job_started) ∧
  same_job job_task (retry (retry job_task)).
Proof.
  assert (job_task ∈ queue job_started ++ awaiting job_started) as Hin by (simpl; left).
  split; [reflexivity|].
  refine (proj1 (retry_runs_the_same_job [] two_failures
                   "deliver" "sendCustomerOrderConfirmation" job_args "k3x9" 0
                   0%nat job_started job_task eq_refl Hin eq_refl
                   (retry (retry job_task)) _ eq_refl)).
  simpl. left.
Defined.

(** ** Jobs are started in the order of their submission *)

(** Jobs not yet started wait in the queue in the order of their promises,
    behind nothing that was submitted later; tasks that are executing or
    wait for a timer have been started; and a job was started only after
    every job submitted before it. *)
Record fifo (s : state) : Prop := mkFifo {
  fifo_queue : ∀ l1 t l2, queue s = l1 ++ t :: l2 → resolve t ∉ invoked s →
                 ∀ t', t' ∈ l1 → (resolve t' < resolve t)%nat;
  fifo_fresh : ∀ t, t ∈ queue s → resolve t ∉ invoked s →
                 ∀ q, q ∈ invoked s → (q < resolve t)%nat;
  fifo_waiting : ∀ p, (p < length (promises s))%nat → p ∉ invoked s →
                   p ∈ resolve <$> queue s;
  fifo_started : ∀ t, t ∈ awaiting s ++ timers s → resolve t ∈ invoked s;
  fifo_invoked : ∀ l1 q l2, invoked s = l1 ++ q :: l2 → ∀ p, (p < q)%nat → p ∈ l2
}.

Lemma snoc_split {A} (q : list A) (t : A) l1 x l2 :
  q ++ [t] = l1 ++ x :: l2 →
  (l2 = [] ∧ l1 = q ∧ x = t) ∨ (∃ l2', l2 = l2' ++ [t] ∧ q = l1 ++ x :: l2').
Proof.
  destruct l2 as [|y l2 _] using rev_ind.
  - intros H. apply (app_inj_tail q l1 t x) in H as [-> ->]. by left.
  - intros H. right. exists l2.
    replace (l1 ++ x :: l2 ++ [y]) with ((l1 ++ x :: l2) ++ [y]) in H
      by by rewrite <- (assoc_L (++)).
    apply app_inj_tail in H as [-> ->]. done.
Qed.

Lemma tasks_lt s t : sound s → t ∈ tasks s → (resolve t < length (promises s))%nat.
Proof.
  intros Hs Ht. eapply lookup_lt_Some, sound_ids_pending; [done|].
  unfold ids. by apply list_elem_of_fmap_2.
Qed.

Lemma move_fifo s s' : move s s' → sound s → fifo s → fifo s'.
Proof.
  destruct 1 as [s t Ht Hr|s t rest Hq|s t rest v HP|s t rest HP Hlt|s t rest HP|s b n];
    intros Hs [F1 F2 F3 F4 F5]; [| | | | |by split].
  - (* submit *)
    assert (∀ t', t' ∈ queue s → (resolve t' < resolve t)%nat) as Hlt.
    { intros t' Ht'. rewrite Ht. apply tasks_lt; [done|].
      unfold tasks. rewrite elem_of_app. auto. }
    split; simpl.
    + intros l1 x l2 Hsplit Hx t' Ht'.
      apply snoc_split in Hsplit as [(-> & -> & ->)|(l2' & -> & Hqs)]; [by apply Hlt|].
      by eapply F1.
    + intros x Hx Hfresh q Hq. rewrite elem_of_app, list_elem_of_singleton in Hx.
      destruct Hx as [Hx| ->]; [by eapply F2|].
      rewrite Ht. pose proof (sound_invoked s Hs) as Hi.
      rewrite Forall_forall in Hi. by apply Hi.
    + intros p Hp Hfresh. rewrite length_app in Hp. simpl in Hp.
      rewrite fmap_app, elem_of_app. simpl. rewrite list_elem_of_singleton.
      destruct (decide (p = length (promises s))) as [->|Hne]; [by right|left].
      apply F3; [lia|done].
    + done.
    + done.
  - (* start *)
    assert (resolve t ∉ resolve <$> rest) as Hnot.
    { pose proof (sound_nodup s Hs) as HN. unfold ids, tasks in HN.
      rewrite Hq in HN. simpl in HN. apply NoDup_cons in HN as [HN _].
      rewrite !fmap_app, !elem_of_app in HN. tauto. }
    split; simpl.
    + intros l1 x l2 Hsplit Hx t' Ht'. rewrite not_elem_of_cons in Hx.
      apply (F1 (t :: l1) x l2); [by rewrite Hq, Hsplit|tauto|by right].
    + intros x Hx Hfresh q Hqin. rewrite not_elem_of_cons in Hfresh.
      apply elem_of_cons in Hqin as [->|Hqin].
      * apply list_elem_of_split in Hx as (l1 & l2 & ->).
        apply (F1 (t :: l1) x l2); [by rewrite Hq|tauto|left].
      * apply (F2 x); [rewrite Hq; by right|tauto|done].
    + intros p Hp Hfresh. rewrite not_elem_of_cons in Hfresh.
      pose proof (F3 p Hp (proj2 Hfresh)) as Hin. rewrite Hq, fmap_cons in Hin.
      apply elem_of_cons in Hin as [?|?]; [tauto|done].
    + intros x Hx. rewrite elem_of_cons.
      rewrite <- (assoc_L (++)), !elem_of_app, list_elem_of_singleton in Hx.
      destruct Hx as [Hx|[->|Hx]]; [right|by left|right]; apply F4;
        rewrite elem_of_app; auto.
    + intros l1 q l2 Hsplit p Hp.
      destruct l1 as [|y l1]; simpl in Hsplit; injection Hsplit as <- Hrest.
      * subst l2. destruct (decide (p ∈ invoked s)) as [|Hfresh]; [done|exfalso].
        assert (p < length (promises s))%nat as Hpl.
        { pose proof (tasks_lt s t Hs) as Hl. unfold tasks in Hl. rewrite Hq in Hl.
          specialize (Hl ltac:(left)). lia. }
        pose proof (F3 p Hpl Hfresh) as Hin. rewrite Hq, fmap_cons in Hin.
        apply elem_of_cons in Hin as [->|Hin]; [lia|].
        apply list_elem_of_fmap in Hin as (x & -> & Hx).
        apply list_elem_of_split in Hx as (l1 & l2 & ->).
        pose proof (F1 (t :: l1) x l2 ltac:(by rewrite Hq) Hfresh t ltac:(left)). lia.
      * by eapply F5.
  - (* finish *)
    destruct (call_resolve_fields (resolve t) v (set_awaiting rest s))
      as (G1 & _ & _ & _ & G5 & G6 & G7).
    split; rewrite ?G1, ?G5, ?G6, ?G7, ?call_resolve_length; simpl; try done.
    intros x Hx. apply F4. rewrite !elem_of_app in *. rewrite HP, elem_of_cons. tauto.
  - (* retry *)
    split; simpl; try done.
    intros x Hx. rewrite !elem_of_app, list_elem_of_singleton in Hx.
    destruct Hx as [Hx|[Hx| ->]].
    + apply F4. rewrite elem_of_app, HP, elem_of_cons. auto.
    + apply F4. rewrite elem_of_app. auto.
    + simpl. apply F4. rewrite elem_of_app, HP, elem_of_cons. auto.
  - (* timeout *)
    assert (resolve t ∈ invoked s) as Hst.
    { apply F4. rewrite elem_of_app, HP, elem_of_cons. auto. }
    split; simpl; try done.
    + intros l1 x l2 Hsplit Hx t' Ht'.
      apply snoc_split in Hsplit as [(-> & -> & ->)|(l2' & -> & Hqs)]; [done|].
      by eapply F1.
    + intros x Hx Hfresh q Hqin. rewrite elem_of_app, list_elem_of_singleton in Hx.
      destruct Hx as [Hx| ->]; [by eapply F2|done].
    + intros p Hp Hfresh. rewrite fmap_app, elem_of_app. left. by apply F3.
    + intros x Hx. apply F4. rewrite !elem_of_app in *. rewrite HP, elem_of_cons. tauto.
Qed.

Lemma drop_fifo s s' : drop s s' → fifo s → fifo s'.
Proof.
  destruct 1 as [s t rest HP _]. intros [F1 F2 F3 F4 F5].
  split; simpl; try done.
  intros x Hx. apply F4. rewrite !elem_of_app in *. rewrite HP, elem_of_cons. tauto.
Qed.

Lemma moves_fifo s s' : rtc change s s' → sound s → fifo s → fifo s'.
Proof.
  induction 1 as [|? ? ? [?|?]]; eauto using move_fifo, drop_fifo, move_sound, drop_sound.
Qed.

Lemma constructor_fifo : fifo constructor.
Proof.
  split; simpl; try done.
  - intros l1 t l2 H. by destruct l1.
  - intros t H. by apply elem_of_nil in H.
  - intros p H. lia.
  - intros t H. by apply elem_of_nil in H.
  - intros l1 q l2 H. by destruct l1.
Qed.

(** X4: jobs are started in the order in which they were submitted: each
    time a work function is invoked, for a first run or for a retry, every
    job submitted before that job has been invoked at least once already.
    [invoked] lists the invocations, the most recent first. *)
Theorem jobs_start_in_submission_order (es : list event) (later : list nat) (q : nat)
    (earlier : list nat) (p : nat) :
  invoked (run constructor es) = later ++ q :: earlier →
  (p < q)%nat → p ∈ earlier.
Proof.
  intros Hsplit Hp.
  assert (fifo (run constructor es)) as HF.
  { eapply moves_fifo; [apply run_moves|apply constructor_sound|apply constructor_fifo]. }
  by eapply (fifo_invoked _ HF).
Qed.

Definition two_jobs_one_done : list event :=
  [Submit "deliver" "a" [] "k1" 0; Submit "deliver" "b" [] "k2" 0;
   Settle 0 (Returned (VStr "sent"))].

Lemma jobs_start_in_submission_order_witness :
  invoked (run constructor two_jobs_one_done) = [] ++ 1%nat :: [0%nat] ∧
  (0 < 1)%nat ∧ 0%nat ∈ [0%nat].
Proof.
  split; [reflexivity|]. split; [lia|].
  exact (jobs_start_in_submission_order two_jobs_one_done [] 1 [0%nat] 0
           eq_refl ltac:(lia)).
Defined.

(** ** A burst of submissions *)

(** The arguments of one call of [addTask]. *)
Definition submit (c : string * string * list value * string * Z) : event :=
  let '(taskFn, taskName, args, id, now) := c in Submit taskFn taskName args id now.

Definition serial (s : state) : Prop :=
  maxConcurrent s = 3 ∧ timers s = [] ∧
  match length (promises s) with
  | O => awaiting s = [] ∧ queue s = [] ∧ activeTasks s = 0 ∧ processing s = false ∧
         invoked s = []
  | S m => resolve <$> awaiting s = [0%nat] ∧ resolve <$> queue s = seq 1 m ∧
           activeTasks s = 1 ∧ processing s = true ∧ invoked s = [0%nat]
  end.

Lemma submit_serial s c : serial s → serial (step s (submit c)).
Proof.
  destruct c as [[[[taskFn taskName] args] id] now]. intros (Hm & Ht & H). simpl.
  destruct (has_task_options args) as [e|opts] eqn:Ho.
  { unfold addTask, addTask_push. rewrite Ho. by repeat split. }
  rewrite (addTask_eq _ _ _ _ _ _ _ Ho). unfold start_if_idle. simpl.
  destruct (length (promises s)) as [|m] eqn:Hn.
  - destruct H as (Ha & Hq & Hact & Hpr & Hi). rewrite Hpr.
    unfold processQueue. simpl. rewrite Hq, Hm, Hact, Ha, Hi. simpl.
    unfold serial. simpl. rewrite length_app, Hn. simpl. by repeat split.
  - destruct H as (Ha & Hq & Hact & Hpr & Hi). rewrite Hpr.
    unfold serial. simpl. rewrite length_app, Hn. simpl.
    repeat split; try done.
    rewrite fmap_app, Hq. simpl.
    replace (m + 1)%nat with (S m) by lia. rewrite seq_S. simpl.
    by replace (S m) with (m + 1)%nat by lia.
Qed.

(** X5: submitting does not start a second work function.  However many
    jobs are submitted before the first one ends, the first accepted job is
    the only one executing and the others wait in the queue in the order of
    submission, although the ceiling is three. *)
Theorem burst_runs_one_job (cs : list (string * string * list value * string * Z)) :
  let s := run constructor (submit <$> cs) in
  timers s = [] ∧
  match length (promises s) with
  | O => awaiting s = [] ∧ queue s = [] ∧ activeTasks s = 0
  | S m => resolve <$> awaiting s = [0%nat] ∧ resolve <$> queue s = seq 1 m ∧
           activeTasks s = 1
  end.
Proof.
  intros s.
  assert (serial s) as (_ & Ht & H).
  { unfold s. generalize constructor, (ltac:(by repeat split) : serial constructor).
    induction cs as [|c cs IH]; intros s0 H0; [done|].
    simpl. by apply IH, submit_serial. }
  split; [done|]. destruct (length (promises s)); tauto.
Qed.

(** Ten jobs at once: one executes, nine wait. *)
Example ten_submissions :
  let s := run constructor
             (submit <$> replicate 10 ("deliver", "job", [VStr "order"], "k3x9", 0)) in
  getStatus s = {| queueLength := 9; status_activeTasks := 1; isProcessing := true |}.
Proof. by vm_compute. Qed.

End TaskQueueMore.

(** * More properties of the e-mail logger and of the status routes *)

Module EmailLoggerMore.
Import JS EmailLogger EmailLoggerFacts.

Lemma start_memoryLogs f ts :
  memoryLogs (logger (run (start f) ts)) = take 100 (reverse (logged ts)).
Proof. exact (run_memoryLogs ts (start f) [] eq_refl). Qed.

(** X11: [getRecentLogs(limit)] on a logger in use answers the most recent
    calls of [logEmailAttempt], newest first: [limit] of them (50 when no
    limit is given), but never more than 100 and never more than there
    were. *)
Theorem recent_logs_are_the_latest (f : file) (ts : list turn) (limit : option nat) :
  let L := logger (run (start f) ts) in
  let n := default 50%nat limit in
  getRecentLogs limit L = take (n `min` 100) (reverse (logged ts)) ∧
  length (getRecentLogs limit L) = (n `min` 100) `min` length (logged ts).
Proof.
  intros L n. unfold getRecentLogs, L. rewrite start_memoryLogs, take_take.
  split; [done|]. by rewrite length_take, length_reverse.
Qed.

Lemma filter_all {A} (P : A → Prop) `{∀ x, Decision (P x)} (l : list A) :
  length (filter P l) = length l ↔ Forall P l.
Proof.
  induction l as [|x l IH]; [by split|].
  rewrite filter_cons. destruct (decide (P x)) as [Hx|Hx].
  - simpl. rewrite Forall_cons. split.
    + intros E. split; [done|]. apply IH. lia.
    + intros [_ Hl]. f_equal. by apply IH.
  - split.
    + intros E. pose proof (length_filter P l). simpl in E. lia.
    + intros Hl. apply Forall_cons in Hl as [Hx' _]. done.
Qed.

(** X12: the [deliveryStatus] that [GET /check] reports looks at the last 100
    calls of [logEmailAttempt] only: it is ['no data'] when there was no
    call, ['operational'] when each of these calls logged a success, and
    ['issues detected'] otherwise.  A failure is forgotten once 100 later
    calls have been logged. *)
Theorem delivery_status_reads_last_100 (f : file) (ts : list turn) (q : TaskQueue.state) :
  let L := logger (run (start f) ts) in
  let recent := take 100 (reverse (logged ts)) in
  StatusRoutes.deliveryStatus (StatusRoutes.check L q)
  = if decide (logged ts = []) then "no data"
    else if decide (Forall (λ log, status log = success) recent) then "operational"
         else "issues detected".
Proof.
  intros L recent. unfold StatusRoutes.check, getStats. cbv beta zeta.
  unfold StatusRoutes.deliveryStatus, fst, total, stats_failed.
  unfold L. rewrite start_memoryLogs. fold recent.
  assert (length recent = 0 ↔ logged ts = []) as Hlen.
  { unfold recent. rewrite length_take, length_reverse. split.
    - intros E. apply length_zero_iff_nil. lia.
    - by intros ->. }
  destruct (decide (logged ts = [])) as [Hnil|Hnil].
  - apply Hlen in Hnil. rewrite Hnil. reflexivity.
  - assert (length recent ≠ 0) as Hpos by (intros E; by apply Hlen in E).
    destruct (0 <? length recent)%nat eqn:E; [|apply Nat.ltb_ge in E; lia].
    pose proof (length_filter (λ log, status log = success) recent) as Hle.
    pose proof (filter_all (λ log, status log = success) recent) as Hall.
    destruct (decide (Forall (λ log, status log = success) recent)) as [Hf|Hf].
    + apply Hall in Hf. rewrite Hf, Nat.sub_diag. reflexivity.
    + destruct (_ =? 0)%nat eqn:E'; [|done].
      apply Nat.eqb_eq in E'. exfalso. apply Hf, Hall. lia.
Qed.

(** One failure followed by 100 successes: the status is back to
    ['operational']. *)
Example failure_scrolls_out :
  let fail := Begin (sample_io "0") [("success", VBool false)] in
  let ok := (λ n : nat, Begin (sample_io (pretty n)) [("success", VBool true)])
              <$> seq 1 100 in
  let q := TaskQueue.constructor in
  StatusRoutes.deliveryStatus
    (StatusRoutes.check (logger (run (start Missing) (fail :: take 99 ok))) q)
    = "issues detected" ∧
  StatusRoutes.deliveryStatus
    (StatusRoutes.check (logger (run (start Missing) (fail :: ok))) q)
    = "operational".
Proof. by vm_compute. Qed.

(** The rounding of [successRate], checked for every count that a memory
    log of at most 100 entries can give. *)
Definition rate_is_exact (total : nat) : bool :=
  forallb (λ success,
             bool_decide (percentage success total = "100.00%" ↔ success = total) &&
             bool_decide (percentage success total ≠ "0%"))
          (seq 0 (S total)).

Lemma rates_are_exact : forallb rate_is_exact (seq 1 100) = true.
Proof. by vm_compute. Qed.

Lemma percentage_exact success total :
  0 < total ≤ 100 → success ≤ total →
  (percentage success total = "100.00%" ↔ success = total) ∧
  percentage success total ≠ "0%".
Proof.
  intros Ht Hs. pose proof rates_are_exact as H.
  rewrite forallb_forall in H. specialize (H total).
  unfold rate_is_exact in H. rewrite forallb_forall in H.
  assert (In total (seq 1 100)) as Hin1 by (apply in_seq; lia).
  assert (In success (seq 0 (S total))) as Hin2 by (apply in_seq; lia).
  specialize (H Hin1 success Hin2).
  apply andb_true_iff in H as [H1 H2].
  apply bool_decide_eq_true in H1. apply bool_decide_eq_true in H2. done.
Qed.

(** X24: on a logger in use, the statistics count the last 100 calls of
    [logEmailAttempt]: [total] is the number of calls up to 100, [success]
    and [failed] add up to it, and the rounding of [successRate] hides no
    failure: it reads ['100.00%'] exactly when there are entries and none
    has failed, and ['0%'] exactly when there is no entry. *)
Theorem success_rate_hides_no_failure (f : file) (ts : list turn) :
  let st := fst (getStats (logger (run (start f) ts))) in
  total st = 100 `min` length (logged ts) ∧
  stats_success st + stats_failed st = total st ∧
  (successRate st = "100.00%" ↔ logged ts ≠ [] ∧ stats_failed st = 0) ∧
  (successRate st = "0%" ↔ logged ts = []).
Proof.
  intros st. subst st. unfold getStats. cbv beta zeta.
  unfold fst, total, stats_success, stats_failed, successRate.
  rewrite start_memoryLogs.
  set (recent := take 100 (reverse (logged ts))).
  pose proof (length_filter (λ log, status log = success) recent) as Hle.
  assert (length recent = 100 `min` length (logged ts)) as Hlen.
  { unfold recent. by rewrite length_take, length_reverse. }
  assert (length recent = 0 ↔ logged ts = []) as Hnil.
  { rewrite Hlen. split.
    - intros E. apply length_zero_iff_nil. lia.
    - by intros ->. }
  split; [done|]. split; [lia|].
  destruct (length recent =? 0) eqn:E.
  - apply Nat.eqb_eq in E. pose proof (proj1 Hnil E) as Hn. split.
    + split; [done|]. by intros [Hne _].
    + done.
  - apply Nat.eqb_neq in E.
    destruct (percentage_exact (length (filter (λ log, status log = success) recent))
                (length recent)) as [H1 H2]; [lia|lia|].
    split.
    + rewrite H1. split.
      * intros Heq. split; [|lia]. intros Hn. by apply Hnil in Hn.
      * intros [_ Hz]. lia.
    + split; [done|]. intros Hn. by apply Hnil in Hn.
Qed.

Definition is_init (t : turn) : bool :=
  match t with Init _ => true | _ => false end.

(** X13: as long as [init()] has not succeeded, the logger leaves the log file
    alone: whatever calls of [logEmailAttempt] are made, the file keeps its
    content, nothing waits to be read or written, and the entries are kept
    in memory only. *)
Theorem uninitialised_logger_leaves_file (R : runtime) (ts : list turn) :
  initialized (logger R) = false → reading R = [] → writing R = [] →
  Forall (λ t, is_init t = false) ts →
  let R' := run R ts in
  logFile (logger R') = logFile (logger R) ∧
  initialized (logger R') = false ∧
  reading R' = [] ∧ writing R' = [].
Proof.
  intros Hi Hr Hw Hts. cbv zeta. revert R Hi Hr Hw.
  induction Hts as [|t ts Ht _ IH]; intros R Hi Hr Hw; [done|].
  unfold run. simpl. fold (run (perform R t) ts).
  assert (logFile (logger (perform R t)) = logFile (logger R) ∧
          initialized (logger (perform R t)) = false ∧
          reading (perform R t) = [] ∧ writing (perform R t) = []) as (H1 & H2 & H3 & H4).
  { destruct t as [b|e d|k b|k b]; [done| | |].
    - simpl. by rewrite Hi.
    - simpl. unfold read_done. by rewrite Hr.
    - simpl. unfold write_done. by rewrite Hw. }
  destruct (IH (perform R t) H2 H3 H4) as (H5 & H6 & H7 & H8).
  by rewrite H5, H1.
Qed.

(** A logger whose [init()] failed to create the file: two attempts later
    there is still no file. *)
Lemma uninitialised_logger_leaves_file_witness :
  let R := run (start Missing) [Init true] in
  let ts := Log (sample_io "1") [("success", VBool true)]
            ++ Log (sample_io "2") [("success", VBool false)] in
  logFile (logger (run R ts)) = Missing ∧
  length (memoryLogs (logger (run R ts))) = 2.
Proof.
  split; [|reflexivity].
  apply (uninitialised_logger_leaves_file
           (run (start Missing) [Init true])
           (Log (sample_io "1") [("success", VBool true)]
            ++ Log (sample_io "2") [("success", VBool false)])).
  - reflexivity.
  - reflexivity.
  - reflexivity.
  - by repeat constructor.
Defined.

(** The entries of a log file. *)
Definition entries (f : file) : list log_entry :=
  match f with Logs logs => logs | _ => [] end.

(** What holds of a logger that started next to the file [f] once the
    entries [done] have been built. *)
Record known (f : file) (done : list log_entry) (R : runtime) : Prop := {
  known_file : logFile (logger R) = f ∨
               ∃ logs, logFile (logger R) = Logs logs ∧ logs ⊆ entries f ++ done;
  known_reading : Forall (λ x, x ∈ done) (reading R);
  known_writing : Forall (λ logs, logs ⊆ entries f ++ done) (writing R)
}.

Lemma known_mono f done x R : known f done R → known f (done ++ [x]) R.
Proof.
  intros [Hf Hr Hw]. split.
  - destruct Hf as [Hf|(logs & Hf & Hs)]; [by left|]. right. exists logs. split; [done|].
    intros y Hy. apply Hs in Hy. rewrite (assoc_L (++)). apply elem_of_app. by left.
  - eapply Forall_impl; [exact Hr|]. intros y Hy. apply elem_of_app. by left.
  - eapply Forall_impl; [exact Hw|]. intros l Hl y Hy. apply Hl in Hy.
    rewrite (assoc_L (++)). apply elem_of_app. by left.
Qed.

Lemma known_file_entries f done R logs :
  known f done R → logFile (logger R) = Logs logs → logs ⊆ entries f ++ done.
Proof.
  intros [Hf _ _] E. destruct Hf as [Hf|(l & Hf & Hs)].
  - rewrite E in Hf. subst f. simpl. intros y Hy. apply elem_of_app. by left.
  - rewrite E in Hf. by injection Hf as ->.
Qed.

Lemma perform_known f done R t :
  known f done R →
  known f (done ++ logged [t]) (perform R t).
Proof.
  intros HK. destruct t as [b|e d|k b|k b]; simpl; rewrite ?app_nil_r.
  - destruct HK as [Hf Hr Hw]. split; [|done|done]. simpl.
    unfold init. destruct (logFile (logger R)) eqn:E; try done.
    destruct b; simpl; [by rewrite E|].
    right. exists []. split; [done|]. intros y Hy. by apply elem_of_nil in Hy.
  - apply (known_mono f done (make_entry e d)) in HK. destruct HK as [Hf Hr Hw].
    split; [done| |done]. simpl.
    destruct (initialized (logger R)); [|done].
    apply Forall_app. split; [done|]. apply Forall_singleton.
    apply elem_of_app. right. by apply list_elem_of_singleton.
  - unfold read_done. destruct (reading R !! k) as [x|] eqn:E; [|done].
    pose proof HK as [Hf Hr Hw].
    assert (x ∈ done) as Hx by exact (Forall_lookup_1 _ _ _ _ Hr E).
    split; simpl; [done|by apply Forall_delete|].
    apply Forall_app. split; [done|].
    destruct b; [by apply Forall_nil|].
    destruct (logFile (logger R)) as [| | |logs] eqn:EF; try by apply Forall_nil.
    + apply Forall_singleton. intros y Hy. apply list_elem_of_singleton in Hy as ->.
      apply elem_of_app. by right.
    + apply Forall_singleton.
      pose proof (known_file_entries f done R logs HK EF) as Hs.
      assert (x :: logs ⊆ entries f ++ done) as Hxs.
      { intros y Hy. apply elem_of_cons in Hy as [->|Hy].
        - apply elem_of_app. by right.
        - by apply Hs. }
      match goal with |- (if ?c then _ else _) ⊆ _ => destruct c end; [|exact Hxs].
      intros y Hy. apply Hxs. apply elem_of_cons in Hy as [->|Hy]; [by left|].
      right. eapply subseteq_take, Hy.
  - unfold write_done. destruct (writing R !! k) as [logs|] eqn:E; [|done].
    destruct HK as [Hf Hr Hw].
    pose proof (Forall_lookup_1 _ _ _ _ Hw E) as Hl. simpl in Hl.
    split; simpl; [|done|by apply Forall_delete].
    destruct b; [done|]. right. by exists logs.
Qed.

Lemma run_known f ts : ∀ done R,
  known f done R → known f (done ++ logged ts) (run R ts).
Proof.
  induction ts as [|t ts IH]; intros done R HK.
  { simpl. rewrite app_nil_r. exact HK. }
  apply (perform_known f done R t) in HK. apply IH in HK.
  replace (done ++ logged (t :: ts)) with ((done ++ logged [t]) ++ logged ts); [exact HK|].
  rewrite <- (assoc_L (++)). f_equal. by destruct t.
Qed.

(** X14: whatever the order in which the reads and writes of overlapping calls
    end, the log file holds nothing made up: it is either as it was when
    the logger started, or an array whose entries were in the file at the
    start or were built by a call of [logEmailAttempt]. *)
Theorem file_holds_only_known_entries (f : file) (ts : list turn) :
  let F := logFile (logger (run (start f) ts)) in
  F = f ∨ ∃ logs, F = Logs logs ∧ ∀ log, log ∈ logs → log ∈ entries f ∨ log ∈ logged ts.
Proof.
  intros F. assert (known f [] (start f)) as HK.
  { split; simpl; [by left|done|done]. }
  apply (run_known f ts) in HK. simpl in HK. destruct HK as [Hf _ _].
  destruct Hf as [Hf|(logs & Hf & Hs)]; [by left|].
  right. exists logs. split; [done|]. intros log Hl. apply Hs in Hl.
  by apply elem_of_app in Hl.
Qed.

End EmailLoggerMore.

(** * More properties of the mail tiers *)

Module EmailServiceMore.
Import JS EmailService EmailServiceFacts.


Lemma remember_head logEntry L :
  (0 < EmailLogger.maxMemoryLogs L)%nat →
  head (EmailLogger.remember logEntry L) = Some logEntry.
Proof.
  intros H. rewrite EmailLoggerFacts.remember_eq.
  destruct (EmailLogger.maxMemoryLogs L); [lia|done].
Qed.



(** ** Histories of the mail service *)

Import MailRuntime.

Abbreviation active S := (NoopEmailService.active (noopEmailService (services S))).
Abbreviation capacity S := (EmailLogger.maxMemoryLogs (emailLogger (services S))).

Definition unverifiable (ev : event) : bool :=
  match ev with Verified false false => true | _ => false end.

Lemma step_fields S ev :
  active (step S ev) = active S || unverifiable ev ∧
  capacity (step S ev) = capacity S.
Proof.
  destruct ev as [b|po fo|k b|k b|mo md|i sent e|i sent e|i now random e|]; simpl.
  - split; [by rewrite orb_false_r|apply EmailLoggerFacts.init_fields].
  - split; [|done]. by destruct po, fo, (active S).
  - rewrite orb_false_r. split; [done|].
    unfold EmailLogger.read_done. simpl. by destruct (pending_reads S !! k).
  - rewrite orb_false_r. split; [done|].
    unfold EmailLogger.write_done. simpl. by destruct (pending_writes S !! k).
  - by rewrite orb_false_r.
  - rewrite orb_false_r. destruct (passes S !! i) as [p|]; [|done].
    destruct (point p); try done. unfold primary_done. by destruct sent.
  - rewrite orb_false_r. destruct (passes S !! i) as [p|]; [|done].
    destruct (point p); try done. unfold fallback_done. by destruct sent.
  - rewrite orb_false_r. destruct (passes S !! i) as [p|]; [|done].
    destruct (point p); try done. unfold last_resort.
    destruct (active S) eqn:E; simpl; by rewrite ?E.
  - by rewrite orb_false_r.
Qed.

Lemma run_fields evs : ∀ S,
  active (run S evs) = active S || existsb unverifiable evs ∧
  capacity (run S evs) = capacity S.
Proof.
  induction evs as [|ev evs IH]; intros S; simpl.
  - by rewrite orb_false_r.
  - destruct (IH (step S ev)) as [H1 H2]. destruct (step_fields S ev) as [H3 H4].
    unfold run in *. rewrite H1, H2, H3, H4, orb_assoc. done.
Qed.

(** X16: the simulated tier is active exactly when the service was
    constructed in development mode without credentials, or when some
    connection test could verify neither the primary nor the fallback
    transport.  No job switches it on or off, however the passes of the
    job bodies interleave: once active, it stays active, and
    [GET /email-mode] answers ['simulated'] from then on. *)
Theorem activation_is_permanent
    (isDevelopment credentials : bool) (f : EmailLogger.file) (evs more : list event) :
  let S := run (boot isDevelopment credentials f) evs in
  active S = (isDevelopment && negb credentials) || existsb unverifiable evs ∧
  active (run S more) = active S || existsb unverifiable more ∧
  StatusRoutes.email_mode (noopEmailService (services (run S more)))
  = if active S || existsb unverifiable more then "simulated" else "real".
Proof.
  intros S. subst S. split; [|split].
  - rewrite (proj1 (run_fields evs _)). simpl.
    by destruct (isDevelopment && negb credentials).
  - apply run_fields.
  - unfold StatusRoutes.email_mode. by rewrite (proj1 (run_fields more _)).
Qed.

(** The connection test is the initialisation of the logger followed by
    the end of the verifications. *)
Lemma testConnection_events fs_error primary_ok fallback_ok S :
  services (run S [Init fs_error; Verified primary_ok fallback_ok])
  = snd (testConnection fs_error primary_ok fallback_ok (services S)).
Proof. done. Qed.

(** X17: with the simulated tier active, a pass through the tiers answers
    [success: true] whatever the two transports do, for the customer
    confirmation as for the new-order notification: a delivery that failed
    twice is reported as delivered. *)
Theorem active_simulation_masks_failure
    (e : env) (orderData : order) (email : string) (w : world) :
  NoopEmailService.active (noopEmailService w) = true →
  prop (fst (sendCustomerOrderConfirmation_job e orderData w)) "success" = VBool true ∧
  prop (fst (sendNewOrderNotification_job email e orderData w)) "success" = VBool true.
Proof.
  intros Hact.
  unfold sendCustomerOrderConfirmation_job, sendNewOrderNotification_job, send_through_tiers.
  destruct (primary e) as [m|pe]; [done|].
  unfold fallback_sendMail, EmailFallbackService.sendMail.
  destruct (fallback e) as [m|fe]; simpl; [done|].
  rewrite Hact. done.
Qed.

Lemma active_simulation_masks_failure_witness :
  NoopEmailService.active (noopEmailService activated_world) = true ∧
  prop (fst (sendCustomerOrderConfirmation_job nothing_delivers sample_order activated_world))
    "success" = VBool true ∧
  prop (fst (sendNewOrderNotification_job "admin@example.com" nothing_delivers sample_order
               activated_world)) "success" = VBool true.
Proof.
  split; [reflexivity|].
  apply (active_simulation_masks_failure nothing_delivers sample_order "admin@example.com"
           activated_world).
  reflexivity.
Defined.

(** ** The counters of the fallback tier *)

(** The passes whose primary send has failed, and those which the
    fallback transport has delivered. *)
Definition primary_failed (p : pass) : bool :=
  match point p with
  | AtPrimary | Ended (Some Primary) _ => false
  | _ => true
  end.

Definition rescued (p : pass) : bool :=
  match point p with Ended (Some Fallback) _ => true | _ => false end.

Definition count (f : pass → bool) (l : list pass) : Z :=
  Z.of_nat (length (filter (λ p, f p = true) l)).

Lemma count_cons f p l : count f (p :: l) = ((if f p then 1 else 0) + count f l)%Z.
Proof.
  unfold count. rewrite filter_cons.
  destruct (decide (f p = true)) as [E|E].
  - rewrite E. simpl length. lia.
  - apply not_true_is_false in E. rewrite E. lia.
Qed.

Lemma count_app f l1 l2 : count f (l1 ++ l2) = (count f l1 + count f l2)%Z.
Proof. unfold count. rewrite filter_app, length_app. lia. Qed.

Lemma count_insert f l i p q :
  l !! i = Some p →
  count f (<[i := q]> l)
  = (count f l - (if f p then 1 else 0) + (if f q then 1 else 0))%Z.
Proof.
  intros H. pose proof (lookup_lt_Some _ _ _ H) as Hlt.
  rewrite (insert_take_drop l i q Hlt).
  assert (count f l = count f (take i l ++ p :: drop (S i) l)) as ->
    by by rewrite (take_drop_middle l i p H).
  rewrite !count_app, !count_cons. lia.
Qed.

Definition counted (S : system) : Prop :=
  EmailFallbackService.fallbackUsed (emailFallback (services S))
  = count primary_failed (passes S) ∧
  EmailFallbackService.fallbackSuccess (emailFallback (services S))
  = count rescued (passes S).

Lemma step_counted S ev : counted S → counted (step S ev).
Proof.
  intros [H1 H2].
  destruct ev as [b|po fo|k b|k b|mo md|i sent e|i sent e|i now random e|]; simpl;
    try (by split).
  - split; simpl; rewrite count_app, count_cons, <- ?H1, <- ?H2; unfold count; simpl; lia.
  - destruct (passes S !! i) as [p|] eqn:E; [|by split].
    destruct (point p) eqn:Ep; try (by split).
    unfold primary_done. destruct sent as [m|err]; split; simpl;
      rewrite (count_insert _ _ _ _ _ E), <- ?H1, <- ?H2;
      unfold primary_failed, rescued; simpl; rewrite Ep; lia.
  - destruct (passes S !! i) as [p|] eqn:E; [|by split].
    destruct (point p) eqn:Ep; try (by split).
    unfold fallback_done. destruct sent as [m|err]; split; simpl;
      rewrite (count_insert _ _ _ _ _ E), <- ?H1, <- ?H2;
      unfold primary_failed, rescued; simpl; rewrite Ep; lia.
  - destruct (passes S !! i) as [p|] eqn:E; [|by split].
    destruct (point p) eqn:Ep; try (by split).
    unfold last_resort. destruct (active S); split; simpl;
      rewrite (count_insert _ _ _ _ _ E), <- ?H1, <- ?H2;
      unfold primary_failed, rescued; simpl; rewrite Ep; lia.
Qed.

Lemma run_counted evs : ∀ S, counted S → counted (run S evs).
Proof. induction evs as [|ev evs IH]; intros S H; [done|]. by apply IH, step_counted. Qed.

Lemma rescued_le l : (0 ≤ count rescued l ≤ count primary_failed l)%Z.
Proof.
  induction l as [|p l IH]; [done|].
  rewrite !count_cons.
  assert (0 ≤ (if rescued p then 1 else 0) ≤ (if primary_failed p then 1 else 0))%Z.
  { unfold rescued, primary_failed. destruct (point p) as [| | |[[]|] r]; lia. }
  lia.
Qed.

(** X19: the counters of the fallback tier, over any history of the
    service and however its passes interleave: [fallbackUsed] is the number
    of passes through the tiers whose primary send has failed,
    [fallbackSuccess] the number of those that the fallback transport has
    delivered, so [0 <= fallbackSuccess <= fallbackUsed].  The jobs that
    use the primary transport only are no such passes and are not counted,
    even when their send fails. *)
Theorem fallback_counters_count_passes
    (isDevelopment credentials : bool) (f : EmailLogger.file) (evs : list event) :
  let S := run (boot isDevelopment credentials f) evs in
  let F := emailFallback (services S) in
  EmailFallbackService.fallbackUsed F = count primary_failed (passes S) ∧
  EmailFallbackService.fallbackSuccess F = count rescued (passes S) ∧
  (0 ≤ EmailFallbackService.fallbackSuccess F ≤ EmailFallbackService.fallbackUsed F)%Z.
Proof.
  intros S F. subst F.
  destruct (run_counted evs (boot isDevelopment credentials f)) as [H1 H2]; [done|].
  fold S in H1, H2. rewrite H1, H2. pose proof (rescued_le (passes S)). repeat split; lia.
Qed.

(** Two passes that overlap, and a status mail in between. *)
Example counters_of_overlapping_passes :
  let mail := customer_mail sample_order in
  let meta := customer_metadata sample_order in
  let io := EmailLoggerFacts.sample_io "1" in
  let S := run (boot false true EmailLogger.Missing)
             [Start mail meta; Start mail meta;
              PrimaryDone 0 (Nodemailer.Failed timeout_error) io; PrimaryOnly;
              PrimaryDone 1 (Nodemailer.Failed timeout_error) io;
              FallbackDone 1 (Nodemailer.Sent (VStr "<fallback-1@mail>")) io] in
  EmailFallbackService.fallbackUsed (emailFallback (services S)) = 2%Z ∧
  EmailFallbackService.fallbackSuccess (emailFallback (services S)) = 1%Z ∧
  attempts (services S) = [Primary; Primary; Fallback; Primary; Fallback] ∧
  point <$> passes S
  = [AtFallback;
     Ended (Some Fallback)
       (VObj [("success", VBool true); ("messageId", VStr "<fallback-1@mail>");
              ("usingFallback", VBool true)])].
Proof. by vm_compute. Qed.

(** ** The jobs that use the primary transport only *)






(** Nothing but failed status mails since the start: no data. *)
Example failed_status_mails_show_no_data :
  let S := run (boot false true EmailLogger.Missing) [PrimaryOnly; PrimaryOnly] in
  StatusRoutes.deliveryStatus
    (StatusRoutes.check (emailLogger (services S)) TaskQueue.constructor)
  = "no data" ∧
  fst (primary_only_job nothing_delivers (services S))
  = VObj [("success", VBool false); ("error", VStr "Connection timeout")].
Proof. by vm_compute. Qed.

(** ** A pass that nothing interrupts *)

Lemma idle_turns b S :
  pending_reads S = [] → pending_writes S = [] →
  step (step S (ReadDone 0 b)) (WriteDone 0 b) = S.
Proof. destruct S as [[L F N a] rd wr ps]. simpl. by intros -> ->. Qed.

Lemma logger_turn_twice f g S :
  logger_turn g (logger_turn f S) = logger_turn (λ R, g (f R)) S.
Proof.
  unfold logger_turn. cbn [services pending_reads pending_writes passes emailLogger
    emailFallback noopEmailService attempts].
  by destruct (f _).
Qed.

(** A call of the logger with its read and its write is one
    [logEmailAttempt]. *)
Lemma logged_through e emailData S :
  pending_reads S = [] → pending_writes S = [] →
  step (step (log_begin e emailData S) (ReadDone 0 (EmailLogger.fs_error e)))
       (WriteDone 0 (EmailLogger.fs_error e))
  = set_services (log e emailData (services S)) S.
Proof.
  intros Hr Hw.
  pose proof (EmailLoggerFacts.Log_logEmailAttempt e emailData (emailLogger (services S)))
    as H.
  unfold EmailLoggerFacts.run, EmailLoggerFacts.Log in H.
  cbn [foldl EmailLoggerFacts.perform] in H.
  unfold log_begin. cbn [step]. rewrite !logger_turn_twice.
  unfold logger_turn. rewrite Hr, Hw, H.
  destruct S as [[L F N a] rd wr ps]. simpl in *. by subst.
Qed.

Lemma run_cons S ev evs : run S (ev :: evs) = run (step S ev) evs.
Proof. done. Qed.

Lemma run_turns S b evs :
  run S (ReadDone 0 b :: WriteDone 0 b :: evs) = run (run S [ReadDone 0 b; WriteDone 0 b]) evs.
Proof. done. Qed.

Lemma logged_turns e emailData i p st S :
  pending_reads S = [] → pending_writes S = [] →
  run (set_point i p st (log_begin e emailData S))
      [ReadDone 0 (EmailLogger.fs_error e); WriteDone 0 (EmailLogger.fs_error e)]
  = set_point i p st (set_services (log e emailData (services S)) S).
Proof.
  intros Hr Hw. rewrite <- (logged_through e emailData S Hr Hw). done.
Qed.

Lemma idle_run b S evs :
  pending_reads S = [] → pending_writes S = [] →
  run S (ReadDone 0 b :: WriteDone 0 b :: evs) = run S evs.
Proof.
  intros Hr Hw. rewrite run_turns.
  change (run S [ReadDone 0 b; WriteDone 0 b])
    with (step (step S (ReadDone 0 b)) (WriteDone 0 b)).
  by rewrite idle_turns.
Qed.

(** The events of a pass do nothing to a pass that is not at their
    stage. *)
Lemma fallback_done_elsewhere S i p sent e :
  passes S !! i = Some p → point p ≠ AtFallback → step S (FallbackDone i sent e) = S.
Proof. intros H Hp. cbn [step]. rewrite H. by destruct (point p). Qed.

Lemma resume_elsewhere S i p now random e :
  passes S !! i = Some p → point p ≠ AtLastResort → step S (Resume i now random e) = S.
Proof. intros H Hp. cbn [step]. rewrite H. by destruct (point p). Qed.

(** The events of one pass, run from a system in which no read or write is
    under way, do what [send_through_tiers] does in one piece: the same
    singletons at the end, and a pass that has ended with the same
    answer. *)
Lemma uninterrupted_pass e mo md w ps :
  let S := {| services := w; pending_reads := []; pending_writes := []; passes := ps |} in
  ∃ tier,
    run S (uninterrupted (length ps) e mo md)
    = {| services := snd (send_through_tiers e mo md w);
         pending_reads := []; pending_writes := [];
         passes := ps ++ [{| mailOptions := mo; metadata := md;
                             point := Ended tier (fst (send_through_tiers e mo md w)) |}] |}.
Proof.
  intros S.
  assert (∀ q, (ps ++ [q]) !! length ps = Some q) as Hlk
    by (intros q; by apply list_lookup_middle).
  assert (∀ q q', <[length ps := q']> (ps ++ [q]) = ps ++ [q']) as Hins.
  { intros q q'. rewrite insert_app_r_alt by lia. by rewrite Nat.sub_diag. }
  unfold uninterrupted. rewrite run_cons.
  set (p0 := {| mailOptions := mo; metadata := md; point := AtPrimary |}).
  set (S1 := {| services := attempt Primary w; pending_reads := []; pending_writes := [];
                passes := ps ++ [p0] |}).
  change (step S (Start mo md)) with S1.
  unfold send_through_tiers.
  destruct (primary e) as [m|pe].
  - rewrite run_cons.
    assert (step S1 (PrimaryDone (length ps) (Nodemailer.Sent m) (first_log e))
            = primary_done (length ps) p0 (Nodemailer.Sent m) (first_log e) S1) as ->.
    { cbn [step passes S1]. by rewrite Hlk. }
    unfold primary_done. rewrite run_turns, logged_turns by done.
    match goal with |- context [run ?X (FallbackDone _ _ _ :: _)] => set (S2 := X) end.
    assert (passes S2 !! length ps
            = Some {| mailOptions := mo; metadata := md;
                      point := Ended (Some Primary)
                                 (VObj [("success", VBool true); ("messageId", m)]) |}) as H2.
    { unfold S2, set_point. cbn [passes set_services S1]. by rewrite Hins, Hlk. }
    rewrite run_cons, (fallback_done_elsewhere _ _ _ _ _ H2) by done.
    rewrite idle_run by done.
    rewrite run_cons, (resume_elsewhere _ _ _ _ _ _ H2) by done.
    rewrite idle_run by done.
    eexists. unfold S2, set_point, set_services. cbn [passes services pending_reads
      pending_writes S1]. rewrite Hins. reflexivity.
  - rewrite run_cons.
    set (p1 := {| mailOptions := mo; metadata := md; point := AtFallback |}).
    set (S2 := {| services := count_use (attempt Fallback (attempt Primary w));
                  pending_reads := []; pending_writes := []; passes := ps ++ [p1] |}).
    assert (step S1 (PrimaryDone (length ps) (Nodemailer.Failed pe) (first_log e)) = S2)
      as ->.
    { cbn [step passes S1]. rewrite Hlk. unfold primary_done, set_point, set_services.
      cbn [point p0 passes S1 mailOptions metadata services pending_reads pending_writes].
      by rewrite Hins. }
    rewrite idle_run by done. rewrite run_cons.
    assert (step S2 (FallbackDone (length ps) (fallback e) (first_log e))
            = fallback_done (length ps) p1 (fallback e) (first_log e) S2) as ->.
    { cbn [step passes S2]. by rewrite Hlk. }
    unfold fallback_sendMail, EmailFallbackService.sendMail, fallback_done.
    destruct (fallback e) as [m|fe].
    + rewrite run_turns, logged_turns by done.
      match goal with |- context [run ?X (Resume _ _ _ _ :: _)] => set (S3 := X) end.
      assert (passes S3 !! length ps
              = Some {| mailOptions := mo; metadata := md;
                        point := Ended (Some Fallback)
                                   (VObj [("success", VBool true); ("messageId", m);
                                          ("usingFallback", VBool true)]) |}) as H3.
      { unfold S3, set_point. cbn [passes set_services S2]. by rewrite Hins, Hlk. }
      rewrite run_cons, (resume_elsewhere _ _ _ _ _ _ H3) by done.
      rewrite idle_run by done.
      eexists. unfold S3, set_point, set_services. cbn [passes services pending_reads
        pending_writes S2]. rewrite Hins. reflexivity.
    + rewrite run_turns, logged_turns by done.
      set (p2 := {| mailOptions := mo; metadata := md; point := AtLastResort |}).
      match goal with |- context [run ?X (Resume _ _ _ _ :: _)] => set (S3 := X) end.
      assert (passes S3 !! length ps = Some p2) as H3.
      { unfold S3, set_point. cbn [passes set_services S2]. by rewrite Hins, Hlk. }
      rewrite run_cons.
      assert (step S3 (Resume (length ps) (noop_now e) (noop_random e) (second_log e))
              = last_resort (length ps) p2 (noop_now e) (noop_random e) (second_log e) S3)
        as ->.
      { cbn [step]. by rewrite H3. }
      unfold last_resort.
      assert (NoopEmailService.active (noopEmailService (services S3))
              = NoopEmailService.active (noopEmailService w)) as -> by done.
      unfold noop_sendMail, NoopEmailService.sendMail.
      destruct (NoopEmailService.active (noopEmailService w)) eqn:Hact.
      * rewrite logged_turns by done.
        eexists. unfold S3, set_point, set_services.
        cbn [passes services pending_reads pending_writes S2]. rewrite !Hins.
        unfold log, EmailLogger.logEmailAttempt. simpl. rewrite Hact. reflexivity.
      * rewrite logged_turns by done.
        eexists. unfold S3, set_point, set_services.
        cbn [passes services pending_reads pending_writes S2]. rewrite !Hins.
        unfold log, EmailLogger.logEmailAttempt. simpl. rewrite Hact. reflexivity.
Qed.

(** The job body of [sendCustomerOrderConfirmation] is such a pass. *)
Lemma customer_pass e orderData w :
  sendCustomerOrderConfirmation_job e orderData w
  = send_through_tiers e (customer_mail orderData) (customer_metadata orderData) w.
Proof. done. Qed.

(** ** The entry of a pass that ends *)

Lemma just_changed {A} (l : list A) j q i x :
  (j < length l)%nat → l !! i ≠ Some x → <[j := q]> l !! i = Some x → i = j ∧ q = x.
Proof.
  intros Hj Hn H. destruct (decide (i = j)) as [->|Hne].
  - rewrite list_lookup_insert_eq in H by done. by injection H.
  - rewrite list_lookup_insert_ne in H by done. done.
Qed.

(** The retry count logged with the answer of a pass. *)
Definition logged_retryCount (tier : option tier) : Z :=
  match tier with
  | Some Fallback => 1
  | Some Simulated => 2
  | _ => 0
  end.

(** X18: passes overlap, so the newest entry of the in-memory log need not
    be that of the pass that returns.  But at the moment a pass for a
    customer confirmation ends, that is when it fixes its answer and calls
    the logger for the last time, the entry it puts in front of the log is
    the one of its answer: it has status ['success'] exactly when the
    answer has [success: true], carries the answer's message id and error,
    and names the customer, the order and the type of the mail. *)
Theorem ending_entry_matches_answer
    (isDevelopment credentials : bool) (f : EmailLogger.file) (evs : list event)
    (ev : event) (i : nat) (orderData : order) (tier : option tier) (result : value) :
  let S := run (boot isDevelopment credentials f) evs in
  let S' := step S ev in
  let ended := {| mailOptions := customer_mail orderData;
                  metadata := customer_metadata orderData;
                  point := Ended tier result |} in
  passes S !! i ≠ Some ended → passes S' !! i = Some ended →
  ∃ entry,
    head (memory (services S')) = Some entry ∧
    (EmailLogger.status entry = EmailLogger.success ↔ prop result "success" = VBool true) ∧
    EmailLogger.messageId entry = or (prop result "messageId") VNull ∧
    EmailLogger.error entry = or (prop result "error") VNull ∧
    EmailLogger.to entry = VStr (customer_email orderData) ∧
    EmailLogger.orderId entry = VStr (orderId orderData) ∧
    EmailLogger.type entry = VStr "customer_confirmation" ∧
    EmailLogger.retryCount entry = VNum (logged_retryCount tier).
Proof.
  intros S S' ended Hbefore Hafter.
  assert (0 < capacity S)%nat as Hmax.
  { unfold S. rewrite (proj2 (run_fields evs _)). simpl. lia. }
  subst S'. clearbody S.
  destruct ev as [b|po fo|k b|k b|mo md|j sent e|j sent e|j now random e|];
    try (by destruct Hbefore).
  - simpl in Hafter. apply lookup_app_Some in Hafter as [Hafter|[_ Hafter]]; [done|].
    destruct (i - length (passes S))%nat; [|by destruct n]. discriminate Hafter.
  - cbn [step] in *. destruct (passes S !! j) as [p|] eqn:E; [|done].
    destruct (point p) eqn:Ep; try done.
    unfold primary_done in *. destruct sent as [m|err].
    + destruct (just_changed _ _ _ _ _ (lookup_lt_Some _ _ _ E) Hbefore Hafter)
        as [-> Heq].
      injection Heq as Hm Hd <- <-. rewrite Hm, Hd.
      eexists. split; [by apply remember_head|]. done.
    + destruct (just_changed _ _ _ _ _ (lookup_lt_Some _ _ _ E) Hbefore Hafter)
        as [_ Heq]. discriminate Heq.
  - cbn [step] in *. destruct (passes S !! j) as [p|] eqn:E; [|done].
    destruct (point p) eqn:Ep; try done.
    unfold fallback_done in *. destruct sent as [m|err].
    + destruct (just_changed _ _ _ _ _ (lookup_lt_Some _ _ _ E) Hbefore Hafter)
        as [-> Heq].
      injection Heq as Hm Hd <- <-. rewrite Hm, Hd.
      eexists. split; [by apply remember_head|]. done.
    + destruct (just_changed _ _ _ _ _ (lookup_lt_Some _ _ _ E) Hbefore Hafter)
        as [_ Heq]. discriminate Heq.
  - cbn [step] in *. destruct (passes S !! j) as [p|] eqn:E; [|done].
    destruct (point p) eqn:Ep; try done.
    unfold last_resort in *. destruct (active S) eqn:Hact.
    + destruct (just_changed _ _ _ _ _ (lookup_lt_Some _ _ _ E) Hbefore Hafter)
        as [-> Heq].
      injection Heq as Hm Hd <- <-. rewrite Hm, Hd.
      eexists. split; [by apply remember_head|]. done.
    + destruct (just_changed _ _ _ _ _ (lookup_lt_Some _ _ _ E) Hbefore Hafter)
        as [-> Heq].
      injection Heq as Hm Hd <- <-. rewrite Hm, Hd.
      eexists. split; [by apply remember_head|].
      split; [|done]. split; intros H; discriminate H.
Qed.

(** Two passes overlap; the second one ends first, delivered by the
    primary transport. *)
Lemma ending_entry_matches_answer_witness :
  let io := EmailLoggerFacts.sample_io "1" in
  let mail := customer_mail sample_order in
  let meta := customer_metadata sample_order in
  let S := run (boot false true EmailLogger.Missing) [Start mail meta; Start mail meta] in
  let S' := step S (PrimaryDone 1 (Nodemailer.Sent (VStr "<primary-2@mail>")) io) in
  ∃ entry,
    head (memory (services S')) = Some entry ∧
    EmailLogger.status entry = EmailLogger.success ∧
    EmailLogger.messageId entry = VStr "<primary-2@mail>" ∧
    EmailLogger.to entry = VStr "customer@example.com" ∧
    EmailLogger.orderId entry = VStr "ORD-1".
Proof.
  destruct (ending_entry_matches_answer false true EmailLogger.Missing
              [Start (customer_mail sample_order) (customer_metadata sample_order);
               Start (customer_mail sample_order) (customer_metadata sample_order)]
              (PrimaryDone 1 (Nodemailer.Sent (VStr "<primary-2@mail>"))
                 (EmailLoggerFacts.sample_io "1"))
              1 sample_order (Some Primary)
              (VObj [("success", VBool true); ("messageId", VStr "<primary-2@mail>")]))
    as (entry & H1 & H2 & H3 & _ & H5 & H6 & _).
  - simpl. discriminate.
  - reflexivity.
  - exists entry. split; [exact H1|]. split; [by apply H2|]. split; [exact H3|].
    split; [exact H5|exact H6].
Defined.

End EmailServiceMore.

(** * Properties of the response cache *)

Module PerformanceFacts.
Import JS Performance.

(** What happens to the cache: a request passes the middleware, an entry
    reaches the end of its time to live, or one of the two clearing
    functions is called. *)
Inductive event : Type :=
  | Request (ttl : Z) (req : request) (h : handler)
  | Expire (key : string)
  | Clear (key : option string)
  | ClearAll.

Definition perform (c : cache) (ev : event) : cache :=
  match ev with
  | Request ttl req h => snd (cacheMiddleware ttl req h c)
  | Expire key => delete key c
  | Clear key => snd (clearCache key c)
  | ClearAll => snd (clearAllCache c)
  end.

Definition run (c : cache) (evs : list event) : cache := foldl perform c evs.

(** A [GET] request without an [Authorization] header. *)
Definition anonymous_get (req : request) : bool :=
  String.eqb (method req) "GET" && negb (truthy (authorization req)).

Lemma middleware_bypass ttl req h c :
  anonymous_get req = false → cacheMiddleware ttl req h c = (FromHandler h, c).
Proof.
  unfold anonymous_get, cacheMiddleware. intros H.
  destruct (String.eqb (method req) "GET"), (truthy (authorization req)); done.
Qed.

Lemma middleware_anonymous ttl req h c :
  anonymous_get req = true →
  cacheMiddleware ttl req h c
  = if truthy (cache_get (cacheKey req) c) then (FromCache (cache_get (cacheKey req) c), c)
    else match h with
         | Json statusCode data =>
             (FromHandler h,
              if (200 <=? statusCode)%Z && (statusCode <? 300)%Z
              then <[cacheKey req := (data, ttl)]> c else c)
         | NoJson => (FromHandler h, c)
         end.
Proof.
  unfold anonymous_get, cacheMiddleware. intros H.
  destruct (String.eqb (method req) "GET"), (truthy (authorization req)); done.
Qed.

(** X21: whatever requests, expiries and clearings there were, every entry of
    the cache was put there by a [GET] request without an [Authorization]
    header whose handler answered, with a status code from 200 to 299,
    the data of the entry, under the URL of that request and with the time
    to live of its middleware. *)
Theorem cache_holds_only_anonymous_2xx
    (evs : list event) (key : string) (data : value) (ttl : Z) :
  run ∅ evs !! key = Some (data, ttl) →
  ∃ req statusCode,
    Request ttl req (Json statusCode data) ∈ evs ∧
    anonymous_get req = true ∧ cacheKey req = key ∧
    (200 ≤ statusCode < 300)%Z.
Proof.
  revert key data ttl. induction evs as [|ev evs IH] using rev_ind; intros key data ttl.
  { simpl. by rewrite lookup_empty. }
  unfold run. rewrite foldl_app. simpl. fold (run ∅ evs).
  intros Hl.
  assert (run ∅ evs !! key = Some (data, ttl) ∨
          ∃ req statusCode, ev = Request ttl req (Json statusCode data) ∧
            anonymous_get req = true ∧ cacheKey req = key ∧
            (200 ≤ statusCode < 300)%Z) as [Hold|(req & sc & -> & Hnew)].
  { destruct ev as [ttl' req h|k|k|]; simpl in Hl.
    - destruct (anonymous_get req) eqn:Ha.
      + rewrite (middleware_anonymous _ _ _ _ Ha) in Hl.
        destruct (truthy (cache_get (cacheKey req) (run ∅ evs))); [by left|].
        destruct h as [sc d|]; [|by left]. simpl in Hl.
        destruct ((200 <=? sc)%Z && (sc <? 300)%Z) eqn:Hsc; [|by left].
        apply lookup_insert_Some in Hl as [[Hk Hv]|[_ Hl]]; [|by left].
        injection Hv as -> ->. right. exists req, sc.
        apply andb_true_iff in Hsc as [H1 H2].
        apply Z.leb_le in H1. apply Z.ltb_lt in H2. done.
      + rewrite (middleware_bypass _ _ _ _ Ha) in Hl. by left.
    - apply lookup_delete_Some in Hl as [_ Hl]. by left.
    - destruct k as [k|]; [|by left]. simpl in Hl.
      destruct (String.eqb k ""); [by left|]. simpl in Hl.
      apply lookup_delete_Some in Hl as [_ Hl]. by left.
    - by rewrite lookup_empty in Hl. }
  - destruct (IH _ _ _ Hold) as (req & sc & Hin & H). exists req, sc.
    split; [|done]. apply elem_of_app. by left.
  - exists req, sc. split; [|done]. apply elem_of_app. right.
    by apply list_elem_of_singleton.
Qed.

Definition products : request :=
  {| method := "GET"; authorization := VUndefined;
     originalUrl := Some "/api/products?page=1"; url := "/products?page=1" |}.

Definition admin_products : request :=
  {| method := "GET"; authorization := VStr "Bearer token";
     originalUrl := Some "/api/products?page=1"; url := "/products?page=1" |}.

Definition listing : value := VObj [("success", VBool true); ("count", VNum 2)].

Lemma cache_holds_only_anonymous_2xx_witness :
  let evs := [Request 300 admin_products (Json 200 (VObj []));
              Request 300 products (Json 500 VNull);
              Request 60 products (Json 200 listing)] in
  run ∅ evs !! "/api/products?page=1" = Some (listing, 60%Z) ∧
  ∃ req statusCode,
    Request 60 req (Json statusCode listing) ∈ evs ∧
    anonymous_get req = true ∧ cacheKey req = "/api/products?page=1" ∧
    (200 ≤ statusCode < 300)%Z.
Proof.
  split; [by vm_compute|].
  apply (cache_holds_only_anonymous_2xx
           [Request 300 admin_products (Json 200 (VObj []));
            Request 300 products (Json 500 VNull);
            Request 60 products (Json 200 listing)]).
  by vm_compute.
Defined.

Lemma cache_get_insert key data ttl c : cache_get key (<[key := (data, ttl)]> c) = data.
Proof. unfold cache_get. by rewrite lookup_insert_eq. Qed.

(** X22: an answer of status 200 to 299 to an anonymous [GET] that finds
    nothing in the cache is served again to the next such request for the
    same URL, whose handlers are then not reached, whatever they would
    answer now; a request with an [Authorization] header or another method
    still reaches them.  When the data of the answer is falsy ([null],
    [false], [0], the empty string), it is stored but never served: the
    handlers are reached again. *)
Theorem stored_answer_is_served_again
    (ttl ttl' : Z) (req req' other : request) (statusCode : Z) (data : value)
    (h' : handler) (c : cache) :
  anonymous_get req = true → anonymous_get req' = true → cacheKey req' = cacheKey req →
  anonymous_get other = false →
  (200 ≤ statusCode < 300)%Z →
  truthy (cache_get (cacheKey req) c) = false →
  let c1 := snd (cacheMiddleware ttl req (Json statusCode data) c) in
  c1 !! cacheKey req = Some (data, ttl) ∧
  fst (cacheMiddleware ttl' req' h' c1)
  = (if truthy data then FromCache data else FromHandler h') ∧
  cacheMiddleware ttl' other h' c1 = (FromHandler h', c1).
Proof.
  intros Ha Ha' Hk Ho Hsc Hmiss c1.
  assert (c1 = <[cacheKey req := (data, ttl)]> c) as ->.
  { unfold c1. rewrite (middleware_anonymous _ _ _ _ Ha), Hmiss.
    destruct (200 <=? statusCode)%Z eqn:E1; [|apply Z.leb_gt in E1; lia].
    destruct (statusCode <? 300)%Z eqn:E2; [|apply Z.ltb_ge in E2; lia].
    done. }
  split; [by rewrite lookup_insert_eq|]. split; [|by apply middleware_bypass].
  rewrite (middleware_anonymous _ _ _ _ Ha'), Hk, cache_get_insert.
  destruct (truthy data); [done|]. by destruct h'.
Qed.

Lemma stored_answer_is_served_again_witness :
  let c1 := snd (cacheMiddleware 60 products (Json 200 listing) ∅) in
  let c0 := snd (cacheMiddleware 60 products (Json 200 VNull) ∅) in
  fst (cacheMiddleware 300 products (Json 500 VNull) c1) = FromCache listing ∧
  fst (cacheMiddleware 300 admin_products (Json 500 VNull) c1)
  = FromHandler (Json 500 VNull) ∧
  c0 !! "/api/products?page=1" = Some (VNull, 60%Z) ∧
  fst (cacheMiddleware 300 products (Json 200 listing) c0)
  = FromHandler (Json 200 listing).
Proof.
  destruct (stored_answer_is_served_again 60 300 products products admin_products 200
              listing (Json 500 VNull) ∅) as (_ & H1 & H2);
    [reflexivity|reflexivity|reflexivity|reflexivity|lia|reflexivity|].
  destruct (stored_answer_is_served_again 60 300 products products admin_products 200
              VNull (Json 200 listing) ∅) as (H3 & H4 & _);
    [reflexivity|reflexivity|reflexivity|reflexivity|lia|reflexivity|].
  split; [exact H1|]. split; [by rewrite H2|]. split; [exact H3|exact H4].
Defined.




End PerformanceFacts.
